(** * BusTub lab 1: extendible hash table and buffer pool manager

    A shallow embedding of
      - [src/lab1/src/container/hash/extendible_hash_table.cpp]
      - [src/lab1/src/buffer/buffer_pool_manager_instance.cpp]
    together with the properties of the page cache that these two
    translation units decide.  The eviction tracker, the storage backend
    and the class declarations are not among the source files; what the
    code needs of them is modelled from the specification and marked as
    such.  Definitions come first, then the theory of the table, of the
    tracker and of the manager, then the statements at concrete states. *)

From Stdlib Require Import ZArith Lia.
From stdpp Require Import base option list numbers gmap.

Local Open Scope nat_scope.

(** ** Extendible hash table *)

Module EHT.
Section Table.

(** The template parameters [K] and [V]; [hash] is [std::hash<K>], whose
    result is an unsigned [size_t]. *)
Context {K V : Type} `{EqDecision K} `{EqDecision V}.
Variable hash : K → Z.

(** [ExtendibleHashTable::Bucket]: capacity [size_], local depth [depth_]
    and the [std::list] of pairs. *)
Record Bucket := mkBucket {
  size_ : nat;
  depth_ : nat;
  list_ : list (K * V)
}.

(** The table.  Directory slots are [std::shared_ptr<Bucket>]; a pointer
    is modelled as an address in the store [heap_], so that two slots
    holding the same address alias one bucket object, and
    [std::make_shared] takes the next unused address. *)
Record ExtendibleHashTable := mkTable {
  global_depth_ : nat;
  bucket_size_ : nat;
  num_buckets_ : nat;
  dir_ : list nat;
  heap_ : list Bucket
}.

Definition null_bucket : Bucket := mkBucket 0 0 [].

(** [*p] for a bucket pointer [p].  Reading through a dangling pointer
    or outside the directory is undefined in the source; the model reads
    a default there, and the well-formed tables below never do so
    ([wf_ptr], [wf_len]). *)
Definition deref (t : ExtendibleHashTable) (p : nat) : Bucket :=
  default null_bucket (heap_ t !! p).

(** [dir_[i]] as a pointer, and the bucket it points to. *)
Definition slot (t : ExtendibleHashTable) (i : nat) : nat :=
  default 0 (dir_ t !! i).

Definition bucket_at (t : ExtendibleHashTable) (i : nat) : Bucket :=
  deref t (slot t i).

(** Constructor: depth 0, one bucket.  The first bucket is built by
    [std::make_shared<Bucket>(0)], that is with capacity 0 (and depth 0,
    the default of the second argument), so that it counts as full. *)
Definition new_table (bucket_size : nat) : ExtendibleHashTable :=
  mkTable 0 bucket_size 1 [0] [mkBucket 0 0 []].

(** [IndexOf]: [std::hash<K>()(key) & ((1 << global_depth_) - 1)].
    Depths and masks are [int] in the source; they are modelled on
    unbounded numbers, which agrees with the source as long as
    [1 << depth] does not overflow, that is up to a directory of
    [2 ^ 30] slots. *)
Definition IndexOf (t : ExtendibleHashTable) (key : K) : nat :=
  let mask := (Z.shiftl 1 (Z.of_nat (global_depth_ t)) - 1)%Z in
  Z.to_nat (Z.land (hash key) mask).

Definition GetGlobalDepth (t : ExtendibleHashTable) : nat := global_depth_ t.
Definition GetLocalDepth (t : ExtendibleHashTable) (dir_index : nat) : nat :=
  depth_ (bucket_at t dir_index).
Definition GetNumBuckets (t : ExtendibleHashTable) : nat := num_buckets_ t.

(** *** Bucket operations *)

(** Modelled from the spec: [Bucket::IsFull] is defined inline in the
    class declaration, which is not among the source files; a bucket
    "holds up to [bucket_capacity] pairs", and full is the test
    [list_.size() == size_] that guards [Bucket::Insert]. *)
Definition IsFull (b : Bucket) : bool := length (list_ b) =? size_ b.

(** The scan of [std::any_of] over [list_]: the first pair with the key. *)
Fixpoint first_with (key : K) (l : list (K * V)) : option (K * V) :=
  match l with
  | [] => None
  | p :: l' => if decide (p.1 = key) then Some p else first_with key l'
  end.

(** [Bucket::Find]: the value of the first pair with the key. *)
Definition Bucket_Find (key : K) (b : Bucket) : option V :=
  snd <$> first_with key (list_ b).

(** [Bucket::Remove]: at the first pair [p] with the key,
    [list_.remove(p)] erases every element equal to [p]. *)
Definition Bucket_Remove (key : K) (b : Bucket) : Bucket * bool :=
  match first_with key (list_ b) with
  | Some p => (mkBucket (size_ b) (depth_ b) (filter (λ q, q ≠ p) (list_ b)), true)
  | None => (b, false)
  end.

(** [Bucket::Insert]: refuses when full, else [emplace_back]. *)
Definition Bucket_Insert (key : K) (value : V) (b : Bucket) : Bucket * bool :=
  if length (list_ b) =? size_ b then (b, false)
  else (mkBucket (size_ b) (depth_ b) (list_ b ++ [(key, value)]), true).

(** *** Table operations *)

(** [Find]. *)
Definition Find (t : ExtendibleHashTable) (key : K) : option V :=
  let index := IndexOf t key in
  Bucket_Find key (bucket_at t index).

Definition set_bucket (t : ExtendibleHashTable) (p : nat) (b : Bucket)
  : ExtendibleHashTable :=
  mkTable (global_depth_ t) (bucket_size_ t) (num_buckets_ t) (dir_ t)
          (<[p := b]> (heap_ t)).

(** [Remove]. *)
Definition Remove (t : ExtendibleHashTable) (key : K)
  : ExtendibleHashTable * bool :=
  let index := IndexOf t key in
  let p := slot t index in
  let bucket := deref t p in
  match list_ bucket with
  | [] => (t, false)
  | _ =>
      let '(b', ret) := Bucket_Remove key bucket in
      (set_bucket t p b', ret)
  end.

(** The bit test [x & mask] with [mask = 1 << depth]. *)
Definition bit_set (x : Z) (depth : nat) : bool :=
  negb (Z.land x (Z.shiftl 1 (Z.of_nat depth)) =? 0)%Z.

(** The redistribution loop of [Insert]: each item goes to [bucket1]
    when its hash has the bit, to [bucket2] otherwise. *)
Definition redistribute (depth : nat) (items : list (K * V))
    (bucket1 bucket2 : Bucket) : Bucket * Bucket :=
  foldl (λ '(b1, b2) item,
           if bit_set (hash item.1) depth
           then ((Bucket_Insert item.1 item.2 b1).1, b2)
           else (b1, (Bucket_Insert item.1 item.2 b2).1))
        (bucket1, bucket2) items.

(** The body of the [while] loop of [Insert], first part: when the
    depth of the full bucket is the global depth, every slot is pushed
    back once more and the global depth grows. *)
Definition grow (t : ExtendibleHashTable) (bucket : Bucket)
  : ExtendibleHashTable :=
  if depth_ bucket =? global_depth_ t
  then mkTable (S (global_depth_ t)) (bucket_size_ t) (num_buckets_ t)
               (dir_ t ++ dir_ t) (heap_ t)
  else t.

(** Second part: two new buckets take the items of [bucket] (stored at
    [p]), and every slot that held [p] is pointed to one of them. *)
Definition divide (t : ExtendibleHashTable) (p : nat) (bucket : Bucket)
  : ExtendibleHashTable :=
  let p1 := length (heap_ t) in
  let p2 := S (length (heap_ t)) in
  let '(bucket1, bucket2) :=
    redistribute (depth_ bucket) (list_ bucket)
      (mkBucket (bucket_size_ t) (S (depth_ bucket)) [])
      (mkBucket (bucket_size_ t) (S (depth_ bucket)) []) in
  let dir2 :=
    imap (λ i q, if decide (q = p)
                 then if bit_set (Z.of_nat i) (depth_ bucket) then p1 else p2
                 else q) (dir_ t) in
  mkTable (global_depth_ t) (bucket_size_ t) (S (num_buckets_ t)) dir2
          (heap_ t ++ [bucket1; bucket2]).

(** The items of a list whose hash has, respectively lacks, bit [d]. *)
Definition upper (d : nat) (l : list (K * V)) : list (K * V) :=
  filter (λ it, bit_set (hash it.1) d = true) l.
Definition lower (d : nat) (l : list (K * V)) : list (K * V) :=
  filter (λ it, bit_set (hash it.1) d ≠ true) l.

(** One turn of the [while] loop of [Insert]. *)
Definition split (t : ExtendibleHashTable) (key : K) : ExtendibleHashTable :=
  let index := IndexOf t key in
  let p := slot t index in
  let bucket := deref t p in
  divide (grow t bucket) p bucket.

(** The [while (dir_[IndexOf(key)]->IsFull())] loop; [fuel] bounds the
    number of turns, [None] stands for a loop that has not ended. *)
Fixpoint Insert_loop (fuel : nat) (t : ExtendibleHashTable) (key : K)
  : option ExtendibleHashTable :=
  if IsFull (bucket_at t (IndexOf t key)) then
    match fuel with
    | O => None
    | S fuel' => Insert_loop fuel' (split t key) key
    end
  else Some t.

(** The final scan: [p.second = value] at the first pair with the key. *)
Fixpoint overwrite (key : K) (value : V) (l : list (K * V))
  : option (list (K * V)) :=
  match l with
  | [] => None
  | p :: l' =>
      if decide (p.1 = key) then Some ((p.1, value) :: l')
      else cons p <$> overwrite key value l'
  end.

(** [Insert]. *)
Definition Insert (fuel : nat) (t : ExtendibleHashTable) (key : K) (value : V)
  : option ExtendibleHashTable :=
  t' ← Insert_loop fuel t key;
  let index := IndexOf t' key in
  let p := slot t' index in
  let bucket := deref t' p in
  match overwrite key value (list_ bucket) with
  | Some l' => Some (set_bucket t' p (mkBucket (size_ bucket) (depth_ bucket) l'))
  | None => Some (set_bucket t' p (Bucket_Insert key value bucket).1)
  end.

(** *** Well-formed tables *)

(** [x] and [y] have the same [d] low-order bits. *)
Definition agree (d : nat) (x y : Z) : Prop :=
  ∀ n : nat, n < d → Z.testbit x (Z.of_nat n) = Z.testbit y (Z.of_nat n).

(** The entries of the table: the pairs of every bucket that the
    directory points to, each bucket taken once. *)
Definition entries (t : ExtendibleHashTable) : list (K * V) :=
  remove_dups (dir_ t) ≫= (λ p, list_ (deref t p)).

(** The number of directory slots that hold the pointer [p]. *)
Definition refs (t : ExtendibleHashTable) (p : nat) : nat :=
  length (filter (λ q, q = p) (dir_ t)).

(** The representation invariant of the directory. *)
Record WF (t : ExtendibleHashTable) : Prop := mkWF {
  wf_len : length (dir_ t) = 2 ^ global_depth_ t;
  wf_ptr : ∀ i, i < length (dir_ t) → slot t i < length (heap_ t);
  wf_depth : ∀ i, i < length (dir_ t) →
    depth_ (bucket_at t i) ≤ global_depth_ t;
  wf_share : ∀ i j, i < length (dir_ t) → j < length (dir_ t) →
    (slot t j = slot t i ↔
     agree (depth_ (bucket_at t i)) (Z.of_nat j) (Z.of_nat i));
  wf_items : ∀ i kv, i < length (dir_ t) → kv ∈ list_ (bucket_at t i) →
    agree (depth_ (bucket_at t i)) (hash kv.1) (Z.of_nat i);
  wf_nodup : ∀ i, i < length (dir_ t) → NoDup (list_ (bucket_at t i)).*1;
  wf_room : ∀ i, i < length (dir_ t) →
    length (list_ (bucket_at t i)) ≤ size_ (bucket_at t i);
  wf_size : ∀ i, i < length (dir_ t) →
    size_ (bucket_at t i) = bucket_size_ t ∨
    (size_ (bucket_at t i) = 0 ∧ depth_ (bucket_at t i) = 0)
}.

(** The calls of the table, and the table after a run of calls. *)
Inductive Call :=
| CInsert (key : K) (value : V)
| CRemove (key : K)
| CFind (key : K).

Definition exec (fuel : nat) (t : ExtendibleHashTable) (c : Call)
  : option ExtendibleHashTable :=
  match c with
  | CInsert key value => Insert fuel t key value
  | CRemove key => Some (Remove t key).1
  | CFind key => Some t
  end.

Fixpoint run (fuel : nat) (t : ExtendibleHashTable) (cs : list Call)
  : option ExtendibleHashTable :=
  match cs with
  | [] => Some t
  | c :: cs' => t' ← exec fuel t c; run fuel t' cs'
  end.



(** The association that a run of calls describes: each key with the
    value of its last [Insert], unless a [Remove] of the key came later. *)
Definition apply_call (m : K → option V) (c : Call) : K → option V :=
  match c with
  | CInsert key value => λ k, if decide (k = key) then Some value else m k
  | CRemove key => λ k, if decide (k = key) then None else m k
  | CFind _ => m
  end.

Definition content (cs : list Call) : K → option V :=
  foldl apply_call (λ _, None) cs.

(** A call that writes the entry of [k]. *)
Definition touches (k : K) (c : Call) : Prop :=
  match c with
  | CInsert key _ => key = k
  | CRemove key => key = k
  | CFind _ => False
  end.

End Table.
End EHT.

(** ** Eviction tracker *)

Module LRUK.

(** Modelled from the spec: the eviction tracker ([LRUKReplacer]) is a
    class of this repository whose source is not part of the two
    translation units; section 4.3 of the specification gives its
    contract.  A record keeps the access timestamps of one frame, most
    recent first and at most [k] of them, and its evictable flag. *)
Record FrameRecord := mkRecord {
  history : list nat;
  evictable : bool
}.

Record LRUKReplacer := mkReplacer {
  k_ : nat;
  current_timestamp_ : nat;
  records_ : gmap Z FrameRecord
}.

(** Modelled from the spec: a new tracker has no record; its logical
    clock starts at 0. *)
Definition new_replacer (k : nat) : LRUKReplacer := mkReplacer k 0 ∅.

(** Modelled from the spec: [RecordAccess] appends the current logical
    timestamp to the history of the frame and keeps the [k] most recent
    ones; the logical clock then advances. *)
Definition RecordAccess (r : LRUKReplacer) (frame_id : Z) : LRUKReplacer :=
  let old := default (mkRecord [] false) (records_ r !! frame_id) in
  let rec := mkRecord (take (k_ r) (current_timestamp_ r :: history old))
                      (evictable old) in
  mkReplacer (k_ r) (S (current_timestamp_ r)) (<[frame_id := rec]> (records_ r)).

(** Modelled from the spec: [SetEvictable] sets the eligibility of the
    record of the frame. *)
Definition SetEvictable (r : LRUKReplacer) (frame_id : Z) (set_evictable : bool)
  : LRUKReplacer :=
  mkReplacer (k_ r) (current_timestamp_ r)
    (alter (λ rec, mkRecord (history rec) set_evictable) frame_id (records_ r)).

(** Modelled from the spec: [Remove] discards the history of a frame. *)
Definition Remove (r : LRUKReplacer) (frame_id : Z) : LRUKReplacer :=
  mkReplacer (k_ r) (current_timestamp_ r) (delete frame_id (records_ r)).

(** Modelled from the spec: the backward k-distance, [None] for the
    infinite distance of a frame with fewer than [k] accesses. *)
Definition k_distance (r : LRUKReplacer) (rec : FrameRecord) : option nat :=
  if length (history rec) <? k_ r then None
  else Some (current_timestamp_ r - List.nth (k_ r - 1) (history rec) 0).

Definition most_recent (rec : FrameRecord) : nat := List.nth 0 (history rec) 0.

(** Modelled from the spec: [prefer r a b] holds when [a] is ranked
    before [b]: larger backward k-distance first, and among infinite
    distances the earliest most recent access first. *)
Definition prefer (r : LRUKReplacer) (a b : FrameRecord) : bool :=
  match k_distance r a, k_distance r b with
  | None, Some _ => true
  | Some _, None => false
  | None, None => most_recent a <? most_recent b
  | Some da, Some db => db <? da
  end.

Definition candidates (r : LRUKReplacer) : list (Z * FrameRecord) :=
  filter (λ c, evictable c.2 = true) (map_to_list (records_ r)).

Definition pick (r : LRUKReplacer) (c : Z * FrameRecord)
    (best : option (Z * FrameRecord)) : option (Z * FrameRecord) :=
  match best with
  | None => Some c
  | Some b => if prefer r c.2 b.2 then Some c else Some b
  end.

Definition victim (r : LRUKReplacer) : option (Z * FrameRecord) :=
  foldr (pick r) None (candidates r).

(** Modelled from the spec: [Evict] removes the history of the chosen
    frame and returns it, or reports that no frame is evictable. *)
Definition Evict (r : LRUKReplacer) : LRUKReplacer * option Z :=
  match victim r with
  | Some (frame_id, _) => (Remove r frame_id, Some frame_id)
  | None => (r, None)
  end.

Definition is_evictable (r : LRUKReplacer) (frame_id : Z) : bool :=
  match records_ r !! frame_id with
  | Some rec => evictable rec
  | None => false
  end.

End LRUK.

(** ** Buffer pool manager *)

Module BPM.
Section Pool.

(** The bytes of a page: [Data] stands for the fixed-size buffer and
    [zeroed] for its content after [ResetMemory].  [on_disk] is the
    initial content of the storage backend. *)
Context {Data : Type}.
Variable zeroed : Data.
Variable on_disk : Z → Data.
(** [std::hash<page_id_t>]. *)
Variable hash : Z → Z.

(** Modelled from the spec: the identifier "none"; the constant
    [INVALID_PAGE_ID] is declared outside the two source files. *)
Definition INVALID_PAGE_ID : Z := (-1)%Z.

(** A frame ([Page]): the members the manager reads and writes.
    [page_id_t] and [frame_id_t] are integers, and so is the pin count;
    they are modelled on unbounded integers. *)
Record Page := mkPage {
  page_id_ : Z;
  pin_count_ : Z;
  is_dirty_ : bool;
  data_ : Data
}.

(** Modelled from the spec: the storage collaborator ([DiskManager]), as
    the log of the synchronous transfers it has served, most recent
    first.  [ReadPage] returns what was last written under the
    identifier, or the initial content. *)
Inductive DiskOp :=
| DiskWrite (page_id : Z) (data : Data)
| DiskRead (page_id : Z).

Fixpoint stored (log : list DiskOp) (page_id : Z) : Data :=
  match log with
  | [] => on_disk page_id
  | DiskWrite p d :: log' =>
      if decide (p = page_id) then d else stored log' page_id
  | DiskRead _ :: log' => stored log' page_id
  end.

Definition WritePage (log : list DiskOp) (page_id : Z) (data : Data)
  : list DiskOp := DiskWrite page_id data :: log.

Definition ReadPage (log : list DiskOp) (page_id : Z) : list DiskOp * Data :=
  (DiskRead page_id :: log, stored log page_id).

(** The manager.  [pool_size_] is the length of [pages_]. *)
Record BufferPoolManagerInstance := mkBPM {
  pages_ : list Page;
  page_table_ : @EHT.ExtendibleHashTable Z Z;
  replacer_ : LRUK.LRUKReplacer;
  free_list_ : list Z;
  next_page_id_ : Z;
  disk_manager_ : list DiskOp
}.

Definition pool_size_ (s : BufferPoolManagerInstance) : nat := length (pages_ s).

(** Modelled from the spec: a fresh [Page] holds no page, is unpinned
    and clean (its class is declared outside the two source files). *)
Definition fresh_page : Page := mkPage INVALID_PAGE_ID 0 false zeroed.

(** Modelled from the spec: the initial value of [next_page_id_], which
    the class declaration gives; the allocator "starts at a fixed origin
    and increments by one per allocation". *)
Definition first_page_id : Z := 0%Z.

(** Constructor.  [bucket_size] is the constant [bucket_size_] of the
    class declaration, which is not among the source files. *)
Definition new_bpm (pool_size replacer_k bucket_size : nat)
  : BufferPoolManagerInstance :=
  mkBPM (replicate pool_size fresh_page)
        (EHT.new_table bucket_size)
        (LRUK.new_replacer replacer_k)
        (Z.of_nat <$> seq 0 pool_size)
        first_page_id [].

(** [pages_[frame_id]]: [None] when the index is outside the array. *)
Definition page_at (pages : list Page) (frame_id : Z) : option Page :=
  if decide (0 ≤ frame_id)%Z then pages !! Z.to_nat frame_id else None.

Definition set_page (pages : list Page) (frame_id : Z) (pg : Page) : list Page :=
  <[Z.to_nat frame_id := pg]> pages.

(** The scan that opens [NewPgImp] and [FetchPgImp]. *)
Definition all_pinned (s : BufferPoolManagerInstance) : bool :=
  forallb (λ pg, negb (pin_count_ pg <=? 0)%Z) (pages_ s).

(** The frame acquisition that [NewPgImp] (lines 58-77) and [FetchPgImp]
    (lines 114-130) both spell out.  [uninit] is the indeterminate value
    of the local [frame_id], which is declared without an initialiser and
    keeps that value when [Evict] finds no victim.  The outer [None] is
    undefined behaviour (an index outside [pages_]); [Some (s', None)] is
    the [return nullptr]. *)
Definition acquire (uninit : Z) (s : BufferPoolManagerInstance)
  : option (BufferPoolManagerInstance * option Z) :=
  match free_list_ s with
  | frame_id :: rest =>
      Some (mkBPM (pages_ s) (page_table_ s) (replacer_ s) rest
                  (next_page_id_ s) (disk_manager_ s), Some frame_id)
  | [] =>
      let '(r1, vic) := LRUK.Evict (replacer_ s) in
      let frame_id := default uninit vic in
      pg ← page_at (pages_ s) frame_id;
      let evict_id := page_id_ pg in
      let disk1 :=
        if is_dirty_ pg then WritePage (disk_manager_ s) evict_id (data_ pg)
        else disk_manager_ s in
      let pg1 := mkPage (page_id_ pg) (pin_count_ pg) false zeroed in
      let pt1 := (EHT.Remove hash (page_table_ s) (page_id_ pg1)).1 in
      let s1 := mkBPM (set_page (pages_ s) frame_id pg1) pt1 r1 []
                      (next_page_id_ s) disk1 in
      match vic with
      | None => Some (s1, None)
      | Some _ => Some (s1, Some frame_id)
      end
  end.

(** [NewPgImp]: the result is the new page identifier and the frame of
    the returned [Page *], or [None] for [nullptr].  [fuel] is the fuel of
    the directory's [Insert]; the outer [None] is an undefined access or
    an [Insert] whose loop has not ended.  [AllocatePage] is
    [next_page_id_++]: the counter is a 32-bit [page_id_t] in the source
    and an unbounded integer here, which agrees with the source as long
    as the identifiers handed out stay below [2 ^ 31]. *)
Definition NewPgImp (uninit : Z) (fuel : nat) (s : BufferPoolManagerInstance)
  : option (BufferPoolManagerInstance * option (Z * Z)) :=
  if all_pinned s then Some (s, None)
  else
    '(s1, got) ← acquire uninit s;
    match got with
    | None => Some (s1, None)
    | Some frame_id =>
        let page_id := next_page_id_ s1 in
        pg ← page_at (pages_ s1) frame_id;
        let pg' := mkPage page_id 1 (is_dirty_ pg) (data_ pg) in
        pt' ← EHT.Insert hash fuel (page_table_ s1) page_id frame_id;
        let r' := LRUK.SetEvictable
                    (LRUK.RecordAccess (replacer_ s1) frame_id) frame_id false in
        Some (mkBPM (set_page (pages_ s1) frame_id pg') pt' r' (free_list_ s1)
                    (page_id + 1)%Z (disk_manager_ s1),
              Some (page_id, frame_id))
    end.

(** [FetchPgImp]. *)
Definition FetchPgImp (uninit : Z) (fuel : nat) (s : BufferPoolManagerInstance)
    (page_id : Z) : option (BufferPoolManagerInstance * option Z) :=
  if all_pinned s then Some (s, None)
  else
    match EHT.Find hash (page_table_ s) page_id with
    | Some frame_id =>
        pg ← page_at (pages_ s) frame_id;
        let pg' := mkPage (page_id_ pg) (pin_count_ pg + 1)%Z
                          (is_dirty_ pg) (data_ pg) in
        let r' := LRUK.SetEvictable
                    (LRUK.RecordAccess (replacer_ s) frame_id) frame_id false in
        Some (mkBPM (set_page (pages_ s) frame_id pg') (page_table_ s) r'
                    (free_list_ s) (next_page_id_ s) (disk_manager_ s),
              Some frame_id)
    | None =>
        '(s1, got) ← acquire uninit s;
        match got with
        | None => Some (s1, None)
        | Some frame_id =>
            pg ← page_at (pages_ s1) frame_id;
            let r' := LRUK.SetEvictable
                        (LRUK.RecordAccess (replacer_ s1) frame_id) frame_id false in
            pt' ← EHT.Insert hash fuel (page_table_ s1) page_id frame_id;
            let '(disk', bytes) := ReadPage (disk_manager_ s1) page_id in
            let pg' := mkPage page_id (pin_count_ pg + 1)%Z (is_dirty_ pg) bytes in
            Some (mkBPM (set_page (pages_ s1) frame_id pg') pt' r' (free_list_ s1)
                        (next_page_id_ s1) disk',
                  Some frame_id)
        end
    end.

(** [UnpinPgImp]. *)
Definition UnpinPgImp (s : BufferPoolManagerInstance) (page_id : Z)
    (is_dirty : bool) : option (BufferPoolManagerInstance * bool) :=
  match EHT.Find hash (page_table_ s) page_id with
  | None => Some (s, false)
  | Some frame_id =>
      pg ← page_at (pages_ s) frame_id;
      if (pin_count_ pg <=? 0)%Z then Some (s, false)
      else
        let dirty' := if is_dirty then is_dirty else is_dirty_ pg in
        let pg' := mkPage (page_id_ pg) (pin_count_ pg - 1)%Z dirty' (data_ pg) in
        let r' := if (pin_count_ pg' =? 0)%Z
                  then LRUK.SetEvictable (replacer_ s) frame_id true
                  else replacer_ s in
        Some (mkBPM (set_page (pages_ s) frame_id pg') (page_table_ s) r'
                    (free_list_ s) (next_page_id_ s) (disk_manager_ s), true)
  end.

(** [FlushPgImp]. *)
Definition FlushPgImp (s : BufferPoolManagerInstance) (page_id : Z)
  : option (BufferPoolManagerInstance * bool) :=
  if decide (page_id = INVALID_PAGE_ID) then Some (s, false)
  else
    match EHT.Find hash (page_table_ s) page_id with
    | None => Some (s, false)
    | Some frame_id =>
        pg ← page_at (pages_ s) frame_id;
        Some (mkBPM (pages_ s) (page_table_ s) (replacer_ s) (free_list_ s)
                    (next_page_id_ s)
                    (WritePage (disk_manager_ s) (page_id_ pg) (data_ pg)), true)
    end.

(** [FlushAllPgsImp]: [FlushPgImp(pages_[i].GetPageId())] for each frame
    in turn. *)
Definition FlushAllPgsImp (s : BufferPoolManagerInstance)
  : option BufferPoolManagerInstance :=
  foldl (λ acc i,
           s' ← acc;
           pg ← pages_ s' !! i;
           fst <$> FlushPgImp s' (page_id_ pg))
        (Some s) (seq 0 (pool_size_ s)).

(** Modelled from the spec: [DeallocatePage], which the class declaration
    defines; it "releases the identifier from use (no further reuse)" and
    does nothing to the manager. *)
Definition DeallocatePage (s : BufferPoolManagerInstance) (page_id : Z)
  : BufferPoolManagerInstance := s.

(** [DeletePgImp]. *)
Definition DeletePgImp (s : BufferPoolManagerInstance) (page_id : Z)
  : option (BufferPoolManagerInstance * bool) :=
  match EHT.Find hash (page_table_ s) page_id with
  | None => Some (s, true)
  | Some frame_id =>
      pg ← page_at (pages_ s) frame_id;
      if (0 <? pin_count_ pg)%Z then Some (s, false)
      else
        let r' := LRUK.Remove (replacer_ s) frame_id in
        let pg' := mkPage INVALID_PAGE_ID 0 false zeroed in
        let pt' := (EHT.Remove hash (page_table_ s) page_id).1 in
        Some (DeallocatePage
                (mkBPM (set_page (pages_ s) frame_id pg') pt' r'
                       (free_list_ s ++ [frame_id]) (next_page_id_ s)
                       (disk_manager_ s)) page_id, true)
  end.

(** The calls of the public interface, and a run of calls. *)
Inductive Call :=
| CreatePage (uninit : Z)
| FetchPage (uninit : Z) (page_id : Z)
| UnpinPage (page_id : Z) (is_dirty : bool)
| FlushPage (page_id : Z)
| FlushAllPages
| DeletePage (page_id : Z).

Definition exec (fuel : nat) (s : BufferPoolManagerInstance) (c : Call)
  : option BufferPoolManagerInstance :=
  match c with
  | CreatePage u => fst <$> NewPgImp u fuel s
  | FetchPage u p => fst <$> FetchPgImp u fuel s p
  | UnpinPage p d => fst <$> UnpinPgImp s p d
  | FlushPage p => fst <$> FlushPgImp s p
  | FlushAllPages => FlushAllPgsImp s
  | DeletePage p => fst <$> DeletePgImp s p
  end.

Fixpoint run (fuel : nat) (s : BufferPoolManagerInstance) (cs : list Call)
  : option BufferPoolManagerInstance :=
  match cs with
  | [] => Some s
  | c :: cs' => s' ← exec fuel s c; run fuel s' cs'
  end.

(** *** States and invariants *)

(** [FetchPage] is asked for an identifier that [AllocatePage] has
    already handed out. *)
Definition allocated (s : BufferPoolManagerInstance) (c : Call) : Prop :=
  match c with
  | FetchPage _ page_id => (page_id < next_page_id_ s)%Z
  | _ => True
  end.

(** The states that a run of calls reaches when each call satisfies [P]
    in the state it is made in. *)
Inductive reach (P : BufferPoolManagerInstance → Call → Prop)
  : BufferPoolManagerInstance → BufferPoolManagerInstance → Prop :=
| reach_here s : reach P s s
| reach_call s c fuel s1 s2 :
    P s c → exec fuel s c = Some s1 → reach P s1 s2 → reach P s s2.

Definition any_call (s : BufferPoolManagerInstance) (c : Call) : Prop := True.

(** The directory maps [page_id] to [frame_id]. *)
Definition mapped (s : BufferPoolManagerInstance) (page_id frame_id : Z) : Prop :=
  EHT.Find hash (page_table_ s) page_id = Some frame_id.

(** The directory entries that carry [page_id]. *)
Definition entries_of (s : BufferPoolManagerInstance) (page_id : Z)
  : list (Z * Z) :=
  filter (λ kv, kv.1 = page_id) (EHT.entries (page_table_ s)).

(** The invariant of the manager that holds after every run of calls. *)
Record Inv (s : BufferPoolManagerInstance) : Prop := mkInv {
  inv_wf : EHT.WF hash (page_table_ s);
  inv_map : ∀ p f, mapped s p f →
    ∃ pg, page_at (pages_ s) f = Some pg ∧ page_id_ pg = p;
  inv_pin : ∀ f pg, page_at (pages_ s) f = Some pg → (0 ≤ pin_count_ pg)%Z;
  inv_free_nodup : NoDup (free_list_ s);
  inv_free : ∀ f, f ∈ free_list_ s →
    is_Some (page_at (pages_ s) f) ∧ ∀ p, ¬ mapped s p f;
  inv_rec : ∀ f, is_Some (page_at (pages_ s) f) →
    f ∈ free_list_ s ∨ is_Some (LRUK.records_ (replacer_ s) !! f);
  inv_rep : ∀ f, is_Some (LRUK.records_ (replacer_ s) !! f) →
    is_Some (page_at (pages_ s) f);
  inv_avail : ∀ f pg, page_at (pages_ s) f = Some pg → (pin_count_ pg ≤ 0)%Z →
    f ∈ free_list_ s ∨ LRUK.is_evictable (replacer_ s) f = true
}.

(** The state between the acquisition of frame [f] and the installation
    of the new page in it: the invariant, with [f] set aside. *)
Record Acquired (s : BufferPoolManagerInstance) (f : Z) : Prop := mkAcquired {
  acq_wf : EHT.WF hash (page_table_ s);
  acq_map : ∀ p f', mapped s p f' →
    f' ≠ f ∧ ∃ pg, page_at (pages_ s) f' = Some pg ∧ page_id_ pg = p;
  acq_pin : ∀ f' pg, page_at (pages_ s) f' = Some pg → (0 ≤ pin_count_ pg)%Z;
  acq_free_nodup : NoDup (free_list_ s);
  acq_free : ∀ f', f' ∈ free_list_ s →
    f' ≠ f ∧ is_Some (page_at (pages_ s) f') ∧ ∀ p, ¬ mapped s p f';
  acq_rec : ∀ f', is_Some (page_at (pages_ s) f') → f' ≠ f →
    f' ∈ free_list_ s ∨ is_Some (LRUK.records_ (replacer_ s) !! f');
  acq_rep : ∀ f', is_Some (LRUK.records_ (replacer_ s) !! f') →
    is_Some (page_at (pages_ s) f');
  acq_avail : ∀ f' pg, f' ≠ f → page_at (pages_ s) f' = Some pg →
    (pin_count_ pg ≤ 0)%Z →
    f' ∈ free_list_ s ∨ LRUK.is_evictable (replacer_ s) f' = true;
  acq_frame : is_Some (page_at (pages_ s) f)
}.

(** [CreatePage] does not allocate an identifier that is resident: when
    the call gets past the all-pinned test, the identifier that
    [AllocatePage] is about to hand out is not mapped. *)
Definition fresh_id (s : BufferPoolManagerInstance) (c : Call) : Prop :=
  match c with
  | CreatePage _ =>
      all_pinned s = false → ∀ f, ¬ mapped s (next_page_id_ s) f
  | _ => True
  end.

(** What holds in addition along runs whose calls satisfy [fresh_id]:
    every frame that holds a page is the frame its identifier is mapped
    to. *)
Record Inv_back (s : BufferPoolManagerInstance) : Prop := mkInvBack {
  inv_base : Inv s;
  inv_back : ∀ f pg, page_at (pages_ s) f = Some pg →
    page_id_ pg ≠ INVALID_PAGE_ID → mapped s (page_id_ pg) f
}.

(** Every mapped identifier has been allocated. *)
Definition bounded (s : BufferPoolManagerInstance) : Prop :=
  ∀ p f, mapped s p f → (p < next_page_id_ s)%Z.

(** Mapping uniqueness, as the specification states it. *)
Definition mapping_unique (s : BufferPoolManagerInstance) : Prop :=
  (∀ p1 p2 f, mapped s p1 f → mapped s p2 f → p1 = p2) ∧
  (∀ f pg, page_at (pages_ s) f = Some pg → page_id_ pg ≠ INVALID_PAGE_ID →
     mapped s (page_id_ pg) f ∧
     entries_of s (page_id_ pg) = [(page_id_ pg, f)]).

(** How the free list and the eviction tracker stand to the frames: a
    frame of the free list is as the constructor or [DeletePgImp] left it
    and the tracker has no record of it, and a frame that the tracker
    holds evictable is unpinned. *)
Record Inv_use (s : BufferPoolManagerInstance) : Prop := mkInvUse {
  use_free : ∀ f, f ∈ free_list_ s →
    page_at (pages_ s) f = Some fresh_page ∧
    LRUK.records_ (replacer_ s) !! f = None;
  use_evictable : ∀ f pg, page_at (pages_ s) f = Some pg →
    LRUK.is_evictable (replacer_ s) f = true → pin_count_ pg = 0%Z
}.

(** The transfers that [FlushAllPgsImp] asks of the storage backend when
    every frame that holds a page is the frame its identifier is mapped
    to: one write for each such frame, first frame first. *)
Definition flush_writes (pages : list Page) : list DiskOp :=
  omap (λ pg, if decide (page_id_ pg = INVALID_PAGE_ID) then None
              else Some (DiskWrite (page_id_ pg) (data_ pg))) pages.

(** What the frame acquisition has done when it hands out frame [f],
    which held [pg0], and leaves the manager in [s1]: [f] came from the
    free list or was the evictable frame that the tracker chose; it was
    unpinned; it is now clean and its memory is reset; when it was dirty
    its content has been written back; no other frame, tracker record or
    mapping of another identifier has changed. *)
Record Taken (s s1 : BufferPoolManagerInstance) (f : Z) (pg0 : Page)
  : Prop := mkTaken {
  tk_old : page_at (pages_ s) f = Some pg0;
  tk_pin : pin_count_ pg0 = 0%Z;
  tk_new : page_at (pages_ s1) f = Some (mkPage (page_id_ pg0) 0 false zeroed);
  tk_pages : ∀ f', f' ≠ f → page_at (pages_ s1) f' = page_at (pages_ s) f';
  tk_free : ∀ f', f' ∈ free_list_ s1 → f' ≠ f ∧ f' ∈ free_list_ s;
  tk_rec : ∀ f', f' ≠ f →
    LRUK.records_ (replacer_ s1) !! f' = LRUK.records_ (replacer_ s) !! f';
  tk_disk : disk_manager_ s1 =
    if is_dirty_ pg0
    then WritePage (disk_manager_ s) (page_id_ pg0) (data_ pg0)
    else disk_manager_ s;
  tk_next : next_page_id_ s1 = next_page_id_ s;
  tk_find : ∀ k, k ≠ page_id_ pg0 →
    EHT.Find hash (page_table_ s1) k = EHT.Find hash (page_table_ s) k;
  tk_from : f ∈ free_list_ s ∨
    (free_list_ s = [] ∧ LRUK.is_evictable (replacer_ s) f = true)
}.

End Pool.
End BPM.


(** ** Concrete instances *)

Module Sample.

(** [std::hash<int>] as the standard libraries implement it: the value
    itself, converted to [size_t]. *)
Definition hash_int (k : Z) : Z := (k mod 2 ^ 64)%Z.

(** A table with buckets of two items after [Insert(0, 7)] and
    [Insert(2, 8)]: both keys sit in the bucket of slot 0, which is full. *)
Definition two_keys : @EHT.ExtendibleHashTable Z Z :=
  default (EHT.new_table 2)
    (EHT.run hash_int 8 (EHT.new_table 2)
       [EHT.CInsert 0 7; EHT.CInsert 2 8]%Z).

(** A run with an overwrite, a lookup, a split and a removal. *)
Definition calls : list (@EHT.Call Z Z) :=
  [EHT.CInsert 0 7; EHT.CInsert 2 8; EHT.CFind 0; EHT.CInsert 4 9;
   EHT.CRemove 2; EHT.CInsert 0 11]%Z.

Definition after_calls : @EHT.ExtendibleHashTable Z Z :=
  default (EHT.new_table 2) (EHT.run hash_int 8 (EHT.new_table 2) calls).

(** [two_keys] after [Insert(4, 9)], which splits the full bucket. *)
Definition three_keys : @EHT.ExtendibleHashTable Z Z :=
  default two_keys (EHT.run hash_int 8 two_keys [EHT.CInsert 4 9]%Z).


(** A table with buckets of one item after [Insert(0, 7)]. *)
Definition one_key : @EHT.ExtendibleHashTable Z Z :=
  default (EHT.new_table 1)
    (EHT.run hash_int 8 (EHT.new_table 1) [EHT.CInsert 0 7]%Z).

(** Pools whose pages carry a number as content. *)
Definition pool (pool_size : nat) : @BPM.BufferPoolManagerInstance Z :=
  BPM.new_bpm 0%Z pool_size 2 4.

Definition after (pool_size : nat) (cs : list BPM.Call)
  : @BPM.BufferPoolManagerInstance Z :=
  default (pool pool_size)
    (BPM.run 0%Z (λ _, 0%Z) hash_int 8 (pool pool_size) cs).

(** One frame, holding page 0 pinned once. *)
Definition one_pinned := after 1 [BPM.CreatePage 0].

(** One frame, holding page 0 unpinned and dirty. *)
Definition one_dirty := after 1 [BPM.CreatePage 0; BPM.UnpinPage 0 true].

(** Two frames, the first holding page 0 pinned once. *)
Definition two_frames := after 2 [BPM.CreatePage 0].

(** Two frames after page 0 was created, unpinned and fetched again. *)
Definition fetched_back :=
  after 2 [BPM.CreatePage 0; BPM.UnpinPage 0 false; BPM.FetchPage 0 0].

(** Two frames after [FetchPage(0)] on the fresh pool and one
    [CreatePage], which allocates identifier 0. *)
Definition fetched_then_created :=
  after 2 [BPM.FetchPage 0 0; BPM.CreatePage 0].

(** Two frames: page 0 pinned in frame 0, page 1 unpinned and dirty in
    frame 1. *)
Definition one_of_two :=
  after 2 [BPM.CreatePage 0; BPM.CreatePage 0; BPM.UnpinPage 1 true].

(** The same pool after one more [CreatePage], which reuses frame 1. *)
Definition one_of_two_created :=
  after 2 [BPM.CreatePage 0; BPM.CreatePage 0; BPM.UnpinPage 1 true;
           BPM.CreatePage 0].

End Sample.

(** * Properties of the extendible hash table *)

Section EHT_Theory.

Context {K V : Type} `{EqDecision K} `{EqDecision V}.
Variable hash : K → Z.

Import EHT.

Abbreviation Table := (@ExtendibleHashTable K V).

(** Bit arithmetic of the masks. *)

Lemma bit_set_testbit x d : bit_set x d = Z.testbit x (Z.of_nat d).
Proof.
  unfold bit_set. rewrite Z.shiftl_1_l.
  destruct (Z.testbit x (Z.of_nat d)) eqn:E.
  - apply negb_true_iff, Z.eqb_neq. intros H0.
    assert (Ht : Z.testbit (Z.land x (2 ^ Z.of_nat d)) (Z.of_nat d) = true).
    { rewrite Z.land_spec, E, Z.pow2_bits_true by lia. done. }
    rewrite H0, Z.bits_0 in Ht. done.
  - apply negb_false_iff, Z.eqb_eq. apply Z.bits_inj'. intros n Hn.
    rewrite Z.land_spec, Z.bits_0.
    destruct (decide (n = Z.of_nat d)) as [->|Hne].
    + rewrite E. done.
    + rewrite Z.pow2_bits_false by lia. apply andb_false_r.
Qed.

Lemma agree_refl d x : agree d x x.
Proof. done. Qed.

Lemma agree_sym d x y : agree d x y → agree d y x.
Proof. intros H n Hn. symmetry. by apply H. Qed.

Lemma agree_trans d x y z : agree d x y → agree d y z → agree d x z.
Proof. intros H1 H2 n Hn. rewrite H1, H2; done. Qed.

Lemma agree_le d d' x y : d ≤ d' → agree d' x y → agree d x y.
Proof. intros Hle H n Hn. apply H. lia. Qed.

Lemma agree_S d x y :
  agree (S d) x y ↔
  agree d x y ∧ Z.testbit x (Z.of_nat d) = Z.testbit y (Z.of_nat d).
Proof.
  split.
  - intros H. split; [eapply agree_le; [|done]; lia | apply H; lia].
  - intros [H1 H2] n Hn. destruct (decide (n = d)) as [->|]; [done|].
    apply H1. lia.
Qed.

Lemma agree_mod d g x : d ≤ g → agree d (x mod 2 ^ Z.of_nat g) x.
Proof. intros Hle n Hn. apply Z.mod_pow2_bits_low. lia. Qed.

Lemma agree_eq g x y :
  (0 ≤ x < 2 ^ Z.of_nat g)%Z → (0 ≤ y < 2 ^ Z.of_nat g)%Z →
  agree g x y → x = y.
Proof.
  intros Hx Hy H. apply Z.bits_inj'. intros n Hn.
  destruct (decide (n < Z.of_nat g)%Z).
  - specialize (H (Z.to_nat n)). rewrite Z2Nat.id in H by done. apply H. lia.
  - rewrite <- (Z.mod_small x (2 ^ Z.of_nat g)), <- (Z.mod_small y (2 ^ Z.of_nat g)) by done.
    rewrite !Z.mod_pow2_bits_high by lia. done.
Qed.

Lemma IndexOf_mod (t : Table) key :
  Z.of_nat (IndexOf hash t key) = (hash key mod 2 ^ Z.of_nat (global_depth_ t))%Z.
Proof.
  unfold IndexOf. change (Z.shiftl 1 ?n - 1)%Z with (Z.pred (Z.shiftl 1 n)).
  fold (Z.ones (Z.of_nat (global_depth_ t))).
  rewrite Z.land_ones by lia. rewrite Z2Nat.id; [done|].
  apply Z.mod_pos_bound. apply Z.pow_pos_nonneg; lia.
Qed.

Lemma pow_nat_Z (g : nat) : Z.of_nat (2 ^ g) = (2 ^ Z.of_nat g)%Z.
Proof. rewrite Nat2Z.inj_pow. done. Qed.

Lemma IndexOf_lt (t : Table) key : IndexOf hash t key < 2 ^ global_depth_ t.
Proof.
  apply Nat2Z.inj_lt. rewrite IndexOf_mod, pow_nat_Z.
  apply Z.mod_pos_bound. apply Z.pow_pos_nonneg; lia.
Qed.

Lemma IndexOf_agree (t : Table) key d :
  d ≤ global_depth_ t → agree d (Z.of_nat (IndexOf hash t key)) (hash key).
Proof. intros. rewrite IndexOf_mod. by apply agree_mod. Qed.

(** Reading slots and buckets. *)

Lemma slot_lookup (t : Table) i :
  i < length (dir_ t) → dir_ t !! i = Some (slot t i).
Proof.
  intros Hi. unfold slot. destruct (lookup_lt_is_Some_2 (dir_ t) i Hi) as [p ->]. done.
Qed.

Lemma deref_set_eq (t : Table) p b :
  p < length (heap_ t) → deref (set_bucket t p b) p = b.
Proof. intros Hp. unfold deref, set_bucket. simpl. by rewrite list_lookup_insert_eq. Qed.

Lemma deref_set_ne (t : Table) p q b :
  p ≠ q → deref (set_bucket t p b) q = deref t q.
Proof. intros Hp. unfold deref, set_bucket. simpl. by rewrite list_lookup_insert_ne. Qed.

Lemma slot_set (t : Table) p b i : slot (set_bucket t p b) i = slot t i.
Proof. done. Qed.

(** The redistribution loop fills the two buckets with the two halves of
    the items, as long as both have room for them. *)
Lemma redistribute_filter d items (b1 b2 : @Bucket K V) :
  length (list_ b1) + length items ≤ size_ b1 →
  length (list_ b2) + length items ≤ size_ b2 →
  redistribute hash d items b1 b2 =
    (mkBucket (size_ b1) (depth_ b1)
       (list_ b1 ++ filter (λ it, bit_set (hash it.1) d = true) items),
     mkBucket (size_ b2) (depth_ b2)
       (list_ b2 ++ filter (λ it, bit_set (hash it.1) d ≠ true) items)).
Proof.
  unfold redistribute. revert b1 b2.
  induction items as [|it items IH]; intros b1 b2 H1 H2; simpl.
  - rewrite !app_nil_r. by destruct b1, b2.
  - simpl in H1, H2. unfold Bucket_Insert. destruct it as [k v]; simpl.
    destruct (bit_set (hash k) d) eqn:E.
    + destruct (Nat.eqb_spec (length (list_ b1)) (size_ b1)); [lia|]. simpl.
      rewrite IH; simpl; rewrite ?length_app; simpl; try lia.
      rewrite filter_cons_True by done.
      rewrite filter_cons_False by (simpl; rewrite E; auto).
      rewrite <- app_assoc. done.
    + destruct (Nat.eqb_spec (length (list_ b2)) (size_ b2)); [lia|]. simpl.
      rewrite IH; simpl; rewrite ?length_app; simpl; try lia.
      rewrite filter_cons_False by (simpl; rewrite E; auto).
      rewrite filter_cons_True by (simpl; rewrite E; auto).
      rewrite <- app_assoc. done.
Qed.

(** *** The directory doubles *)

Lemma grow_slots (t : Table) b j :
  depth_ b = global_depth_ t → j < length (dir_ (grow t b)) →
  ∃ j', j' < length (dir_ t) ∧ slot (grow t b) j = slot t j' ∧
        (length (dir_ t) = 2 ^ global_depth_ t →
         agree (global_depth_ t) (Z.of_nat j') (Z.of_nat j)).
Proof.
  intros Hd. unfold grow. rewrite Hd, Nat.eqb_refl. simpl.
  rewrite length_app. intros Hj.
  destruct (decide (j < length (dir_ t))) as [Hlt|Hge].
  - exists j. split; [done|]. split; [|intros; apply agree_refl].
    unfold slot. simpl. by rewrite lookup_app_l.
  - exists (j - length (dir_ t)). split; [lia|]. split.
    + unfold slot. simpl. rewrite lookup_app_r by lia. done.
    + intros Hlen.
      replace (Z.of_nat (j - length (dir_ t)))
        with (Z.of_nat j mod 2 ^ Z.of_nat (global_depth_ t))%Z.
      { by apply agree_mod. }
      rewrite <- pow_nat_Z, <- Hlen.
      replace (Z.of_nat j)
        with (Z.of_nat (j - length (dir_ t)) + 1 * Z.of_nat (length (dir_ t)))%Z by lia.
      rewrite Z.mod_add by lia. apply Z.mod_small. lia.
Qed.

Lemma grow_keeps (t : Table) b i :
  i < length (dir_ t) → slot (grow t b) i = slot t i.
Proof.
  intros Hi. unfold grow. destruct (depth_ b =? global_depth_ t); [|done].
  unfold slot. simpl. by rewrite lookup_app_l.
Qed.

Lemma grow_heap (t : Table) b : heap_ (grow t b) = heap_ t.
Proof. unfold grow. by destruct (depth_ b =? global_depth_ t). Qed.

Lemma grow_bucket_size (t : Table) b : bucket_size_ (grow t b) = bucket_size_ t.
Proof. unfold grow. by destruct (depth_ b =? global_depth_ t). Qed.

Lemma grow_deref (t : Table) b p : deref (grow t b) p = deref t p.
Proof. unfold deref. by rewrite grow_heap. Qed.

Lemma grow_depth (t : Table) b :
  depth_ b ≤ global_depth_ t → depth_ b < global_depth_ (grow t b) ∨
  (depth_ b < global_depth_ t ∧ grow t b = t).
Proof.
  intros Hle. unfold grow. destruct (Nat.eqb_spec (depth_ b) (global_depth_ t)); simpl.
  - left. lia.
  - right. split; [lia|done].
Qed.

Lemma grow_global_depth (t : Table) b :
  global_depth_ t ≤ global_depth_ (grow t b).
Proof. unfold grow. destruct (depth_ b =? global_depth_ t); simpl; lia. Qed.

Lemma WF_grow (t : Table) b : WF hash t → WF hash (grow t b).
Proof.
  intros Hwf. destruct (Nat.eqb_spec (depth_ b) (global_depth_ t)) as [Hd|Hd];
    [|unfold grow; by destruct (Nat.eqb_spec (depth_ b) (global_depth_ t))].
  pose proof (grow_slots t b) as Hs.
  assert (Hgd : global_depth_ (grow t b) = S (global_depth_ t)).
  { unfold grow. by rewrite Hd, Nat.eqb_refl. }
  assert (Hb : ∀ j, j < length (dir_ (grow t b)) →
    ∃ j', j' < length (dir_ t) ∧ slot (grow t b) j = slot t j' ∧
          bucket_at (grow t b) j = bucket_at t j' ∧
          agree (global_depth_ t) (Z.of_nat j') (Z.of_nat j)).
  { intros j Hj. destruct (Hs j Hd Hj) as (j' & H1 & H2 & H3).
    exists j'. repeat split; [done|done| |apply H3, Hwf].
    unfold bucket_at. by rewrite H2, grow_deref. }
  clear Hs. destruct Hwf as [Wlen Wptr Wdep Wsh Wit Wnd Wroom Wsize].
  constructor.
  - rewrite Hgd. unfold grow. rewrite Hd, Nat.eqb_refl. simpl.
    rewrite length_app, Wlen. lia.
  - intros i Hi. destruct (Hb i Hi) as (i' & ? & -> & _). rewrite grow_heap. auto.
  - intros i Hi. destruct (Hb i Hi) as (i' & ? & _ & -> & _).
    rewrite Hgd. specialize (Wdep i'). lia.
  - intros i j Hi Hj.
    destruct (Hb i Hi) as (i' & Hi' & -> & -> & Ai).
    destruct (Hb j Hj) as (j' & Hj' & -> & _ & Aj).
    rewrite (Wsh i' j' Hi' Hj'). specialize (Wdep i' Hi').
    split; intros A.
    + eapply agree_trans; [apply agree_sym; eapply agree_le; [|apply Aj]; done|].
      eapply agree_trans; [apply A|]. eapply agree_le; [|apply Ai]; done.
    + eapply agree_trans; [eapply agree_le; [|apply Aj]; done|].
      eapply agree_trans; [apply A|]. apply agree_sym. eapply agree_le; [|apply Ai]; done.
  - intros i kv Hi. destruct (Hb i Hi) as (i' & Hi' & _ & -> & Ai). intros Hin.
    eapply agree_trans; [by apply Wit|]. eapply agree_le; [|apply Ai]. by apply Wdep.
  - intros i Hi. destruct (Hb i Hi) as (i' & Hi' & _ & -> & _). auto.
  - intros i Hi. destruct (Hb i Hi) as (i' & Hi' & _ & -> & _). auto.
  - intros i Hi. destruct (Hb i Hi) as (i' & Hi' & _ & -> & _).
    rewrite grow_bucket_size. auto.
Qed.

(** *** A bucket splits *)

Lemma divide_eq (t : Table) p b :
  length (list_ b) ≤ bucket_size_ t →
  divide hash t p b =
    mkTable (global_depth_ t) (bucket_size_ t) (S (num_buckets_ t))
      (imap (λ i q, if decide (q = p)
                    then if bit_set (Z.of_nat i) (depth_ b)
                         then length (heap_ t) else S (length (heap_ t))
                    else q) (dir_ t))
      (heap_ t ++ [mkBucket (bucket_size_ t) (S (depth_ b)) (upper hash (depth_ b) (list_ b));
                   mkBucket (bucket_size_ t) (S (depth_ b)) (lower hash (depth_ b) (list_ b))]).
Proof.
  intros Hlen. unfold divide. rewrite redistribute_filter by (simpl; lia). done.
Qed.

Lemma divide_slot (t : Table) p b j :
  length (list_ b) ≤ bucket_size_ t → j < length (dir_ t) →
  slot (divide hash t p b) j =
    if decide (slot t j = p)
    then if bit_set (Z.of_nat j) (depth_ b)
         then length (heap_ t) else S (length (heap_ t))
    else slot t j.
Proof.
  intros Hlen Hj. rewrite divide_eq by done. unfold slot at 1. simpl.
  rewrite list_lookup_imap, (slot_lookup t j Hj). done.
Qed.

Lemma divide_bucket (t : Table) p b j :
  length (list_ b) ≤ bucket_size_ t → j < length (dir_ t) →
  slot t j < length (heap_ t) →
  bucket_at (divide hash t p b) j =
    if decide (slot t j = p)
    then if bit_set (Z.of_nat j) (depth_ b)
         then mkBucket (bucket_size_ t) (S (depth_ b)) (upper hash (depth_ b) (list_ b))
         else mkBucket (bucket_size_ t) (S (depth_ b)) (lower hash (depth_ b) (list_ b))
    else bucket_at t j.
Proof.
  intros Hlen Hj Hp. unfold bucket_at. rewrite divide_slot by done.
  rewrite divide_eq by done. unfold deref. simpl.
  destruct (decide (slot t j = p)).
  - destruct (bit_set (Z.of_nat j) (depth_ b)).
    + rewrite lookup_app_r by lia. by rewrite Nat.sub_diag.
    + rewrite lookup_app_r by lia.
      replace (S (length (heap_ t)) - length (heap_ t)) with 1 by lia. done.
  - by rewrite lookup_app_l.
Qed.

Lemma divide_length (t : Table) p b :
  length (dir_ (divide hash t p b)) = length (dir_ t).
Proof.
  unfold divide. destruct (redistribute _ _ _ _ _). simpl. apply length_imap.
Qed.

Lemma divide_global_depth (t : Table) p b :
  global_depth_ (divide hash t p b) = global_depth_ t.
Proof. unfold divide. by destruct (redistribute _ _ _ _ _). Qed.

Lemma divide_bucket_size (t : Table) p b :
  bucket_size_ (divide hash t p b) = bucket_size_ t.
Proof. unfold divide. by destruct (redistribute _ _ _ _ _). Qed.

Lemma divide_heap_length (t : Table) p b :
  length (heap_ (divide hash t p b)) = S (S (length (heap_ t))).
Proof.
  unfold divide. destruct (redistribute _ _ _ _ _). simpl.
  rewrite length_app. simpl. lia.
Qed.

Lemma bucket_length_le (t : Table) i :
  WF hash t → i < length (dir_ t) →
  length (list_ (bucket_at t i)) ≤ bucket_size_ t.
Proof.
  intros Hwf Hi. pose proof (wf_room _ _ Hwf i Hi). 
  destruct (wf_size _ _ Hwf i Hi) as [?|[? _]]; lia.
Qed.

Lemma NoDup_keys_filter (P : K * V → Prop) `{∀ x, Decision (P x)} (l : list (K * V)) :
  NoDup l.*1 → NoDup (filter P l).*1.
Proof.
  induction l as [|x l IH]; simpl; [done|].
  rewrite NoDup_cons. intros [Hx Hl].
  destruct (decide (P x)).
  - rewrite filter_cons_True by done. simpl. apply NoDup_cons. split; [|auto].
    intros Hin. apply Hx. apply list_elem_of_fmap in Hin as (y & -> & Hy).
    apply list_elem_of_filter in Hy as [_ Hy]. apply list_elem_of_fmap. eauto.
  - rewrite filter_cons_False by done. auto.
Qed.

Lemma WF_divide (t : Table) i0 :
  WF hash t → i0 < length (dir_ t) →
  depth_ (bucket_at t i0) < global_depth_ t →
  WF hash (divide hash t (slot t i0) (bucket_at t i0)).
Proof.
  intros Hwf Hi0 Hd.
  set (p := slot t i0) in *. set (b := bucket_at t i0) in *.
  assert (Hlen : length (list_ b) ≤ bucket_size_ t) by by apply bucket_length_le.
  assert (Hs := λ j, divide_slot t p b j Hlen).
  assert (Hb := λ j Hj, divide_bucket t p b j Hlen Hj (wf_ptr _ _ Hwf j Hj)).
  assert (Hp : ∀ j, j < length (dir_ t) →
               (slot t j = p ↔ agree (depth_ b) (Z.of_nat j) (Z.of_nat i0))).
  { intros j Hj. by apply (wf_share _ _ Hwf). }
  assert (Hbp : ∀ j, slot t j = p → bucket_at t j = b).
  { intros j Hj. unfold bucket_at, b, bucket_at. by rewrite Hj. }
  destruct Hwf as [Wlen Wptr Wdep Wsh Wit Wnd Wroom Wsize].
  constructor; rewrite ?divide_length, ?divide_global_depth, ?divide_bucket_size,
    ?divide_heap_length.
  - done.
  - intros i Hi. rewrite Hs by done. specialize (Wptr i Hi).
    destruct (decide _); [destruct (bit_set _ _)|]; lia.
  - intros i Hi. rewrite Hb by done. specialize (Wdep i Hi).
    destruct (decide _); [destruct (bit_set _ _)|]; simpl; lia.
  - intros i j Hi Hj. rewrite !Hs, Hb by done.
    pose proof (Wptr i Hi). pose proof (Wptr j Hj).
    destruct (decide (slot t i = p)) as [Ei|Ei], (decide (slot t j = p)) as [Ej|Ej].
    + assert (agree (depth_ b) (Z.of_nat j) (Z.of_nat i)).
      { eapply agree_trans; [by apply Hp|]. apply agree_sym. by apply Hp. }
      rewrite !bit_set_testbit.
      destruct (Z.testbit (Z.of_nat i) (Z.of_nat (depth_ b))) eqn:Bi,
               (Z.testbit (Z.of_nat j) (Z.of_nat (depth_ b))) eqn:Bj; simpl;
        rewrite agree_S, Bi, Bj; split; try done; try lia; intros [_ ?]; done.
    + assert (¬ agree (depth_ b) (Z.of_nat j) (Z.of_nat i)).
      { intros A. apply Ej, Hp; [done|]. eapply agree_trans; [apply A|]. by apply Hp. }
      split.
      * destruct (bit_set _ _); lia.
      * destruct (bit_set _ _); simpl; rewrite agree_S; intros [? _]; done.
    + split.
      * destruct (bit_set _ _); lia.
      * intros A. apply (Wsh i j Hi Hj) in A. congruence.
    + apply Wsh; done.
  - intros i kv Hi. rewrite Hb by done.
    destruct (decide (slot t i = p)) as [Ei|Ei]; [|by apply Wit].
    assert (Hin : kv ∈ list_ b → agree (depth_ b) (hash kv.1) (Z.of_nat i)).
    { intros Hin. rewrite <- (Hbp i Ei). apply Wit; [done|]. by rewrite (Hbp i Ei). }
    rewrite bit_set_testbit.
    destruct (Z.testbit (Z.of_nat i) (Z.of_nat (depth_ b))) eqn:Bi; simpl;
      unfold upper, lower; rewrite list_elem_of_filter, bit_set_testbit;
      intros [Hbit Hkv]; apply agree_S; (split; [by apply Hin|]); rewrite Bi.
    + done.
    + by destruct (Z.testbit (hash kv.1) (Z.of_nat (depth_ b))).
  - intros i Hi. rewrite Hb by done.
    destruct (decide _); [destruct (bit_set _ _)|]; simpl;
      try apply NoDup_keys_filter; try by apply Wnd. 
    all: rewrite <- (Hbp i) by done; by apply Wnd.
  - intros i Hi. rewrite Hb by done.
    destruct (decide _); [destruct (bit_set _ _)|]; simpl; try by apply Wroom.
    all: unfold upper, lower; etrans; [apply length_filter|done].
  - intros i Hi. rewrite Hb by done.
    destruct (decide _); [destruct (bit_set _ _)|]; simpl; auto.
Qed.

Lemma split_eq (t : Table) key :
  split hash t key =
    divide hash (grow t (bucket_at t (IndexOf hash t key)))
      (slot t (IndexOf hash t key)) (bucket_at t (IndexOf hash t key)).
Proof. done. Qed.

Lemma IndexOf_in (t : Table) key :
  WF hash t → IndexOf hash t key < length (dir_ t).
Proof. intros Hwf. rewrite (wf_len _ _ Hwf). apply IndexOf_lt. Qed.

Lemma grow_index (t : Table) b i :
  WF hash t → i < length (dir_ t) →
  i < length (dir_ (grow t b)) ∧ slot (grow t b) i = slot t i ∧
  bucket_at (grow t b) i = bucket_at t i.
Proof.
  intros Hwf Hi. split; [|split].
  - unfold grow. destruct (depth_ b =? global_depth_ t); simpl; [|done].
    rewrite length_app. lia.
  - by apply grow_keeps.
  - unfold bucket_at. rewrite grow_keeps by done. apply grow_deref.
Qed.

Lemma WF_split (t : Table) key : WF hash t → WF hash (split hash t key).
Proof.
  intros Hwf. rewrite split_eq.
  set (i0 := IndexOf hash t key). set (b := bucket_at t i0).
  assert (Hi0 : i0 < length (dir_ t)) by by apply IndexOf_in.
  destruct (grow_index t b i0 Hwf Hi0) as (Hi1 & Hs1 & Hb1).
  pose proof (WF_divide (grow t b) i0 (WF_grow t b Hwf) Hi1) as Hd.
  rewrite Hs1, Hb1 in Hd. apply Hd. fold b.
  destruct (grow_depth t b) as [?|[? ->]]; [|done|done].
  by apply (wf_depth _ _ Hwf).
Qed.

(** *** Scanning a bucket *)

Lemma first_with_key key (l : list (K * V)) kv :
  first_with key l = Some kv → kv.1 = key ∧ kv ∈ l.
Proof.
  induction l as [|x l IH]; simpl; [done|].
  destruct (decide (x.1 = key)).
  - intros [= <-]. split; [done|]. apply list_elem_of_here.
  - intros H. destruct (IH H). split; [done|]. by apply list_elem_of_further.
Qed.

Lemma first_with_None key (l : list (K * V)) :
  first_with key l = None ↔ key ∉ l.*1.
Proof.
  induction l as [|x l IH]; simpl.
  - split; [|done]. intros _ H. by apply elem_of_nil in H.
  - rewrite not_elem_of_cons. destruct (decide (x.1 = key)).
    + split; [done|]. intros [? _]. congruence.
    + rewrite IH. split; [|tauto]. intros; split; [congruence|done].
Qed.

Lemma first_with_filter key (P : K * V → Prop) `{∀ x, Decision (P x)}
    (l : list (K * V)) :
  (∀ kv, kv ∈ l → kv.1 = key → P kv) →
  first_with key (filter P l) = first_with key l.
Proof.
  induction l as [|x l IH]; simpl; [done|]. intros HP.
  assert (IH' : first_with key (filter P l) = first_with key l).
  { apply IH. intros kv Hin. apply HP. by apply list_elem_of_further. }
  destruct (decide (P x)).
  - rewrite filter_cons_True by done. simpl. by rewrite IH'.
  - rewrite filter_cons_False by done. rewrite IH'.
    destruct (decide (x.1 = key)); [|done].
    exfalso. apply n, HP; [apply list_elem_of_here|done].
Qed.

Lemma first_with_filter_out key (P : K * V → Prop) `{∀ x, Decision (P x)}
    (l : list (K * V)) :
  (∀ kv, kv ∈ l → kv.1 = key → ¬ P kv) →
  first_with key (filter P l) = None.
Proof.
  intros HP. apply first_with_None. intros Hin.
  apply list_elem_of_fmap in Hin as (kv & -> & Hkv).
  apply list_elem_of_filter in Hkv as [HPkv Hkv]. by apply (HP kv).
Qed.

Lemma first_with_app key (l1 l2 : list (K * V)) :
  first_with key (l1 ++ l2) =
    match first_with key l1 with
    | Some kv => Some kv
    | None => first_with key l2
    end.
Proof.
  induction l1 as [|x l1 IH]; simpl; [done|].
  by destruct (decide (x.1 = key)).
Qed.

Lemma overwrite_None key value (l : list (K * V)) :
  overwrite key value l = None ↔ first_with key l = None.
Proof.
  induction l as [|x l IH]; simpl; [done|].
  destruct (decide (x.1 = key)); [done|].
  destruct (overwrite key value l); simpl.
  - split; [done|]. intros H. apply IH in H. done.
  - split; [|done]. intros _. by apply IH.
Qed.

Lemma overwrite_Some key value (l l' : list (K * V)) :
  overwrite key value l = Some l' →
  l'.*1 = l.*1 ∧ length l' = length l ∧
  (∀ k, first_with k l' =
        if decide (k = key) then Some (key, value) else first_with k l).
Proof.
  revert l'. induction l as [|x l IH]; intros l'; simpl; [done|].
  destruct (decide (x.1 = key)) as [Hx|Hx].
  - intros [= <-]. simpl. split; [done|]. split; [done|]. intros k.
    rewrite Hx. destruct (decide (key = k)), (decide (k = key)); congruence.
  - destruct (overwrite key value l) as [l0|] eqn:E; simpl; [|done].
    intros [= <-]. destruct (IH l0 eq_refl) as (H1 & H2 & H3).
    simpl. split; [by f_equal|]. split; [by f_equal|]. intros k.
    rewrite H3. destruct (decide (x.1 = k)) as [<-|]; [|done].
    by destruct (decide (x.1 = key)).
Qed.

(** *** The loop of [Insert] keeps the content *)

Lemma Find_grow (t : Table) b key :
  WF hash t → Find hash (grow t b) key = Find hash t key.
Proof.
  intros Hwf. destruct (Nat.eqb_spec (depth_ b) (global_depth_ t)) as [Hd|Hd];
    [|unfold grow; by destruct (Nat.eqb_spec (depth_ b) (global_depth_ t))].
  unfold Find, bucket_at. rewrite grow_deref. f_equal. f_equal.
  pose proof (WF_grow t b Hwf) as Hwf'.
  destruct (grow_slots t b (IndexOf hash (grow t b) key) Hd (IndexOf_in _ _ Hwf'))
    as (j' & Hj' & -> & A).
  f_equal. apply Nat2Z.inj.
  apply (agree_eq (global_depth_ t)).
  - rewrite <- pow_nat_Z, <- (wf_len _ _ Hwf). lia.
  - rewrite <- pow_nat_Z. pose proof (IndexOf_lt t key). lia.
  - eapply agree_trans; [apply A, Hwf|].
    eapply agree_trans; [apply IndexOf_agree; apply grow_global_depth|].
    apply agree_sym. by apply IndexOf_agree.
Qed.

Lemma Find_divide (t : Table) i0 key :
  WF hash t → i0 < length (dir_ t) →
  depth_ (bucket_at t i0) < global_depth_ t →
  Find hash (divide hash t (slot t i0) (bucket_at t i0)) key = Find hash t key.
Proof.
  intros Hwf Hi0 Hd. unfold Find.
  assert (Hi : IndexOf hash (divide hash t (slot t i0) (bucket_at t i0)) key
               = IndexOf hash t key).
  { unfold IndexOf. by rewrite divide_global_depth. }
  rewrite Hi. set (i := IndexOf hash t key).
  assert (Hlt : i < length (dir_ t)) by by apply IndexOf_in.
  rewrite divide_bucket; [|by apply bucket_length_le|done|by apply (wf_ptr _ _ Hwf)].
  destruct (decide (slot t i = slot t i0)) as [E|E]; [|done].
  assert (Hb : bucket_at t i = bucket_at t i0) by (unfold bucket_at; by rewrite E).
  rewrite Hb. set (b := bucket_at t i0) in *. rewrite bit_set_testbit.
  assert (Hbit : Z.testbit (Z.of_nat i) (Z.of_nat (depth_ b))
                 = Z.testbit (hash key) (Z.of_nat (depth_ b))).
  { apply (IndexOf_agree t key (global_depth_ t)); lia. }
  rewrite Hbit. unfold Bucket_Find. f_equal.
  destruct (Z.testbit (hash key) (Z.of_nat (depth_ b))) eqn:Bk; simpl;
    unfold upper, lower; apply first_with_filter; intros kv _ ->;
    rewrite bit_set_testbit, Bk; done.
Qed.

Lemma Find_split (t : Table) key k :
  WF hash t → Find hash (split hash t key) k = Find hash t k.
Proof.
  intros Hwf. rewrite split_eq.
  set (i0 := IndexOf hash t key). set (b := bucket_at t i0).
  assert (Hi0 : i0 < length (dir_ t)) by by apply IndexOf_in.
  destruct (grow_index t b i0 Hwf Hi0) as (Hi1 & Hs1 & Hb1).
  pose proof (Find_divide (grow t b) i0 k (WF_grow t b Hwf) Hi1) as Hd.
  rewrite Hs1, Hb1 in Hd. fold b in Hd. rewrite Hd; [by apply Find_grow|].
  destruct (grow_depth t b) as [?|[? ->]]; [|done|done].
  by apply (wf_depth _ _ Hwf).
Qed.

Lemma split_bucket_size (t : Table) key :
  bucket_size_ (split hash t key) = bucket_size_ t.
Proof. rewrite split_eq, divide_bucket_size. apply grow_bucket_size. Qed.

Lemma split_global_depth (t : Table) key :
  global_depth_ t ≤ global_depth_ (split hash t key).
Proof. rewrite split_eq, divide_global_depth. apply grow_global_depth. Qed.

Lemma Insert_loop_spec fuel (t t' : Table) key :
  WF hash t → Insert_loop hash fuel t key = Some t' →
  WF hash t' ∧ (∀ k, Find hash t' k = Find hash t k) ∧
  IsFull (bucket_at t' (IndexOf hash t' key)) = false ∧
  bucket_size_ t' = bucket_size_ t ∧ global_depth_ t ≤ global_depth_ t'.
Proof.
  revert t. induction fuel as [|fuel IH]; intros t Hwf; simpl;
    destruct (IsFull (bucket_at t (IndexOf hash t key))) eqn:E; try done.
  - intros [= <-]. done.
  - intros H. destruct (IH _ (WF_split t key Hwf) H) as (H1 & H2 & H3 & H4 & H5).
    split; [done|]. split; [|split; [done|split]].
    + intros k. rewrite H2. by apply Find_split.
    + by rewrite H4, split_bucket_size.
    + pose proof (split_global_depth t key). lia.
  - intros [= <-]. done.
Qed.

(** *** Writing one bucket *)

Lemma bucket_at_set (t : Table) i b j :
  WF hash t → i < length (dir_ t) → j < length (dir_ t) →
  bucket_at (set_bucket t (slot t i) b) j =
    if decide (slot t j = slot t i) then b else bucket_at t j.
Proof.
  intros Hwf Hi Hj. unfold bucket_at. rewrite slot_set.
  destruct (decide (slot t j = slot t i)) as [->|Hne].
  - apply deref_set_eq. by apply (wf_ptr _ _ Hwf).
  - by apply deref_set_ne.
Qed.

Lemma WF_set_bucket (t : Table) i b :
  WF hash t → i < length (dir_ t) →
  depth_ b = depth_ (bucket_at t i) → size_ b = size_ (bucket_at t i) →
  (∀ kv, kv ∈ list_ b → agree (depth_ b) (hash kv.1) (Z.of_nat i)) →
  NoDup (list_ b).*1 → length (list_ b) ≤ size_ b →
  WF hash (set_bucket t (slot t i) b).
Proof.
  intros Hwf Hi Hd Hs Hit Hnd Hroom.
  assert (Hb := λ j, bucket_at_set t i b j Hwf Hi).
  assert (Hsame : ∀ j, slot t j = slot t i → bucket_at t j = bucket_at t i).
  { intros j E. unfold bucket_at. by rewrite E. }
  pose proof Hwf as [Wlen Wptr Wdep Wsh Wit Wnd Wroom Wsize].
  constructor; simpl.
  - done.
  - intros j Hj. rewrite length_insert, slot_set. auto.
  - intros j Hj. rewrite Hb by done.
    destruct (decide _) as [E|E]; [rewrite Hd, <- (Hsame j E)|]; auto.
  - intros j j' Hj Hj'. rewrite !slot_set, Hb by done.
    destruct (decide _) as [E|E]; [rewrite Hd, <- (Hsame j E)|]; auto.
  - intros j kv Hj. rewrite Hb by done.
    destruct (decide _) as [E|E]; [|by apply Wit].
    intros Hin. eapply agree_trans; [by apply Hit|].
    apply agree_sym. rewrite Hd. by apply (Wsh i j).
  - intros j Hj. rewrite Hb by done. destruct (decide _); auto.
  - intros j Hj. rewrite Hb by done. destruct (decide _); auto.
  - intros j Hj. rewrite Hb by done.
    destruct (decide _) as [E|E]; [rewrite Hd, Hs, <- (Hsame j E)|]; auto.
Qed.

Lemma Find_set_bucket (t : Table) i b k :
  WF hash t → i < length (dir_ t) →
  Find hash (set_bucket t (slot t i) b) k =
    if decide (slot t (IndexOf hash t k) = slot t i)
    then Bucket_Find k b else Find hash t k.
Proof.
  intros Hwf Hi. unfold Find.
  change (IndexOf hash (set_bucket t (slot t i) b) k) with (IndexOf hash t k).
  rewrite bucket_at_set; [|done|done|by apply IndexOf_in].
  by destruct (decide _).
Qed.

(** *** [Insert] and [Remove] on a well-formed table *)

Lemma Insert_spec fuel (t t' : Table) key value :
  WF hash t → Insert hash fuel t key value = Some t' →
  WF hash t' ∧ Find hash t' key = Some value ∧
  (∀ k, k ≠ key → Find hash t' k = Find hash t k) ∧
  bucket_size_ t' = bucket_size_ t ∧ global_depth_ t ≤ global_depth_ t'.
Proof.
  intros Hwf. unfold Insert.
  destruct (Insert_loop hash fuel t key) as [t1|] eqn:Eloop; simpl; [|done].
  destruct (Insert_loop_spec _ _ _ _ Hwf Eloop) as (Hwf1 & Hfind & Hfull & Hbs & Hgd).
  set (i := IndexOf hash t1 key) in *.
  assert (Hi : i < length (dir_ t1)) by by apply IndexOf_in.
  change (deref t1 (slot t1 i)) with (bucket_at t1 i).
  set (b := bucket_at t1 i) in *.
  assert (Hkey : agree (depth_ b) (hash key) (Z.of_nat i)).
  { apply agree_sym, IndexOf_agree. by apply (wf_depth _ _ Hwf1). }
  assert (Hother : ∀ k, slot t1 (IndexOf hash t1 k) = slot t1 i →
                        Find hash t1 k = Bucket_Find k b).
  { intros k E. unfold Find, bucket_at, b, bucket_at. by rewrite E. }
  destruct (overwrite key value (list_ b)) as [l'|] eqn:Eo; intros [= <-].
  - destruct (overwrite_Some _ _ _ _ Eo) as (Hk & Hl & Hf).
    split; [|split; [|split]].
    + apply WF_set_bucket; simpl; try done.
      * intros kv Hin.
        assert (Hin' : kv.1 ∈ (list_ b).*1).
        { rewrite <- Hk. apply list_elem_of_fmap. eauto. }
        apply list_elem_of_fmap in Hin' as (kv0 & -> & Hkv0).
        by apply (wf_items _ _ Hwf1 i).
      * rewrite Hk. by apply (wf_nodup _ _ Hwf1).
      * rewrite Hl. by apply (wf_room _ _ Hwf1).
    + rewrite Find_set_bucket by done. fold i. rewrite decide_True by done.
      unfold Bucket_Find. simpl. rewrite Hf, decide_True by done. done.
    + intros k Hne. rewrite Find_set_bucket by done. rewrite <- Hfind.
      destruct (decide _) as [E|E]; [|done].
      rewrite (Hother k E). unfold Bucket_Find. simpl.
      rewrite Hf, decide_False by done. done.
    + done.
  - apply overwrite_None in Eo.
    unfold IsFull in Hfull. unfold Bucket_Insert. rewrite Hfull. simpl.
    apply Nat.eqb_neq in Hfull. pose proof (wf_room _ _ Hwf1 i Hi). fold b in H.
    split; [|split; [|split]].
    + apply WF_set_bucket; simpl; try done.
      * intros kv Hin. apply elem_of_app in Hin as [Hin|Hin].
        { by apply (wf_items _ _ Hwf1 i). }
        apply list_elem_of_singleton in Hin as ->. done.
      * rewrite fmap_app. apply NoDup_app. split; [by apply (wf_nodup _ _ Hwf1)|].
        split; [|apply NoDup_singleton]. simpl.
        intros k Hin Hk. apply list_elem_of_singleton in Hk as ->.
        by apply first_with_None in Eo.
      * rewrite length_app. simpl. lia.
    + rewrite Find_set_bucket by done. fold i. rewrite decide_True by done.
      unfold Bucket_Find. simpl. rewrite first_with_app, Eo. simpl.
      rewrite decide_True by done. done.
    + intros k Hne. rewrite Find_set_bucket by done. rewrite <- Hfind.
      destruct (decide _) as [E|E]; [|done].
      rewrite (Hother k E). unfold Bucket_Find. simpl. rewrite first_with_app.
      destruct (first_with k (list_ b)); [done|]. simpl.
      rewrite decide_False by done. done.
    + done.
Qed.

Lemma set_bucket_same (t : Table) p : set_bucket t p (deref t p) = t.
Proof.
  unfold set_bucket, deref. destruct t as [gd bs nb dir heap]. simpl. f_equal.
  destruct (heap !! p) as [b|] eqn:E; simpl.
  - by apply list_insert_id.
  - apply list_insert_ge. by apply lookup_ge_None.
Qed.

Lemma Remove_absent (t : Table) key :
  Find hash t key = None → Remove hash t key = (t, false).
Proof.
  unfold Find, Remove, Bucket_Find, Bucket_Remove, bucket_at.
  destruct (list_ (deref t (slot t (IndexOf hash t key)))) eqn:E; [done|].
  rewrite <- E. destruct (first_with key _); simpl; [done|]. intros _.
  by rewrite set_bucket_same.
Qed.

Lemma Remove_empty (t : Table) key :
  list_ (bucket_at t (IndexOf hash t key)) = [] → Remove hash t key = (t, false).
Proof. unfold Remove, bucket_at. by intros ->. Qed.

Lemma Remove_present (t : Table) key v :
  Find hash t key = Some v → (Remove hash t key).2 = true.
Proof.
  unfold Find, Remove, Bucket_Find, Bucket_Remove, bucket_at.
  destruct (list_ (deref t (slot t (IndexOf hash t key)))) eqn:E; [done|].
  rewrite <- E. destruct (first_with key _); simpl; done.
Qed.

Lemma Remove_spec (t : Table) key :
  WF hash t →
  WF hash (Remove hash t key).1 ∧
  ((Remove hash t key).2 = true → Find hash (Remove hash t key).1 key = None) ∧
  (∀ k, k ≠ key → Find hash (Remove hash t key).1 k = Find hash t k) ∧
  bucket_size_ (Remove hash t key).1 = bucket_size_ t ∧
  global_depth_ (Remove hash t key).1 = global_depth_ t ∧
  dir_ (Remove hash t key).1 = dir_ t.
Proof.
  intros Hwf. unfold Remove.
  set (i := IndexOf hash t key).
  assert (Hi : i < length (dir_ t)) by by apply IndexOf_in.
  change (deref t (slot t i)) with (bucket_at t i).
  set (b := bucket_at t i) in *.
  destruct (list_ b) eqn:El; [done|]. clear El.
  unfold Bucket_Remove.
  destruct (first_with key (list_ b)) as [kv0|] eqn:Ef; simpl;
    [|unfold b, bucket_at; by rewrite set_bucket_same].
  destruct (first_with_key _ _ _ Ef) as [Hk0 Hin0].
  assert (Hother : ∀ k, slot t (IndexOf hash t k) = slot t i →
                        Find hash t k = Bucket_Find k b).
  { intros k E. unfold Find, bucket_at, b, bucket_at. by rewrite E. }
  split; [|split; [|split]]; try done.
  - apply WF_set_bucket; simpl; try done.
    + intros kv Hin. apply list_elem_of_filter in Hin as [_ Hin].
      by apply (wf_items _ _ Hwf i).
    + apply NoDup_keys_filter. by apply (wf_nodup _ _ Hwf).
    + etrans; [apply length_filter|]. by apply (wf_room _ _ Hwf).
  - intros _. rewrite Find_set_bucket by done. fold i. rewrite decide_True by done.
    unfold Bucket_Find. simpl. rewrite first_with_filter_out; [done|].
    intros kv Hin Hk Hne. apply Hne.
    pose proof (wf_nodup _ _ Hwf i Hi) as Hnd. fold b in Hnd.
    apply list_elem_of_lookup in Hin as [n1 H1].
    apply list_elem_of_lookup in Hin0 as [n0 H0].
    assert (n1 = n0).
    { apply (NoDup_lookup _ n1 n0 key Hnd);
        rewrite list_lookup_fmap; [rewrite H1|rewrite H0]; simpl; congruence. }
    congruence.
  - intros k Hne. rewrite Find_set_bucket by done.
    destruct (decide _) as [E|E]; [|done].
    rewrite (Hother k E). unfold Bucket_Find. simpl. f_equal.
    apply first_with_filter. intros kv _ Hk ->. congruence.
Qed.

Lemma WF_new_table bucket_size : WF hash (@new_table K V bucket_size).
Proof.
  assert (Hi : ∀ i, i < 1 → i = 0) by lia.
  constructor; simpl; try done.
  - intros i Hlt. rewrite (Hi i Hlt). unfold slot. simpl. lia.
  - intros i Hlt. rewrite (Hi i Hlt). done.
  - intros i j Hlt Hlt'. rewrite (Hi i Hlt), (Hi j Hlt'). done.
  - intros i kv Hlt. rewrite (Hi i Hlt). unfold bucket_at. simpl.
    intros Hin. by apply elem_of_nil in Hin.
  - intros i Hlt. rewrite (Hi i Hlt). apply NoDup_nil_2.
  - intros i Hlt. rewrite (Hi i Hlt). done.
  - intros i Hlt. rewrite (Hi i Hlt). by right.
Qed.

(** *** Runs of calls *)

Lemma exec_spec fuel (t t' : Table) c :
  WF hash t → exec hash fuel t c = Some t' →
  WF hash t' ∧ (∀ m, (∀ k, Find hash t k = m k) →
                     ∀ k, Find hash t' k = apply_call m c k) ∧
  bucket_size_ t' = bucket_size_ t ∧ global_depth_ t ≤ global_depth_ t'.
Proof.
  intros Hwf. destruct c as [key value|key|key]; simpl.
  - intros H. destruct (Insert_spec _ _ _ _ _ Hwf H) as (H1 & H2 & H3 & H4 & H5).
    split; [done|]. split; [|done]. intros m Hm k.
    destruct (decide (k = key)) as [->|Hne]; [done|]. rewrite H3 by done. apply Hm.
  - intros [= <-]. destruct (Remove_spec t key Hwf) as (H1 & H2 & H3 & H4 & H5 & _).
    split; [done|]. split; [|split; [done|lia]]. intros m Hm k.
    destruct (decide (k = key)) as [->|Hne]; [|rewrite H3 by done; apply Hm].
    destruct (Find hash t key) as [v|] eqn:E.
    + apply H2. by apply (Remove_present t key v).
    + by rewrite Remove_absent.
  - intros [= <-]. split; [done|]. split; [|done]. intros m Hm k. apply Hm.
Qed.

Lemma run_spec fuel cs : ∀ (t t' : Table) m,
  WF hash t → (∀ k, Find hash t k = m k) → run hash fuel t cs = Some t' →
  WF hash t' ∧ (∀ k, Find hash t' k = foldl apply_call m cs k) ∧
  bucket_size_ t' = bucket_size_ t ∧ global_depth_ t ≤ global_depth_ t'.
Proof.
  induction cs as [|c cs IH]; intros t t' m Hwf Hm; simpl.
  - intros [= <-]. done.
  - destruct (exec hash fuel t c) as [t1|] eqn:E; simpl; [|done].
    destruct (exec_spec _ _ _ _ Hwf E) as (H1 & H2 & H3 & H4).
    intros Hrun.
    destruct (IH t1 t' (apply_call m c) H1 (H2 m Hm) Hrun) as (H5 & H6 & H7 & H8).
    split; [done|]. split; [done|]. split; [congruence|lia].
Qed.

Lemma Find_new_table bucket_size k :
  Find hash (@new_table K V bucket_size) k = None.
Proof.
  unfold Find, IndexOf. simpl. change (Z.shiftl 1 0 - 1)%Z with 0%Z.
  by rewrite Z.land_0_r.
Qed.

Lemma run_new_WF fuel bucket_size cs (t : Table) :
  run hash fuel (new_table bucket_size) cs = Some t →
  WF hash t ∧ ∀ k, Find hash t k = content cs k.
Proof.
  intros Hrun.
  destruct (run_spec fuel cs (new_table bucket_size) t (λ _, None)) as (H1 & H2 & _);
    [apply WF_new_table|apply Find_new_table|done|done].
Qed.

Lemma run_app fuel (t : Table) cs1 cs2 :
  run hash fuel t (cs1 ++ cs2) =
    t1 ← run hash fuel t cs1; run hash fuel t1 cs2.
Proof.
  revert t. induction cs1 as [|c cs1 IH]; intros t; simpl; [done|].
  destruct (exec hash fuel t c); simpl; [apply IH|done].
Qed.

(** *** Counting the slots of a bucket *)

Lemma length_filter_ext {A} (P Q : A → Prop) `{∀ x, Decision (P x)}
    `{∀ x, Decision (Q x)} (l : list A) :
  (∀ x, x ∈ l → P x ↔ Q x) → length (filter P l) = length (filter Q l).
Proof.
  induction l as [|x l IH]; intros HPQ; [done|].
  assert (Hx : P x ↔ Q x) by (apply HPQ, list_elem_of_here).
  assert (IH' : length (filter P l) = length (filter Q l)).
  { apply IH. intros y Hy. apply HPQ. by apply list_elem_of_further. }
  destruct (decide (P x)).
  - rewrite !filter_cons_True by tauto. simpl. by rewrite IH'.
  - rewrite !filter_cons_False by tauto. done.
Qed.

Lemma length_filter_fmap {A B} (f : A → B) (P : B → Prop)
    `{∀ x, Decision (P x)} (l : list A) :
  length (filter P (f <$> l)) = length (filter (λ x, P (f x)) l).
Proof.
  induction l as [|x l IH]; [done|]. rewrite fmap_cons.
  destruct (decide (P (f x))).
  - rewrite !filter_cons_True by done. simpl. by rewrite IH.
  - rewrite !filter_cons_False by done. done.
Qed.

Lemma count_one r n :
  length (filter (λ j, j = r) (seq 0 n)) = if decide (r < n) then 1 else 0.
Proof.
  induction n as [|n IH]; [done|].
  rewrite seq_S, filter_app, length_app, IH. simpl.
  destruct (decide (n = r)) as [->|Hne].
  - rewrite filter_cons_True by done. simpl.
    rewrite decide_False, decide_True by lia. done.
  - rewrite filter_cons_False by done. simpl.
    destruct (decide (r < n)), (decide (r < S n)); lia.
Qed.

Lemma count_residue d e r :
  r < 2 ^ d →
  length (filter (λ j, j mod 2 ^ d = r) (seq 0 (2 ^ (d + e)))) = 2 ^ e.
Proof.
  intros Hr. induction e as [|e IH].
  - rewrite Nat.add_0_r. simpl.
    rewrite (length_filter_ext _ (λ j, j = r)).
    + rewrite count_one. by rewrite decide_True.
    + intros j Hj%elem_of_seq. by rewrite Nat.mod_small by lia.
  - replace (2 ^ (d + S e)) with (2 ^ (d + e) + 2 ^ (d + e))
      by (rewrite Nat.add_succ_r; simpl; lia).
    rewrite seq_app, filter_app, length_app, IH. rewrite Nat.add_0_l.
    replace (seq (2 ^ (d + e)) (2 ^ (d + e)))
      with (Nat.add (2 ^ (d + e)) <$> seq 0 (2 ^ (d + e)))
      by (rewrite fmap_add_seq; f_equal; lia).
    rewrite length_filter_fmap.
    rewrite (length_filter_ext _ (λ j, j mod 2 ^ d = r)); [rewrite IH; simpl; lia|].
    intros j _. rewrite Nat.pow_add_r, (Nat.mul_comm (2 ^ d)).
    rewrite Nat.add_comm, Nat.Div0.mod_add. done.
Qed.

Lemma agree_residue d (i j : nat) :
  agree d (Z.of_nat j) (Z.of_nat i) ↔ j mod 2 ^ d = i mod 2 ^ d.
Proof.
  assert (Hpos : (0 < 2 ^ Z.of_nat d)%Z) by (apply Z.pow_pos_nonneg; lia).
  split.
  - intros A. apply Nat2Z.inj. rewrite !Nat2Z.inj_mod, !pow_nat_Z.
    apply (agree_eq d); try (apply Z.mod_pos_bound; lia).
    eapply agree_trans; [by apply agree_mod|].
    eapply agree_trans; [apply A|]. apply agree_sym. by apply agree_mod.
  - intros E. apply (f_equal Z.of_nat) in E. rewrite !Nat2Z.inj_mod, !pow_nat_Z in E.
    eapply agree_trans; [apply agree_sym, (agree_mod d d); lia|].
    rewrite E. by apply agree_mod.
Qed.

Lemma dir_as_slots (t : Table) : dir_ t = slot t <$> seq 0 (length (dir_ t)).
Proof.
  apply list_eq. intros j. rewrite list_lookup_fmap.
  destruct (decide (j < length (dir_ t))) as [Hj|Hj].
  - rewrite lookup_seq_lt by done. simpl. by apply slot_lookup.
  - rewrite lookup_seq_ge by lia. simpl. apply lookup_ge_None. lia.
Qed.

Lemma refs_count (t : Table) i :
  WF hash t → i < length (dir_ t) →
  refs t (slot t i) = 2 ^ (global_depth_ t - depth_ (bucket_at t i)).
Proof.
  intros Hwf Hi. unfold refs. rewrite (dir_as_slots t) at 1.
  rewrite length_filter_fmap.
  pose proof (wf_depth _ _ Hwf i Hi) as Hd.
  set (d := depth_ (bucket_at t i)) in *.
  rewrite (length_filter_ext _ (λ j, j mod 2 ^ d = i mod 2 ^ d)).
  - rewrite (wf_len _ _ Hwf).
    replace (global_depth_ t) with (d + (global_depth_ t - d)) at 1 by lia.
    apply count_residue. apply Nat.mod_upper_bound. apply Nat.pow_nonzero. lia.
  - intros j Hj%elem_of_seq. simpl. rewrite <- agree_residue.
    apply (wf_share _ _ Hwf); [done|lia].
Qed.

(** *** The loop of [Insert] ends *)

Lemma grow_target (t : Table) b key :
  WF hash t →
  slot (grow t b) (IndexOf hash (grow t b) key) = slot t (IndexOf hash t key).
Proof.
  intros Hwf. destruct (Nat.eqb_spec (depth_ b) (global_depth_ t)) as [Hd|Hd];
    [|unfold grow; by destruct (Nat.eqb_spec (depth_ b) (global_depth_ t))].
  pose proof (WF_grow t b Hwf) as Hwf'.
  destruct (grow_slots t b (IndexOf hash (grow t b) key) Hd (IndexOf_in _ _ Hwf'))
    as (j' & Hj' & -> & A).
  f_equal. apply Nat2Z.inj.
  apply (agree_eq (global_depth_ t)).
  - rewrite <- pow_nat_Z, <- (wf_len _ _ Hwf). lia.
  - rewrite <- pow_nat_Z. pose proof (IndexOf_lt t key). lia.
  - eapply agree_trans; [apply A, Hwf|].
    eapply agree_trans; [apply IndexOf_agree; apply grow_global_depth|].
    apply agree_sym. by apply IndexOf_agree.
Qed.

Lemma split_target (t : Table) key :
  WF hash t →
  let b := bucket_at t (IndexOf hash t key) in
  bucket_at (split hash t key) (IndexOf hash (split hash t key) key) =
    mkBucket (bucket_size_ t) (S (depth_ b))
      (if Z.testbit (hash key) (Z.of_nat (depth_ b))
       then upper hash (depth_ b) (list_ b) else lower hash (depth_ b) (list_ b)).
Proof.
  intros Hwf b. rewrite split_eq. fold b.
  set (i0 := IndexOf hash t key) in *. set (t1 := grow t b).
  assert (Hwf1 : WF hash t1) by by apply WF_grow.
  assert (Hi : IndexOf hash (divide hash t1 (slot t i0) b) key = IndexOf hash t1 key).
  { unfold IndexOf. by rewrite divide_global_depth. }
  rewrite Hi. set (i := IndexOf hash t1 key).
  assert (Hlt : i < length (dir_ t1)) by by apply IndexOf_in.
  assert (Hlen : length (list_ b) ≤ bucket_size_ t1).
  { unfold t1. rewrite grow_bucket_size. apply bucket_length_le; [done|by apply IndexOf_in]. }
  rewrite divide_bucket; [|done|done|by apply (wf_ptr _ _ Hwf1)].
  unfold i, t1. rewrite grow_target by done. fold i0. rewrite decide_True by done.
  rewrite grow_bucket_size, bit_set_testbit.
  assert (Hd : depth_ b < global_depth_ (grow t b)).
  { destruct (grow_depth t b) as [?|[? ->]]; [|done|done].
    apply (wf_depth _ _ Hwf). by apply IndexOf_in. }
  rewrite (IndexOf_agree (grow t b) key (global_depth_ (grow t b))) by lia.
  by destruct (Z.testbit (hash key) (Z.of_nat (depth_ b))).
Qed.



Lemma elem_Find (t : Table) i kv :
  WF hash t → i < length (dir_ t) → kv ∈ list_ (bucket_at t i) →
  Find hash t kv.1 = Some kv.2.
Proof.
  intros Hwf Hi Hin. unfold Find.
  assert (Hs : slot t (IndexOf hash t kv.1) = slot t i).
  { apply (wf_share _ _ Hwf); [done|by apply IndexOf_in|].
    eapply agree_trans; [apply IndexOf_agree; by apply (wf_depth _ _ Hwf)|].
    by apply (wf_items _ _ Hwf). }
  unfold bucket_at at 1. rewrite Hs. fold (bucket_at t i). unfold Bucket_Find.
  destruct (first_with kv.1 (list_ (bucket_at t i))) as [kv'|] eqn:E.
  - destruct (first_with_key _ _ _ E) as [Hk Hin']. simpl. f_equal.
    pose proof (wf_nodup _ _ Hwf i Hi) as Hnd.
    apply list_elem_of_lookup in Hin as [n1 H1].
    apply list_elem_of_lookup in Hin' as [n0 H0].
    assert (n1 = n0).
    { apply (NoDup_lookup _ n1 n0 kv.1 Hnd);
        rewrite list_lookup_fmap; [rewrite H1|rewrite H0]; simpl; congruence. }
    congruence.
  - apply first_with_None in E. exfalso. apply E. apply list_elem_of_fmap. eauto.
Qed.

Lemma elem_slot (t : Table) i kv :
  WF hash t → i < length (dir_ t) → kv ∈ list_ (bucket_at t i) →
  slot t (IndexOf hash t kv.1) = slot t i.
Proof.
  intros Hwf Hi Hin.
  apply (wf_share _ _ Hwf); [done|by apply IndexOf_in|].
  eapply agree_trans; [apply IndexOf_agree; by apply (wf_depth _ _ Hwf)|].
  by apply (wf_items _ _ Hwf).
Qed.

Lemma entries_spec (t : Table) kv :
  kv ∈ entries t ↔ ∃ i, i < length (dir_ t) ∧ kv ∈ list_ (bucket_at t i).
Proof.
  unfold entries. rewrite list_elem_of_bind. split.
  - intros (p & Hin & Hp). apply (proj1 (elem_of_remove_dups _ _)) in Hp.
    apply list_elem_of_lookup in Hp as [i Hi]. exists i.
    split; [by apply lookup_lt_Some in Hi|].
    unfold bucket_at, slot. by rewrite Hi.
  - intros (i & Hi & Hin). exists (slot t i). split; [done|].
    apply elem_of_remove_dups, list_elem_of_lookup. exists i. by apply slot_lookup.
Qed.

Lemma fmap_bind_keys {A} (f : A → list (K * V)) (l : list A) :
  (l ≫= f).*1 = l ≫= (λ x, (f x).*1).
Proof.
  induction l as [|x l IH]; [done|]. rewrite !bind_cons, fmap_app. by rewrite IH.
Qed.

Lemma entries_NoDup (t : Table) : WF hash t → NoDup (entries t).*1.
Proof.
  intros Hwf. unfold entries. rewrite fmap_bind_keys.
  assert (Hp : ∀ p, p ∈ remove_dups (dir_ t) →
                    ∃ i, i < length (dir_ t) ∧ p = slot t i).
  { intros p Hin. apply (proj1 (elem_of_remove_dups _ _)) in Hin.
    apply list_elem_of_lookup in Hin as [i Hi].
    exists i. split; [by apply lookup_lt_Some in Hi|]. unfold slot. by rewrite Hi. }
  apply NoDup_bind; [| |apply NoDup_remove_dups].
  - intros p1 p2 k (i1 & Hi1 & ->)%Hp (i2 & Hi2 & ->)%Hp Hk1 Hk2.
    apply list_elem_of_fmap in Hk1 as (kv1 & -> & Hkv1).
    apply list_elem_of_fmap in Hk2 as (kv2 & E & Hkv2).
    rewrite <- (elem_slot t i1 kv1 Hwf Hi1 Hkv1).
    rewrite <- (elem_slot t i2 kv2 Hwf Hi2 Hkv2). by rewrite E.
  - intros p (i & Hi & ->)%Hp. by apply (wf_nodup _ _ Hwf).
Qed.

Lemma Find_entries (t : Table) k v :
  WF hash t → Find hash t k = Some v → (k, v) ∈ entries t.
Proof.
  intros Hwf Hf. apply entries_spec. exists (IndexOf hash t k).
  split; [by apply IndexOf_in|]. unfold Find, Bucket_Find in Hf.
  destruct (first_with k _) as [kv|] eqn:E; [|done].
  apply first_with_key in E as [<- Hin]. injection Hf as <-. by destruct kv.
Qed.

Lemma filter_key (l : list (K * V)) k v :
  NoDup l.*1 → (k, v) ∈ l → filter (λ kv, kv.1 = k) l = [(k, v)].
Proof.
  induction l as [|x l IH]; intros Hnd Hin; [by apply elem_of_nil in Hin|].
  simpl in Hnd. apply NoDup_cons in Hnd as [Hx Hnd].
  apply elem_of_cons in Hin as [<- | Hin].
  - rewrite filter_cons_True by done. f_equal.
    destruct (filter (λ kv, kv.1 = k) l) as [|kv l'] eqn:E; [done|].
    exfalso. apply Hx.
    assert (Hkv : kv ∈ filter (λ kv, kv.1 = k) l) by (rewrite E; apply list_elem_of_here).
    apply list_elem_of_filter in Hkv as [<- Hkv]. apply list_elem_of_fmap.
    by exists kv.
  - rewrite filter_cons_False; [by apply IH|].
    intros Hk. apply Hx. rewrite Hk. apply list_elem_of_fmap. exists (k, v). done.
Qed.



Lemma content_untouched (k : K) (cs : list (@Call K V)) : ∀ m : K → option V,
  Forall (λ c, ¬ touches k c) cs → foldl apply_call m cs k = m k.
Proof.
  induction cs as [|c cs IH]; intros m Hcs; simpl; [done|].
  apply Forall_cons in Hcs as [Hc Hcs]. rewrite IH by done.
  destruct c as [key value|key|key]; simpl in *; try done;
    by rewrite decide_False by congruence.
Qed.

Lemma content_last_insert (cs1 cs2 : list (@Call K V)) (k : K) (v : V) :
  Forall (λ c, ¬ touches k c) cs2 →
  content (cs1 ++ CInsert k v :: cs2) k = Some v.
Proof.
  intros Hcs. unfold content. rewrite foldl_app. simpl.
  rewrite content_untouched by done. simpl. by rewrite decide_True.
Qed.

Lemma Insert_loop_not_full fuel (t : Table) key :
  IsFull (bucket_at t (IndexOf hash t key)) = false →
  Insert_loop hash fuel t key = Some t.
Proof. intros H. destruct fuel; simpl; by rewrite H. Qed.

(** ** The claims about the table *)

(** C7.  After any run of [Insert], [Remove] and [Find] calls on a new
  table, [Find] returns for each key the value of its last [Insert]
  (here: of an [Insert] that no later call of the run overwrites or
  removes; in general the association [content] of the run); after a
  [Remove] that returns true, [Find] of the key reports absent; and
  [Remove] returns false, changing nothing, when the addressed bucket is
  empty or the key is absent. *)
Theorem lookup_after_run bucket_size fuel cs (t : Table) :
  run hash fuel (new_table bucket_size) cs = Some t →
  (∀ cs1 cs2 k v, cs = cs1 ++ CInsert k v :: cs2 →
                  Forall (λ c, ¬ touches k c) cs2 → Find hash t k = Some v) ∧
  (∀ k, Find hash t k = content cs k) ∧
  (∀ key, (Remove hash t key).2 = true →
          Find hash (Remove hash t key).1 key = None) ∧
  (∀ key, list_ (bucket_at t (IndexOf hash t key)) = [] ∨
          Find hash t key = None →
          Remove hash t key = (t, false)).
Proof.
  intros Hrun. apply run_new_WF in Hrun as [Hwf Hc].
  split; [|split; [done|split]].
  - intros cs1 cs2 k v -> Hcs. rewrite Hc. by apply content_last_insert.
  - intros key. by apply Remove_spec.
  - intros key [He|Ha]; [by apply Remove_empty|by apply Remove_absent].
Qed.

(** C8.  Along any run of [Insert], [Remove] and [Find] calls the global
  depth never decreases, and in every table of the run the directory has
  [2 ^ global_depth] slots, the bucket of every slot has a local depth
  at most the global depth, and exactly
  [2 ^ (global_depth - local_depth)] slots point to it. *)
Theorem depth_invariants bucket_size fuel cs1 cs2 (t1 t2 : Table) :
  run hash fuel (new_table bucket_size) cs1 = Some t1 →
  run hash fuel t1 cs2 = Some t2 →
  GetGlobalDepth t1 ≤ GetGlobalDepth t2 ∧
  length (dir_ t2) = 2 ^ GetGlobalDepth t2 ∧
  ∀ i, i < length (dir_ t2) →
    GetLocalDepth t2 i ≤ GetGlobalDepth t2 ∧
    refs t2 (slot t2 i) = 2 ^ (GetGlobalDepth t2 - GetLocalDepth t2 i).
Proof.
  intros H1 H2. apply run_new_WF in H1 as [Hwf1 Hc].
  destruct (run_spec fuel cs2 t1 t2 (Find hash t1) Hwf1 (λ _, eq_refl) H2)
    as (Hwf2 & _ & _ & Hgd).
  split; [done|]. split; [by apply (wf_len _ _ Hwf2)|].
  intros i Hi. split; [by apply (wf_depth _ _ Hwf2)|by apply refs_count].
Qed.


(** *** The directory of a reached table *)

Lemma WF_splits n (t : Table) key :
  WF hash t → WF hash (Nat.iter n (λ t0, split hash t0 key) t).
Proof. intros Hwf. induction n as [|n IH]; simpl; [done|by apply WF_split]. Qed.

(** X1.  Indexing stays inside the directory and the bucket pointers are
    never dangling: in every table reached by a run of calls, and after
    any number of turns of the loop of [Insert] from there, [IndexOf(key)]
    is below [dir_.size()] and every slot points to a bucket. *)
Theorem directory_access_in_bounds bucket_size fuel cs (t : Table) key n :
  run hash fuel (new_table bucket_size) cs = Some t →
  let t' := Nat.iter n (λ t0, split hash t0 key) t in
  IndexOf hash t' key < length (dir_ t') ∧
  ∀ i, i < length (dir_ t') →
       ∃ p b, dir_ t' !! i = Some p ∧ heap_ t' !! p = Some b.
Proof.
  intros Hrun t'. apply run_new_WF in Hrun as [Hwf _].
  assert (Hwf' : WF hash t') by by apply WF_splits.
  split; [by apply IndexOf_in|].
  intros i Hi. exists (slot t' i).
  destruct (lookup_lt_is_Some_2 (heap_ t') (slot t' i)) as [b Hb];
    [by apply (wf_ptr _ _ Hwf')|].
  exists b. split; [by apply slot_lookup|done].
Qed.

(** *** Counting the buckets *)

Lemma length_remove_dups_size (l : list nat) :
  length (remove_dups l) = size (list_to_set l : gset nat).
Proof.
  rewrite <- (size_list_to_set (C := gset nat) (remove_dups l))
    by apply NoDup_remove_dups.
  f_equal. apply set_eq. intros x.
  by rewrite !elem_of_list_to_set, elem_of_remove_dups.
Qed.

Lemma testbit_small (g : nat) x n :
  (0 ≤ x < 2 ^ Z.of_nat g)%Z → (Z.of_nat g ≤ n)%Z → Z.testbit x n = false.
Proof.
  intros Hx Hn. rewrite <- (Z.mod_small x (2 ^ Z.of_nat g)) by done.
  apply Z.mod_pow2_bits_high. lia.
Qed.

(** The slot whose index differs from [i] in bit [d] only. *)
Lemma flip_bit (i d g : nat) :
  i < 2 ^ g → d < g →
  ∃ j, j < 2 ^ g ∧ agree d (Z.of_nat j) (Z.of_nat i) ∧
       Z.testbit (Z.of_nat j) (Z.of_nat d) = negb (Z.testbit (Z.of_nat i) (Z.of_nat d)).
Proof.
  intros Hi Hd.
  set (x := Z.lxor (Z.of_nat i) (2 ^ Z.of_nat d)).
  assert (Hi' : (0 ≤ Z.of_nat i < 2 ^ Z.of_nat g)%Z).
  { rewrite <- pow_nat_Z. lia. }
  assert (H0 : (0 ≤ x)%Z).
  { apply Z.lxor_nonneg. split; intros _; [apply Z.pow_nonneg|]; lia. }
  assert (Hbits : ∀ n, (0 ≤ n)%Z →
            Z.testbit x n = xorb (Z.testbit (Z.of_nat i) n) (Z.of_nat d =? n)%Z).
  { intros n Hn. unfold x. rewrite Z.lxor_spec, Z.pow2_bits_eqb by lia. done. }
  assert (Hx : (x < 2 ^ Z.of_nat g)%Z).
  { assert (E : x = (x mod 2 ^ Z.of_nat g)%Z).
    { apply Z.bits_inj'. intros n Hn.
      destruct (Z.lt_ge_cases n (Z.of_nat g)) as [Hlt|Hge].
      - by rewrite Z.mod_pow2_bits_low.
      - rewrite Z.mod_pow2_bits_high by lia. rewrite Hbits by done.
        rewrite (testbit_small g) by done.
        destruct (Z.eqb_spec (Z.of_nat d) n); [lia|done]. }
    rewrite E. apply Z.mod_pos_bound. apply Z.pow_pos_nonneg; lia. }
  exists (Z.to_nat x). rewrite Z2Nat.id by done. split; [|split].
  - apply Nat2Z.inj_lt. rewrite Z2Nat.id, pow_nat_Z by done. done.
  - intros n Hn. rewrite Hbits by lia.
    destruct (Z.eqb_spec (Z.of_nat d) (Z.of_nat n)); [lia|].
    by destruct (Z.testbit _ _).
  - rewrite Hbits by lia. rewrite Z.eqb_refl.
    by destruct (Z.testbit _ _).
Qed.

Lemma grow_buckets (t : Table) b :
  (list_to_set (dir_ (grow t b)) : gset nat) = list_to_set (dir_ t) ∧
  num_buckets_ (grow t b) = num_buckets_ t.
Proof.
  unfold grow. destruct (depth_ b =? global_depth_ t); simpl; [|done].
  split; [|done]. by rewrite list_to_set_app_L, (idemp_L (∪)).
Qed.

Lemma divide_buckets (t : Table) i0 :
  WF hash t → i0 < length (dir_ t) →
  depth_ (bucket_at t i0) < global_depth_ t →
  let t' := divide hash t (slot t i0) (bucket_at t i0) in
  size (list_to_set (dir_ t') : gset nat)
    = S (size (list_to_set (dir_ t) : gset nat)) ∧
  num_buckets_ t' = S (num_buckets_ t).
Proof.
  intros Hwf Hi0 Hd t'. unfold t'.
  rewrite divide_eq by by apply bucket_length_le.
  simpl. split; [|done].
  set (b := bucket_at t i0) in *. set (p := slot t i0).
  set (h := length (heap_ t)). set (D := (list_to_set (dir_ t) : gset nat)).
  assert (HD : ∀ x, x ∈ D → x < h).
  { intros x Hx. apply elem_of_list_to_set, list_elem_of_lookup in Hx as [j Hj].
    pose proof (lookup_lt_Some _ _ _ Hj) as Hlt.
    rewrite slot_lookup in Hj by done. injection Hj as <-.
    by apply (wf_ptr _ _ Hwf). }
  assert (Hp : p ∈ D).
  { apply elem_of_list_to_set, list_elem_of_lookup. exists i0.
    by apply slot_lookup. }
  assert (Hhalf : ∀ v : bool, ∃ j, j < length (dir_ t) ∧ slot t j = p ∧
                    bit_set (Z.of_nat j) (depth_ b) = v).
  { intros v.
    destruct (decide (bit_set (Z.of_nat i0) (depth_ b) = v)) as [E|E];
      [by exists i0|].
    destruct (flip_bit i0 (depth_ b) (global_depth_ t)) as (j & Hj & Ha & Hb);
      [by rewrite <- (wf_len _ _ Hwf)|done|].
    exists j. rewrite (wf_len _ _ Hwf). split; [done|]. split.
    - apply (wf_share _ _ Hwf); [done|by rewrite (wf_len _ _ Hwf)|done].
    - rewrite bit_set_testbit in *. rewrite Hb.
      destruct (Z.testbit _ _), v; done. }
  assert (E : (list_to_set
            (imap (λ i q, if decide (q = p)
                          then if bit_set (Z.of_nat i) (depth_ b) then h else S h
                          else q) (dir_ t)) : gset nat)
          = {[h]} ∪ ({[S h]} ∪ D ∖ {[p]})).
  { apply set_eq. intros x. rewrite elem_of_list_to_set, elem_of_lookup_imap.
    rewrite !elem_of_union, elem_of_difference, !elem_of_singleton. split.
    - intros (j & q & -> & Hj).
      destruct (decide (q = p)) as [->|Hq].
      + destruct (bit_set _ _); auto.
      + right. right. split; [|done].
        apply elem_of_list_to_set. by eapply list_elem_of_lookup_2.
    - intros [->|[->|[Hx Hne]]].
      + destruct (Hhalf true) as (j & Hj & Hs & Hb).
        exists j, p. rewrite decide_True, Hb by done. split; [done|].
        rewrite <- Hs. by apply slot_lookup.
      + destruct (Hhalf false) as (j & Hj & Hs & Hb).
        exists j, p. rewrite decide_True, Hb by done. split; [done|].
        rewrite <- Hs. by apply slot_lookup.
      + apply elem_of_list_to_set, list_elem_of_lookup in Hx as [j Hj].
        exists j, x. by rewrite decide_False. }
  rewrite E.
  rewrite size_union, size_singleton.
  2:{ intros x Hx. rewrite elem_of_singleton in Hx. subst x.
      rewrite elem_of_union, elem_of_difference, elem_of_singleton.
      intros [?|[Hh _]]; [lia|]. apply HD in Hh. lia. }
  rewrite size_union, size_singleton.
  2:{ intros x Hx. rewrite elem_of_singleton in Hx. subst x.
      rewrite elem_of_difference. intros [Hh _]. apply HD in Hh. lia. }
  rewrite size_difference, size_singleton by by apply singleton_subseteq_l.
  assert (size D ≠ 0); [|lia].
  intros H0. apply size_empty_inv in H0.
  destruct (H0 p) as [Hc _]. by apply Hc, not_elem_of_empty in Hp.
Qed.

Lemma split_buckets (t : Table) key :
  WF hash t →
  size (list_to_set (dir_ (split hash t key)) : gset nat)
    = S (size (list_to_set (dir_ t) : gset nat)) ∧
  num_buckets_ (split hash t key) = S (num_buckets_ t).
Proof.
  intros Hwf. rewrite split_eq.
  set (i0 := IndexOf hash t key). set (b := bucket_at t i0).
  assert (Hi0 : i0 < length (dir_ t)) by by apply IndexOf_in.
  destruct (grow_index t b i0 Hwf Hi0) as (Hi1 & Hs1 & Hb1).
  pose proof (divide_buckets (grow t b) i0 (WF_grow t b Hwf) Hi1) as Hd.
  rewrite Hs1, Hb1 in Hd. fold b in Hd.
  destruct (grow_buckets t b) as [Hg1 Hg2]. rewrite Hg1, Hg2 in Hd.
  apply Hd.
  destruct (grow_depth t b) as [?|[? ->]]; [|done|done].
  by apply (wf_depth _ _ Hwf).
Qed.

Lemma Insert_loop_buckets fuel : ∀ (t t' : Table) key,
  WF hash t → Insert_loop hash fuel t key = Some t' →
  num_buckets_ t = size (list_to_set (dir_ t) : gset nat) →
  num_buckets_ t' = size (list_to_set (dir_ t') : gset nat).
Proof.
  induction fuel as [|fuel IH]; intros t t' key Hwf; simpl;
    destruct (IsFull _); try done; try (by intros [= <-]).
  intros Hl Hc. apply (IH _ _ _ (WF_split t key Hwf) Hl).
  destruct (split_buckets t key Hwf) as [-> ->]. by rewrite Hc.
Qed.

Lemma Remove_num_buckets (t : Table) key :
  num_buckets_ (Remove hash t key).1 = num_buckets_ t.
Proof.
  unfold Remove. destruct (list_ _); [done|].
  by destruct (Bucket_Remove _ _).
Qed.

Lemma exec_buckets fuel (t t' : Table) c :
  WF hash t → exec hash fuel t c = Some t' →
  num_buckets_ t = size (list_to_set (dir_ t) : gset nat) →
  num_buckets_ t' = size (list_to_set (dir_ t') : gset nat).
Proof.
  intros Hwf He Hc. destruct c as [key value|key|key]; simpl in He.
  - unfold Insert in He.
    destruct (Insert_loop hash fuel t key) as [t1|] eqn:El; [|done].
    simpl in He. pose proof (Insert_loop_buckets _ _ _ _ Hwf El Hc) as H1.
    destruct (overwrite _ _ _); injection He as <-; done.
  - injection He as <-. rewrite Remove_num_buckets.
    destruct (Remove_spec t key Hwf) as (_ & _ & _ & _ & _ & ->). done.
  - by injection He as <-.
Qed.

Lemma run_buckets fuel cs : ∀ t t' : Table,
  WF hash t → run hash fuel t cs = Some t' →
  num_buckets_ t = size (list_to_set (dir_ t) : gset nat) →
  num_buckets_ t' = size (list_to_set (dir_ t') : gset nat).
Proof.
  induction cs as [|c cs IH]; intros t t' Hwf; simpl.
  - by intros [= <-].
  - destruct (exec hash fuel t c) as [t1|] eqn:He; [|done]. simpl.
    intros Hr Hc. apply (IH t1 t'); [|done|by eapply exec_buckets].
    by destruct (exec_spec fuel t t1 c Hwf He).
Qed.

(** X2.  [GetNumBuckets] counts the buckets in use: in every table
    reached by a run of calls, [num_buckets_] is the number of distinct
    buckets that the directory points to. *)
Theorem GetNumBuckets_counts bucket_size fuel cs (t : Table) :
  run hash fuel (new_table bucket_size) cs = Some t →
  GetNumBuckets t = length (remove_dups (dir_ t)).
Proof.
  intros Hrun. unfold GetNumBuckets. rewrite length_remove_dups_size.
  apply (run_buckets fuel cs (new_table bucket_size)); [apply WF_new_table|done|].
  unfold new_table. cbn [dir_ num_buckets_].
  by rewrite list_to_set_cons, list_to_set_nil, union_empty_r_L, size_singleton.
Qed.

(** *** The pairs that a reached table stores *)

Lemma entries_Find (t : Table) k v :
  WF hash t → (k, v) ∈ entries t ↔ Find hash t k = Some v.
Proof.
  intros Hwf. split; [|by apply Find_entries].
  intros Hin. apply entries_spec in Hin as (i & Hi & Hin).
  apply (elem_Find t i (k, v) Hwf Hi Hin).
Qed.

Lemma run_bucket_size fuel bucket_size cs (t : Table) :
  run hash fuel (new_table bucket_size) cs = Some t → bucket_size_ t = bucket_size.
Proof.
  intros Hrun.
  by destruct (run_spec fuel cs _ _ (λ _, None) (WF_new_table bucket_size)
                 (Find_new_table bucket_size) Hrun) as (_ & _ & -> & _).
Qed.

(** X3.  No bucket overflows: in every table reached by a run of calls,
    each bucket that the directory points to holds at most [bucket_size]
    pairs, no key twice, and each of its keys is addressed to it by
    [IndexOf]. *)
Theorem buckets_within_capacity bucket_size fuel cs (t : Table) i :
  run hash fuel (new_table bucket_size) cs = Some t → i < length (dir_ t) →
  length (list_ (bucket_at t i)) ≤ bucket_size ∧
  NoDup (list_ (bucket_at t i)).*1 ∧
  ∀ kv, kv ∈ list_ (bucket_at t i) → slot t (IndexOf hash t kv.1) = slot t i.
Proof.
  intros Hrun Hi. pose proof (run_bucket_size _ _ _ _ Hrun) as Hbs.
  apply run_new_WF in Hrun as [Hwf _]. split; [|split].
  - rewrite <- Hbs. by apply bucket_length_le.
  - by apply (wf_nodup _ _ Hwf).
  - intros kv Hin. by apply elem_slot.
Qed.

(** X4.  The pairs stored in the buckets of a reached table are exactly
    the association that the run of calls describes: a pair is stored if
    and only if its value is the last one inserted under its key and the
    key was not removed afterwards, and no key is stored twice across the
    whole directory. *)
Theorem entries_are_content bucket_size fuel cs (t : Table) :
  run hash fuel (new_table bucket_size) cs = Some t →
  NoDup (entries t).*1 ∧
  ∀ k v, (k, v) ∈ entries t ↔ content cs k = Some v.
Proof.
  intros Hrun. apply run_new_WF in Hrun as [Hwf Hc].
  split; [by apply entries_NoDup|].
  intros k v. rewrite <- Hc. by apply entries_Find.
Qed.

(** X5.  A turn of the loop of [Insert] loses nothing: although the
    results of [Bucket::Insert] are not looked at while the items of the
    full bucket are redistributed, the table stores the same pairs after
    the split as before it. *)
Theorem split_keeps_entries bucket_size fuel cs (t : Table) key :
  run hash fuel (new_table bucket_size) cs = Some t →
  entries (split hash t key) ≡ₚ entries t.
Proof.
  intros Hrun. apply run_new_WF in Hrun as [Hwf _].
  pose proof (WF_split t key Hwf) as Hwf'.
  apply NoDup_Permutation.
  - eapply NoDup_fmap_1. by apply entries_NoDup.
  - eapply NoDup_fmap_1. by apply entries_NoDup.
  - intros [k v]. rewrite !entries_Find by done. by rewrite Find_split.
Qed.

(** *** When the loop of [Insert] does not end *)

Lemma filter_all {A} (P : A → Prop) `{∀ x, Decision (P x)} (l : list A) :
  (∀ x, x ∈ l → P x) → filter P l = l.
Proof.
  induction l as [|x l IH]; intros HP; [done|].
  rewrite filter_cons, decide_True by (apply HP; left).
  f_equal. apply IH. intros y Hy. apply HP. by right.
Qed.

Lemma holds_bucket_size_full (t : Table) i :
  WF hash t → i < length (dir_ t) →
  length (list_ (bucket_at t i)) = bucket_size_ t →
  IsFull (bucket_at t i) = true.
Proof.
  intros Hwf Hi Hlen. unfold IsFull. apply Nat.eqb_eq.
  pose proof (wf_room _ _ Hwf i Hi). pose proof (wf_size _ _ Hwf i Hi). lia.
Qed.

Lemma Insert_loop_same_hash fuel : ∀ (t : Table) key,
  WF hash t →
  length (list_ (bucket_at t (IndexOf hash t key))) = bucket_size_ t →
  (∀ kv, kv ∈ list_ (bucket_at t (IndexOf hash t key)) → hash kv.1 = hash key) →
  Insert_loop hash fuel t key = None.
Proof.
  induction fuel as [|fuel IH]; intros t key Hwf Hlen Hsame; simpl;
    rewrite holds_bucket_size_full by (try done; by apply IndexOf_in); [done|].
  assert (E : bucket_at (split hash t key) (IndexOf hash (split hash t key) key)
              = mkBucket (bucket_size_ t)
                  (S (depth_ (bucket_at t (IndexOf hash t key))))
                  (list_ (bucket_at t (IndexOf hash t key)))).
  { rewrite split_target by done. f_equal.
    destruct (Z.testbit (hash key) _) eqn:Eb; unfold upper, lower;
      apply filter_all; intros kv Hin; cbn beta;
      rewrite bit_set_testbit, (Hsame kv Hin), Eb; done. }
  apply IH; [by apply WF_split|rewrite E|rewrite E]; simpl.
  - by rewrite split_bucket_size.
  - done.
Qed.

(** X6.  Splitting cannot relieve a bucket whose items all hash like the
    new key: when, in a reached table, the bucket that [key] addresses
    holds [bucket_size_] pairs and the hash of each of them is the hash of
    [key], the loop of [Insert(key, value)] has not ended after any number
    of turns.  This is the case of every key with buckets of capacity 0,
    and of a key that is already stored with buckets of capacity 1. *)
Theorem Insert_same_hash_never_returns bucket_size fuel0 cs (t : Table)
    key value fuel :
  run hash fuel0 (new_table bucket_size) cs = Some t →
  length (list_ (bucket_at t (IndexOf hash t key))) = bucket_size_ t →
  (∀ kv, kv ∈ list_ (bucket_at t (IndexOf hash t key)) → hash kv.1 = hash key) →
  Insert hash fuel t key value = None.
Proof.
  intros Hrun Hlen Hsame. apply run_new_WF in Hrun as [Hwf _].
  unfold Insert. by rewrite Insert_loop_same_hash.
Qed.

(** *** [Remove] *)

(** X7.  [Remove] never merges buckets or shrinks the directory: on a
    reached table it leaves the global depth, the number of buckets, the
    directory and every local depth as they are; and a second [Remove] of
    the same key returns false and changes nothing. *)
Theorem Remove_keeps_structure bucket_size fuel cs (t : Table) key :
  run hash fuel (new_table bucket_size) cs = Some t →
  let t' := (Remove hash t key).1 in
  GetGlobalDepth t' = GetGlobalDepth t ∧
  GetNumBuckets t' = GetNumBuckets t ∧
  dir_ t' = dir_ t ∧
  (∀ i, i < length (dir_ t) → GetLocalDepth t' i = GetLocalDepth t i) ∧
  Remove hash t' key = (t', false).
Proof.
  intros Hrun t'. apply run_new_WF in Hrun as [Hwf _].
  destruct (Remove_spec t key Hwf) as (Hwf' & Hfind & _ & _ & Hgd & Hdir).
  fold t' in Hwf', Hfind, Hgd, Hdir.
  split; [done|]. split; [apply Remove_num_buckets|]. split; [done|]. split.
  - intros i Hi. unfold GetLocalDepth, t', Remove.
    set (i0 := IndexOf hash t key).
    assert (Hi0 : i0 < length (dir_ t)) by by apply IndexOf_in.
    change (deref t (slot t i0)) with (bucket_at t i0).
    set (b := bucket_at t i0) in *.
    destruct (list_ b) eqn:El; [done|]. clear El.
    unfold Bucket_Remove. destruct (first_with key (list_ b)); simpl;
      rewrite bucket_at_set by done;
      (destruct (decide (slot t i = slot t i0)) as [E|E]; [|done]);
      simpl; unfold b, bucket_at; by rewrite E.
  - apply Remove_absent.
    destruct (Find hash t key) as [v|] eqn:Ef.
    + apply Hfind. by apply (Remove_present t key v).
    + unfold t'. by rewrite (Remove_absent t key Ef).
Qed.

(** *** The first [Insert] *)

(** X8.  The constructor builds its one bucket with capacity 0, so the
    bucket counts as full: the first [Insert] into a new table with
    [bucket_size > 0] always splits once, whatever the key, and leaves a
    table of global depth 1 with two buckets of capacity [bucket_size],
    one of which holds the pair. *)
Theorem first_Insert_splits bucket_size fuel key value :
  0 < bucket_size →
  ∃ t : Table, Insert hash (S fuel) (new_table bucket_size) key value = Some t ∧
       GetGlobalDepth t = 1 ∧ GetNumBuckets t = 2 ∧ dir_ t = [2; 1] ∧
       (∀ i, i < 2 → size_ (bucket_at t i) = bucket_size ∧ GetLocalDepth t i = 1) ∧
       entries t = [(key, value)].
Proof.
  intros Hbs. destruct bucket_size as [|bs]; [lia|]. clear Hbs.
  unfold Insert. cbn [Insert_loop].
  assert (E0 : IndexOf hash (new_table (S bs) : Table) key = 0).
  { unfold IndexOf. simpl. by rewrite Z.land_0_r. }
  rewrite E0. cbn [new_table bucket_at slot deref dir_ heap_ lookup].
  simpl (IsFull _).
  set (t1 := split hash (new_table (S bs)) key).
  assert (E1 : t1 = mkTable 1 (S bs) 2 [2; 1]
                      [mkBucket 0 0 []; mkBucket (S bs) 1 [];
                       mkBucket (S bs) 1 []]).
  { unfold t1, split. rewrite E0. reflexivity. }
  rewrite E1. clear t1 E1.
  set (t1 := mkTable 1 (S bs) 2 [2; 1] _).
  assert (Hi : IndexOf hash t1 key = 0 ∨ IndexOf hash t1 key = 1).
  { pose proof (IndexOf_lt t1 key) as Hlt. simpl in Hlt. lia. }
  destruct Hi as [Ei|Ei];
    (rewrite (Insert_loop_not_full fuel t1 key) by (by rewrite Ei));
    change (IsFull (bucket_at (new_table (S bs) : Table) 0)) with true;
    cbn [mbind option_bind]; rewrite Ei; simpl;
    (eexists; split; [reflexivity|]); simpl;
    (split; [done|]); (split; [done|]); (split; [done|]); split;
    try (intros [|[|i]] Hi; [done|done|lia]); reflexivity.
Qed.

(** *** The shape of the directory *)

(** X21.  The directory is laid out by the low-order bits of the slot
    index: in every table reached by a run of calls, two slots hold the
    same bucket exactly when their indices agree modulo [2 ^ d], [d] being
    the local depth of the bucket, and the hash of every key stored in the
    bucket of slot [i] agrees with [i] modulo [2 ^ d]. *)
Theorem slots_share_bucket_iff bucket_size fuel cs (t : Table) i j :
  run hash fuel (new_table bucket_size) cs = Some t →
  i < length (dir_ t) → j < length (dir_ t) →
  (slot t j = slot t i ↔
   j mod 2 ^ GetLocalDepth t i = i mod 2 ^ GetLocalDepth t i) ∧
  ∀ kv, kv ∈ list_ (bucket_at t i) →
        (hash kv.1 mod 2 ^ Z.of_nat (GetLocalDepth t i))%Z
        = Z.of_nat (i mod 2 ^ GetLocalDepth t i).
Proof.
  intros Hrun Hi Hj. apply run_new_WF in Hrun as [Hwf _].
  unfold GetLocalDepth. set (d := depth_ (bucket_at t i)).
  split.
  - rewrite <- agree_residue. by apply (wf_share _ _ Hwf).
  - intros kv Hin. pose proof (wf_items _ _ Hwf i kv Hi Hin) as Ha. fold d in Ha.
    rewrite Nat2Z.inj_mod, pow_nat_Z.
    apply (agree_eq d).
    + apply Z.mod_pos_bound. apply Z.pow_pos_nonneg; lia.
    + apply Z.mod_pos_bound. apply Z.pow_pos_nonneg; lia.
    + eapply agree_trans; [by apply agree_mod|].
      eapply agree_trans; [exact Ha|]. apply agree_sym. by apply agree_mod.
Qed.

(** *** [Insert] of a key that has an entry *)





End EHT_Theory.



(** * Properties of the eviction tracker *)

Section LRUK_Theory.

Import LRUK.

Lemma victim_None r : victim r = None → candidates r = [].
Proof.
  unfold victim. destruct (candidates r) as [|c l]; [done|]. simpl.
  unfold pick. destruct (foldr _ _ l); [by destruct (prefer _ _ _)|done].
Qed.

Lemma victim_Some r c : victim r = Some c → c ∈ candidates r.
Proof.
  unfold victim. induction (candidates r) as [|x l IH]; simpl; [done|].
  unfold pick at 1. destruct (foldr (pick r) None l) as [b|].
  - destruct (prefer r x.2 b.2); intros [= <-];
      [apply list_elem_of_here|apply list_elem_of_further; auto].
  - intros [= <-]. apply list_elem_of_here.
Qed.

Lemma candidates_spec r f rec :
  (f, rec) ∈ candidates r ↔ records_ r !! f = Some rec ∧ evictable rec = true.
Proof.
  unfold candidates. rewrite list_elem_of_filter, elem_of_map_to_list. simpl. tauto.
Qed.

Lemma Evict_Some r r' f :
  Evict r = (r', Some f) → is_evictable r f = true ∧ r' = Remove r f.
Proof.
  unfold Evict. destruct (victim r) as [[f0 rec]|] eqn:E; [|done].
  intros [= <- <-]. apply victim_Some, candidates_spec in E as [E1 E2].
  unfold is_evictable. by rewrite E1.
Qed.

Lemma Evict_None r r' :
  Evict r = (r', None) → r' = r ∧ ∀ f, is_evictable r f = false.
Proof.
  unfold Evict. destruct (victim r) as [[f0 rec]|] eqn:E; [done|].
  intros [= <-]. split; [done|]. intros f. apply victim_None in E.
  unfold is_evictable. destruct (records_ r !! f) as [rec|] eqn:Ef; [|done].
  destruct (evictable rec) eqn:Ee; [|done].
  assert (H : (f, rec) ∈ candidates r) by by apply candidates_spec.
  rewrite E in H. by apply elem_of_nil in H.
Qed.

Lemma is_evictable_Remove r f f' :
  is_evictable (Remove r f) f' = if decide (f' = f) then false else is_evictable r f'.
Proof.
  unfold is_evictable, Remove. simpl. destruct (decide (f' = f)) as [->|Hne].
  - by rewrite lookup_delete_eq.
  - by rewrite lookup_delete_ne.
Qed.

Lemma is_evictable_SetEvictable r f e f' :
  is_evictable (SetEvictable r f e) f' =
    if decide (f' = f) then
      match records_ r !! f with Some _ => e | None => false end
    else is_evictable r f'.
Proof.
  unfold is_evictable, SetEvictable. simpl. destruct (decide (f' = f)) as [->|Hne].
  - rewrite lookup_alter_eq. by destruct (records_ r !! f).
  - by rewrite lookup_alter_ne.
Qed.

Lemma is_evictable_RecordAccess r f f' :
  is_evictable (RecordAccess r f) f' = is_evictable r f'.
Proof.
  unfold is_evictable, RecordAccess. simpl. destruct (decide (f' = f)) as [->|Hne].
  - rewrite lookup_insert_eq. simpl. by destruct (records_ r !! f).
  - by rewrite lookup_insert_ne.
Qed.

Lemma records_touch r f f' :
  is_Some (records_ (SetEvictable (RecordAccess r f) f false) !! f') ↔
  f' = f ∨ is_Some (records_ r !! f').
Proof.
  unfold SetEvictable, RecordAccess. simpl. destruct (decide (f' = f)) as [->|Hne].
  - rewrite lookup_alter_eq, lookup_insert_eq. simpl. split; [by left|by eexists].
  - rewrite lookup_alter_ne, lookup_insert_ne by done. split; [by right|].
    intros [?|?]; done.
Qed.

Lemma is_evictable_touch r f f' :
  is_evictable (SetEvictable (RecordAccess r f) f false) f' =
    if decide (f' = f) then false else is_evictable r f'.
Proof.
  rewrite is_evictable_SetEvictable. destruct (decide (f' = f)) as [->|Hne].
  - by destruct (records_ (RecordAccess r f) !! f).
  - apply is_evictable_RecordAccess.
Qed.

End LRUK_Theory.

(** * Properties of the buffer pool manager *)

Section BPM_Theory.

Context {Data : Type}.
Variable zeroed : Data.
Variable on_disk : Z → Data.
Variable hash : Z → Z.

Import BPM.

Abbreviation Pool := (@BufferPoolManagerInstance Data).
Abbreviation Inv := (@BPM.Inv Data hash).
Abbreviation Acquired := (@BPM.Acquired Data hash).
Abbreviation mapped := (@BPM.mapped Data hash).
Abbreviation acquire := (@BPM.acquire Data zeroed hash).

(** Reading and writing frames. *)

Lemma page_at_Some (pages : list (@Page Data)) f pg :
  page_at pages f = Some pg →
  (0 ≤ f)%Z ∧ pages !! Z.to_nat f = Some pg ∧ Z.to_nat f < length pages.
Proof.
  unfold page_at. destruct (decide (0 ≤ f)%Z); [|done].
  intros H. split; [done|]. split; [done|]. by apply lookup_lt_Some in H.
Qed.

Lemma page_at_set_eq (pages : list (@Page Data)) f pg pg' :
  page_at pages f = Some pg → page_at (set_page pages f pg') f = Some pg'.
Proof.
  intros (H0 & _ & Hlt)%page_at_Some. unfold page_at, set_page.
  rewrite decide_True by done. by apply list_lookup_insert_eq.
Qed.

Lemma page_at_set_ne (pages : list (@Page Data)) f f' pg' :
  (0 ≤ f)%Z → f' ≠ f →
  page_at (set_page pages f pg') f' = page_at pages f'.
Proof.
  intros H0 Hne. unfold page_at, set_page.
  destruct (decide (0 ≤ f')%Z); [|done].
  apply list_lookup_insert_ne. lia.
Qed.

Lemma page_at_set (pages : list (@Page Data)) f f' pg pg' :
  page_at pages f = Some pg →
  page_at (set_page pages f pg') f' =
    if decide (f' = f) then Some pg' else page_at pages f'.
Proof.
  intros H. destruct (decide (f' = f)) as [->|Hne].
  - by apply (page_at_set_eq _ _ pg).
  - apply page_at_set_ne; [|done]. by apply page_at_Some in H as [? _].
Qed.

Lemma all_pinned_false (s : Pool) :
  all_pinned s = false →
  ∃ f pg, page_at (pages_ s) f = Some pg ∧ (pin_count_ pg ≤ 0)%Z.
Proof.
  unfold all_pinned. intros H.
  assert (Hex : ∃ i pg, pages_ s !! i = Some pg ∧ (pin_count_ pg ≤ 0)%Z).
  { induction (pages_ s) as [|pg l IH]; simpl in H; [done|].
    apply andb_false_iff in H as [H|H].
    - exists 0, pg. split; [done|]. apply negb_false_iff in H. lia.
    - destruct (IH H) as (i & pg' & ? & ?). by exists (S i), pg'. }
  destruct Hex as (i & pg & Hi & Hp). exists (Z.of_nat i), pg. split; [|done].
  unfold page_at. rewrite decide_True by lia. by rewrite Nat2Z.id.
Qed.

Lemma all_pinned_true (s : Pool) f pg :
  all_pinned s = true → page_at (pages_ s) f = Some pg → (0 < pin_count_ pg)%Z.
Proof.
  unfold all_pinned. intros H (_ & Hl & _)%page_at_Some.
  rewrite forallb_forall in H. apply list_elem_of_lookup_2, list_elem_of_In in Hl.
  specialize (H _ Hl). apply negb_true_iff in H. lia.
Qed.

Lemma Find_Remove (t : @EHT.ExtendibleHashTable Z Z) key k :
  EHT.WF hash t →
  EHT.Find hash (EHT.Remove hash t key).1 k =
    if decide (k = key) then None else EHT.Find hash t k.
Proof.
  intros Hwf. destruct (Remove_spec hash t key Hwf) as (_ & H2 & H3 & _).
  destruct (decide (k = key)) as [->|Hne]; [|by apply H3].
  destruct (EHT.Find hash t key) as [v|] eqn:E.
  - apply H2. by apply (Remove_present hash t key v).
  - by rewrite Remove_absent.
Qed.

(** *** Acquiring a frame *)

Lemma acquire_cases u (s : Pool) :
  Inv s → all_pinned s = false →
  (∃ f rest, free_list_ s = f :: rest ∧
     acquire u s =
       Some (mkBPM (pages_ s) (page_table_ s) (replacer_ s) rest
                   (next_page_id_ s) (disk_manager_ s), Some f)) ∨
  (∃ f pg, free_list_ s = [] ∧ LRUK.is_evictable (replacer_ s) f = true ∧
     page_at (pages_ s) f = Some pg ∧
     acquire u s =
       Some (mkBPM (set_page (pages_ s) f
                      (mkPage (page_id_ pg) (pin_count_ pg) false zeroed))
                   (EHT.Remove hash (page_table_ s) (page_id_ pg)).1
                   (LRUK.Remove (replacer_ s) f) [] (next_page_id_ s)
                   (if is_dirty_ pg
                    then WritePage (disk_manager_ s) (page_id_ pg) (data_ pg)
                    else disk_manager_ s), Some f)).
Proof.
  intros HI Hpin. unfold BPM.acquire.
  destruct (free_list_ s) as [|f rest] eqn:Efree; [right|left; by exists f, rest].
  destruct (LRUK.Evict (replacer_ s)) as [r1 [f|]] eqn:Ev.
  - apply Evict_Some in Ev as [Hev ->].
    assert (Hrec : is_Some (LRUK.records_ (replacer_ s) !! f)).
    { unfold LRUK.is_evictable in Hev. by destruct (LRUK.records_ (replacer_ s) !! f). }
    destruct (inv_rep _ _ HI f Hrec) as [pg Hpg].
    exists f, pg. simpl. rewrite Hpg. simpl. done.
  - apply Evict_None in Ev as [-> Hnone].
    destruct (all_pinned_false s Hpin) as (f & pg & Hpg & Hle).
    destruct (inv_avail _ _ HI f pg Hpg Hle) as [Hin|Hev].
    + rewrite Efree in Hin. by apply elem_of_nil in Hin.
    + by rewrite Hnone in Hev.
Qed.

Lemma acquire_spec u (s : Pool) :
  Inv s → all_pinned s = false →
  ∃ s1 f, acquire u s = Some (s1, Some f) ∧ Acquired s1 f ∧
          next_page_id_ s1 = next_page_id_ s ∧
          (∀ p f', mapped s1 p f' → mapped s p f').
Proof.
  intros HI Hpin.
  destruct (acquire_cases u s HI Hpin)
    as [(f & rest & Efree & ->)|(f & pg & Efree & Hev & Hpg & ->)];
    eexists _, f; (split; [done|]).
  - split; [|done].
    pose proof HI as [Iwf Imap Ipin Ind Ifree Irec Irep Iav].
    rewrite Efree in *. apply NoDup_cons in Ind as [Hf Hnd].
    assert (Hff : f ∈ f :: rest) by apply list_elem_of_here.
    constructor; simpl; try done.
    + intros p f' Hm. split; [|by apply Imap].
      intros ->. by apply (proj2 (Ifree f Hff)) in Hm.
    + intros f' Hin. 
      destruct (Ifree f' (list_elem_of_further _ _ _ Hin)) as [H1 H2].
      split; [|done]. intros ->. done.
    + intros f' Hs Hne. destruct (Irec f' Hs) as [Hin|?]; [|by right].
      left. apply elem_of_cons in Hin as [?|?]; done.
    + intros f' pg Hne Hpg Hle. destruct (Iav f' pg Hpg Hle) as [Hin|?]; [|by right].
      left. apply elem_of_cons in Hin as [?|?]; done.
    + by apply (Ifree f Hff).
  - pose proof HI as [Iwf Imap Ipin Ind Ifree Irec Irep Iav].
    rewrite Efree in *.
    assert (Hmap1 : ∀ p f',
      EHT.Find hash (EHT.Remove hash (page_table_ s) (page_id_ pg)).1 p = Some f' →
      p ≠ page_id_ pg ∧ mapped s p f').
    { intros p f'. rewrite Find_Remove by done. by destruct (decide _). }
    split; [|split; [done|intros p f' Hm; by apply Hmap1]].
    constructor; unfold BPM.mapped; simpl.
    + by apply Remove_spec.
    + intros p f' [Hp Hm]%Hmap1. destruct (Imap p f' Hm) as (pg' & Hpg' & Hid).
      assert (f' ≠ f) by (intros ->; congruence).
      split; [done|]. exists pg'. split; [|done].
      rewrite (page_at_set _ _ _ pg) by done. by rewrite decide_False.
    + intros f' pg'. rewrite (page_at_set _ _ _ pg) by done.
      destruct (decide (f' = f)); [intros [= <-]; simpl|]; eauto.
    + apply NoDup_nil_2.
    + intros f' Hin. by apply elem_of_nil in Hin.
    + intros f'. rewrite (page_at_set _ _ _ pg) by done. intros Hs Hne.
      rewrite decide_False in Hs by done. right.
      destruct (Irec f' Hs) as [Hin|?]; [by apply elem_of_nil in Hin|].
      by rewrite lookup_delete_ne.
    + intros f' [rec Hs]. rewrite (page_at_set _ _ _ pg) by done.
      destruct (decide (f' = f)); [done|]. apply Irep.
      rewrite lookup_delete_ne in Hs by done. eauto.
    + intros f' pg' Hne. rewrite (page_at_set _ _ _ pg) by done.
      rewrite decide_False by done. intros Hpg' Hle. right.
      rewrite is_evictable_Remove, decide_False by done.
      destruct (Iav f' pg' Hpg' Hle) as [Hin|?]; [by apply elem_of_nil in Hin|done].
    + rewrite (page_at_set_eq _ _ pg) by done. done.
Qed.

(** *** Installing a page in an acquired frame *)

Lemma install_Inv (s1 : Pool) f pg' pt' q next' disk' :
  Acquired s1 f → EHT.WF hash pt' →
  (∀ k, EHT.Find hash pt' k =
        if decide (k = q) then Some f else EHT.Find hash (page_table_ s1) k) →
  page_id_ pg' = q → (0 < pin_count_ pg')%Z →
  Inv (mkBPM (set_page (pages_ s1) f pg') pt'
             (LRUK.SetEvictable (LRUK.RecordAccess (replacer_ s1) f) f false)
             (free_list_ s1) next' disk').
Proof.
  intros [Awf Amap Apin And Afree Arec Arep Aav [pg0 Hpg0]] Hwf Hfind Hid Hpin.
  assert (Hpage := λ f', page_at_set (pages_ s1) f f' pg0 pg' Hpg0).
  constructor; unfold BPM.mapped;
    cbn [pages_ page_table_ replacer_ free_list_ next_page_id_ disk_manager_].
  - done.
  - intros p f'. rewrite Hfind, Hpage.
    destruct (decide (p = q)) as [->|Hne].
    + intros [= <-]. rewrite decide_True by done. eauto.
    + intros Hm. destruct (Amap p f' Hm) as [Hf' Hex]. by rewrite decide_False.
  - intros f' pg. rewrite Hpage. destruct (decide (f' = f)); [intros [= <-]; lia|eauto].
  - done.
  - intros f' Hin. destruct (Afree f' Hin) as (Hne & Hs & Hun).
    rewrite Hpage, decide_False by done. split; [done|].
    intros p. rewrite Hfind. destruct (decide (p = q)); [congruence|apply Hun].
  - intros f'. rewrite Hpage, records_touch.
    destruct (decide (f' = f)) as [->|Hne]; [by right; left|].
    intros Hs. destruct (Arec f' Hs Hne); [by left|by right; right].
  - intros f'. rewrite Hpage, records_touch.
    destruct (decide (f' = f)) as [->|Hne]; [done|].
    intros [?|?]; [done|by apply Arep].
  - intros f' pg. rewrite Hpage, is_evictable_touch.
    destruct (decide (f' = f)) as [->|Hne]; [intros [= <-]; lia|].
    by apply Aav.
Qed.

(** What each call does to the parts the invariant speaks of. *)

Lemma FlushPgImp_frame (s s' : Pool) p b :
  FlushPgImp hash s p = Some (s', b) →
  pages_ s' = pages_ s ∧ page_table_ s' = page_table_ s ∧
  replacer_ s' = replacer_ s ∧ free_list_ s' = free_list_ s ∧
  next_page_id_ s' = next_page_id_ s.
Proof.
  unfold FlushPgImp. destruct (decide _); [by intros [= <- <-]|].
  destruct (EHT.Find _ _ _) as [f|]; [|by intros [= <- <-]].
  destruct (page_at _ _); simpl; [|done]. by intros [= <- <-].
Qed.

Lemma FlushAllPgsImp_frame (s s' : Pool) :
  FlushAllPgsImp hash s = Some s' →
  pages_ s' = pages_ s ∧ page_table_ s' = page_table_ s ∧
  replacer_ s' = replacer_ s ∧ free_list_ s' = free_list_ s ∧
  next_page_id_ s' = next_page_id_ s.
Proof.
  unfold FlushAllPgsImp. generalize (seq 0 (pool_size_ s)). intros l.
  assert (H : ∀ acc, (∀ s0, acc = Some s0 →
      pages_ s0 = pages_ s ∧ page_table_ s0 = page_table_ s ∧
      replacer_ s0 = replacer_ s ∧ free_list_ s0 = free_list_ s ∧
      next_page_id_ s0 = next_page_id_ s) →
    foldl (λ acc i, s' ← acc; pg ← pages_ s' !! i;
                    fst <$> FlushPgImp hash s' (page_id_ pg)) acc l = Some s' →
    pages_ s' = pages_ s ∧ page_table_ s' = page_table_ s ∧
    replacer_ s' = replacer_ s ∧ free_list_ s' = free_list_ s ∧
    next_page_id_ s' = next_page_id_ s).
  { induction l as [|i l IH]; intros acc Hacc; simpl; [by apply Hacc|].
    apply IH. intros s0. destruct acc as [s1|]; simpl; [|done].
    destruct (pages_ s1 !! i) as [pg|]; simpl; [|done].
    destruct (FlushPgImp hash s1 (page_id_ pg)) as [[s2 b]|] eqn:E; simpl; [|done].
    intros [= <-]. apply FlushPgImp_frame in E as (-> & -> & -> & -> & ->).
    by apply Hacc. }
  apply H. by intros s0 [= <-].
Qed.

Lemma Inv_frame (s s' : Pool) :
  pages_ s' = pages_ s → page_table_ s' = page_table_ s →
  replacer_ s' = replacer_ s → free_list_ s' = free_list_ s →
  Inv s → Inv s'.
Proof.
  intros H1 H2 H3 H4 [Iwf Imap Ipin Ind Ifree Irec Irep Iav].
  constructor; unfold BPM.mapped in *; rewrite ?H1, ?H2, ?H3, ?H4; done.
Qed.

Lemma touch_Inv (s : Pool) f pg pg' r' disk' :
  Inv s → page_at (pages_ s) f = Some pg →
  page_id_ pg' = page_id_ pg → (0 ≤ pin_count_ pg')%Z →
  (∀ f', f' ≠ f → is_Some (LRUK.records_ r' !! f') ↔
                   is_Some (LRUK.records_ (replacer_ s) !! f')) →
  (∀ f', f' ≠ f → LRUK.is_evictable r' f' = LRUK.is_evictable (replacer_ s) f') →
  (f ∈ free_list_ s ∨ is_Some (LRUK.records_ r' !! f)) →
  ((pin_count_ pg' ≤ 0)%Z → f ∈ free_list_ s ∨ LRUK.is_evictable r' f = true) →
  Inv (mkBPM (set_page (pages_ s) f pg') (page_table_ s) r' (free_list_ s)
             (next_page_id_ s) disk').
Proof.
  intros [Iwf Imap Ipin Ind Ifree Irec Irep Iav] Hpg Hid Hpin Hdom Hev Hrec Hav.
  assert (Hpage := λ f', page_at_set (pages_ s) f f' pg pg' Hpg).
  constructor; unfold BPM.mapped in *;
    cbn [pages_ page_table_ replacer_ free_list_ next_page_id_ disk_manager_].
  - done.
  - intros p f' Hm. rewrite Hpage. destruct (Imap p f' Hm) as (pg1 & H1 & H2).
    destruct (decide (f' = f)) as [->|]; [|eauto].
    exists pg'. split; [done|]. congruence.
  - intros f' pg1. rewrite Hpage. destruct (decide (f' = f)); [intros [= <-]; lia|eauto].
  - done.
  - intros f' Hin. rewrite Hpage. destruct (Ifree f' Hin).
    split; [|done]. by destruct (decide (f' = f)).
  - intros f'. rewrite Hpage. destruct (decide (f' = f)) as [->|Hne]; [done|].
    intros Hs. rewrite Hdom by done. by apply Irec.
  - intros f'. rewrite Hpage. destruct (decide (f' = f)) as [->|Hne]; [done|].
    rewrite Hdom by done. apply Irep.
  - intros f' pg1. rewrite Hpage. destruct (decide (f' = f)) as [->|Hne].
    + intros [= <-]. done.
    + rewrite Hev by done. apply Iav.
Qed.

Lemma mapped_not_free (s : Pool) p f : Inv s → mapped s p f → f ∉ free_list_ s.
Proof. intros HI Hm Hin. by apply (proj2 (inv_free _ _ HI f Hin) p). Qed.

Lemma mapped_record (s : Pool) p f :
  Inv s → mapped s p f → is_Some (LRUK.records_ (replacer_ s) !! f).
Proof.
  intros HI Hm. destruct (inv_map _ _ HI p f Hm) as (pg & Hpg & _).
  destruct (inv_rec _ _ HI f) as [Hin|?]; [by eexists| |done].
  by apply (mapped_not_free s p f) in Hin.
Qed.

Lemma NewPgImp_Inv u fuel (s s' : Pool) r :
  Inv s → NewPgImp zeroed hash u fuel s = Some (s', r) → Inv s'.
Proof.
  intros HI. unfold NewPgImp.
  destruct (all_pinned s) eqn:Hpin; [by intros [= <- <-]|].
  destruct (acquire_spec u s HI Hpin) as (s1 & f & -> & HA & Hnext & Hsub). simpl.
  destruct (acq_frame _ _ _ HA) as [pg Hpg]. rewrite Hpg. simpl.
  destruct (EHT.Insert hash fuel (page_table_ s1) (next_page_id_ s1) f)
    as [pt'|] eqn:Eins; simpl; [|done].
  intros [= <- <-].
  destruct (Insert_spec hash _ _ _ _ _ (acq_wf _ _ _ HA) Eins) as (H1 & H2 & H3 & _).
  apply install_Inv with (q := next_page_id_ s1); try done.
  intros k. destruct (decide (k = next_page_id_ s1)) as [->|]; [done|by apply H3].
Qed.

Lemma FetchPgImp_Inv u fuel (s s' : Pool) p r :
  Inv s → FetchPgImp zeroed on_disk hash u fuel s p = Some (s', r) → Inv s'.
Proof.
  intros HI. unfold FetchPgImp.
  destruct (all_pinned s) eqn:Hpin; [by intros [= <- <-]|].
  destruct (EHT.Find hash (page_table_ s) p) as [f|] eqn:Efind.
  - destruct (inv_map _ _ HI p f Efind) as (pg & Hpg & Hid). rewrite Hpg. simpl.
    intros [= <- <-].
    apply (touch_Inv s f pg); try done; cbn [pin_count_ page_id_ is_dirty_ data_].
    + pose proof (inv_pin _ _ HI f pg Hpg). lia.
    + intros f' Hne. rewrite records_touch. split; [intros [?|?]; done|by right].
    + intros f' Hne. by rewrite is_evictable_touch, decide_False.
    + right. apply records_touch. by left.
    + pose proof (inv_pin _ _ HI f pg Hpg). lia.
  - destruct (acquire_spec u s HI Hpin) as (s1 & f & -> & HA & Hnext & Hsub). simpl.
    destruct (acq_frame _ _ _ HA) as [pg Hpg]. rewrite Hpg. simpl.
    destruct (EHT.Insert hash fuel (page_table_ s1) p f) as [pt'|] eqn:Eins; simpl; [|done].
    intros [= <- <-].
    destruct (Insert_spec hash _ _ _ _ _ (acq_wf _ _ _ HA) Eins) as (H1 & H2 & H3 & _).
    apply install_Inv with (q := p); try done.
    + intros k. destruct (decide (k = p)) as [->|]; [done|by apply H3].
    + simpl. pose proof (acq_pin _ _ _ HA f pg Hpg). lia.
Qed.

Lemma UnpinPgImp_Inv (s s' : Pool) p d r :
  Inv s → UnpinPgImp hash s p d = Some (s', r) → Inv s'.
Proof.
  intros HI. unfold UnpinPgImp.
  destruct (EHT.Find hash (page_table_ s) p) as [f|] eqn:Efind; [|by intros [= <- <-]].
  destruct (inv_map _ _ HI p f Efind) as (pg & Hpg & Hid). rewrite Hpg. simpl.
  destruct (Z.leb_spec (pin_count_ pg) 0); [by intros [= <- <-]|].
  intros [= <- <-].
  destruct (mapped_record s p f HI Efind) as [rec Hrec].
  apply (touch_Inv s f pg); try done; simpl; try lia.
  - intros f' Hne. destruct (_ =? _)%Z; [|done]. simpl. by rewrite lookup_alter_ne.
  - intros f' Hne. destruct (_ =? _)%Z; [|done].
    by rewrite is_evictable_SetEvictable, decide_False.
  - right. destruct (_ =? _)%Z; [|by eexists]. simpl.
    rewrite lookup_alter_eq, Hrec. by eexists.
  - intros Hle. right. destruct (Z.eqb_spec (pin_count_ pg - 1) 0); [|lia].
    by rewrite is_evictable_SetEvictable, decide_True, Hrec.
Qed.

Lemma DeletePgImp_Inv (s s' : Pool) p r :
  Inv s → DeletePgImp zeroed hash s p = Some (s', r) → Inv s'.
Proof.
  intros HI. unfold DeletePgImp, DeallocatePage.
  destruct (EHT.Find hash (page_table_ s) p) as [f|] eqn:Efind; [|by intros [= <- <-]].
  destruct (inv_map _ _ HI p f Efind) as (pg & Hpg & Hid). rewrite Hpg. simpl.
  destruct (Z.ltb_spec 0 (pin_count_ pg)); [by intros [= <- <-]|].
  intros [= <- <-].
  pose proof (mapped_not_free s p f HI Efind) as Hnf.
  pose proof HI as [Iwf Imap Ipin Ind Ifree Irec Irep Iav].
  assert (Hpage := λ f', page_at_set (pages_ s) f f' pg
                           (mkPage INVALID_PAGE_ID 0 false zeroed) Hpg).
  assert (Hmap1 : ∀ q f',
    EHT.Find hash (EHT.Remove hash (page_table_ s) p).1 q = Some f' →
    q ≠ p ∧ mapped s q f' ∧ f' ≠ f).
  { intros q f'. rewrite Find_Remove by done. destruct (decide _); [done|].
    intros Hm. split; [done|]. split; [done|]. intros ->.
    destruct (Imap q f Hm) as (pg' & ? & ?). congruence. }
  constructor; unfold BPM.mapped in *;
    cbn [pages_ page_table_ replacer_ free_list_ next_page_id_ disk_manager_].
  - by apply Remove_spec.
  - intros q f' (Hq & Hm & Hne)%Hmap1. rewrite Hpage, decide_False by done. eauto.
  - intros f' pg'. rewrite Hpage. destruct (decide _); [by intros [= <-]|eauto].
  - apply NoDup_app. split; [done|]. split; [|apply NoDup_singleton].
    intros x Hx ->%list_elem_of_singleton. done.
  - intros f' [Hin|Hin]%elem_of_app; [|apply list_elem_of_singleton in Hin as ->].
    + destruct (Ifree f' Hin) as [Hs Hun]. rewrite Hpage. split.
      * by destruct (decide _).
      * intros q (_ & Hm & _)%Hmap1. by apply (Hun q).
    + rewrite Hpage, decide_True by done. split; [done|].
      intros q (_ & _ & ?)%Hmap1. done.
  - intros f'. rewrite Hpage, elem_of_app, list_elem_of_singleton.
    destruct (decide (f' = f)) as [->|Hne]; [by left; right|].
    intros Hs. destruct (Irec f' Hs); [by left; left|right].
    simpl. by rewrite lookup_delete_ne.
  - intros f'. rewrite Hpage. simpl. destruct (decide (f' = f)) as [->|Hne]; [done|].
    rewrite lookup_delete_ne by done. apply Irep.
  - intros f' pg'. rewrite Hpage, elem_of_app, list_elem_of_singleton.
    destruct (decide (f' = f)) as [->|Hne]; [by left; right|].
    intros Hp Hle. rewrite is_evictable_Remove, decide_False by done.
    destruct (Iav f' pg' Hp Hle); [by left; left|by right].
Qed.

Lemma exec_Inv fuel (s s' : Pool) c :
  Inv s → exec zeroed on_disk hash fuel s c = Some s' → Inv s'.
Proof.
  intros HI. destruct c as [u|u p|p d|p| |p]; simpl.
  - destruct (NewPgImp _ _ _ _ _) as [[s1 r]|] eqn:E; simpl; [|done].
    intros [= <-]. by eapply NewPgImp_Inv.
  - destruct (FetchPgImp _ _ _ _ _ _ _) as [[s1 r]|] eqn:E; simpl; [|done].
    intros [= <-]. by eapply FetchPgImp_Inv.
  - destruct (UnpinPgImp _ _ _ _) as [[s1 r]|] eqn:E; simpl; [|done].
    intros [= <-]. by eapply UnpinPgImp_Inv.
  - destruct (FlushPgImp _ _ _) as [[s1 r]|] eqn:E; simpl; [|done].
    intros [= <-]. apply FlushPgImp_frame in E as (? & ? & ? & ? & ?).
    by apply (Inv_frame s).
  - intros E. apply FlushAllPgsImp_frame in E as (? & ? & ? & ? & ?).
    by apply (Inv_frame s).
  - destruct (DeletePgImp _ _ _ _) as [[s1 r]|] eqn:E; simpl; [|done].
    intros [= <-]. by eapply DeletePgImp_Inv.
Qed.

(** *** The initial state and the states of a run *)

Lemma page_at_new pool_size f :
  page_at (replicate pool_size (fresh_page zeroed)) f =
    if decide (0 ≤ f < Z.of_nat pool_size)%Z then Some (fresh_page zeroed) else None.
Proof.
  unfold page_at. destruct (decide (0 ≤ f)%Z).
  - destruct (decide (f < Z.of_nat pool_size)%Z).
    + rewrite decide_True by lia. apply lookup_replicate_2. lia.
    + rewrite decide_False by lia. apply lookup_replicate_None. lia.
  - by rewrite decide_False by lia.
Qed.

Lemma free_list_new pool_size f :
  f ∈ Z.of_nat <$> seq 0 pool_size ↔ (0 ≤ f < Z.of_nat pool_size)%Z.
Proof.
  rewrite list_elem_of_fmap. split.
  - intros (i & -> & Hi%elem_of_seq). lia.
  - intros H. exists (Z.to_nat f). split; [lia|]. apply elem_of_seq. lia.
Qed.

Lemma Inv_new pool_size replacer_k bucket_size :
  Inv (new_bpm zeroed pool_size replacer_k bucket_size).
Proof.
  constructor; unfold BPM.mapped, new_bpm;
    cbn [pages_ page_table_ replacer_ free_list_ next_page_id_ disk_manager_].
  - apply WF_new_table.
  - intros p f. by rewrite Find_new_table.
  - intros f pg. rewrite page_at_new. destruct (decide _); [by intros [= <-]|done].
  - apply NoDup_fmap; [intros x y; lia|apply NoDup_seq].
  - intros f Hin%free_list_new. rewrite page_at_new, decide_True by done.
    split; [done|]. intros p. by rewrite Find_new_table.
  - intros f. rewrite page_at_new, free_list_new.
    destruct (decide _); [by left|by intros [? ?]].
  - intros f. simpl. rewrite lookup_empty. by intros [? ?].
  - intros f pg. rewrite page_at_new, free_list_new.
    destruct (decide _); [by left|done].
Qed.

Lemma reach_Inv P (s s' : Pool) :
  reach zeroed on_disk hash P s s' → Inv s → Inv s'.
Proof.
  induction 1 as [s|s c fuel s1 s2 _ Hex _ IH]; [done|].
  intros HI. apply IH. by eapply exec_Inv.
Qed.

(** *** Runs that never allocate a resident identifier *)

Abbreviation Inv_back := (@BPM.Inv_back Data hash).

Lemma acquire_back u (s s1 : Pool) f :
  Inv_back s → all_pinned s = false → acquire u s = Some (s1, Some f) →
  ∀ f' pg, f' ≠ f → page_at (pages_ s1) f' = Some pg →
           page_id_ pg ≠ INVALID_PAGE_ID → mapped s1 (page_id_ pg) f'.
Proof.
  intros [HI Iback] Hpin Hacq.
  destruct (acquire_cases u s HI Hpin)
    as [(f0 & rest & Efree & Heq)|(f0 & pg0 & Efree & Hev & Hpg0 & Heq)];
    rewrite Heq in Hacq; injection Hacq as <- <-;
    intros f' pg Hne; unfold BPM.mapped;
    cbn [pages_ page_table_ replacer_ free_list_ next_page_id_ disk_manager_].
  - apply Iback.
  - rewrite (page_at_set _ _ _ pg0) by done. rewrite decide_False by done.
    intros Hpg Hid. rewrite Find_Remove by apply HI.
    pose proof (Iback f' pg Hpg Hid) as Hm.
    destruct (decide (page_id_ pg = page_id_ pg0)) as [E|]; [|done].
    exfalso. apply Hne.
    assert (Hm0 : mapped s (page_id_ pg0) f0) by (apply Iback; congruence).
    unfold BPM.mapped in *. congruence.
Qed.

Lemma install_Inv_back (s1 : Pool) f pg' pt' q next' disk' :
  Acquired s1 f →
  (∀ f' pg, f' ≠ f → page_at (pages_ s1) f' = Some pg →
            page_id_ pg ≠ INVALID_PAGE_ID → mapped s1 (page_id_ pg) f') →
  (∀ f', ¬ mapped s1 q f') →
  EHT.WF hash pt' →
  (∀ k, EHT.Find hash pt' k =
        if decide (k = q) then Some f else EHT.Find hash (page_table_ s1) k) →
  page_id_ pg' = q → (0 < pin_count_ pg')%Z →
  Inv_back (mkBPM (set_page (pages_ s1) f pg') pt'
              (LRUK.SetEvictable (LRUK.RecordAccess (replacer_ s1) f) f false)
              (free_list_ s1) next' disk').
Proof.
  intros HA Hback Hun Hwf Hfind Hid Hpin.
  constructor; [by apply install_Inv with (q := q)|]; unfold BPM.mapped in *;
    cbn [pages_ page_table_ replacer_ free_list_ next_page_id_ disk_manager_].
  destruct (acq_frame _ _ _ HA) as [pg0 Hpg0].
  intros f' pg. rewrite (page_at_set _ _ _ pg0) by done. rewrite Hfind.
  destruct (decide (f' = f)) as [->|Hne].
  - intros [= <-] _. by rewrite decide_True.
  - intros Hpg Hnv. pose proof (Hback f' pg Hne Hpg Hnv) as Hm.
    destruct (decide (page_id_ pg = q)) as [E|]; [|done].
    rewrite E in Hm. by apply Hun in Hm.
Qed.

Lemma Inv_back_frame (s s' : Pool) :
  pages_ s' = pages_ s → page_table_ s' = page_table_ s →
  replacer_ s' = replacer_ s → free_list_ s' = free_list_ s →
  Inv_back s → Inv_back s'.
Proof.
  intros H1 H2 H3 H4 [HI Iback].
  constructor; [by apply (Inv_frame s)|]; unfold BPM.mapped in *;
    rewrite ?H1, ?H2; done.
Qed.

Lemma exec_Inv_back fuel (s s' : Pool) c :
  Inv_back s → fresh_id hash s c →
  exec zeroed on_disk hash fuel s c = Some s' → Inv_back s'.
Proof.
  intros HIa Hfresh Hex.
  assert (HI' : Inv s') by (eapply exec_Inv; [apply HIa|done]).
  pose proof HIa as [HI Iback].
  destruct c as [u|u p|p d|p| |p]; simpl in Hex, Hfresh.
  - (* CreatePage *)
    unfold NewPgImp in Hex.
    destruct (all_pinned s) eqn:Hpin; [by injection Hex as <-|].
    destruct (acquire_spec u s HI Hpin) as (s1 & f & Hacq & HA & Hnext & Hsub).
    pose proof (acquire_back u s s1 f HIa Hpin Hacq) as Hback.
    rewrite Hacq in Hex. simpl in Hex.
    destruct (acq_frame _ _ _ HA) as [pg Hpg]. rewrite Hpg in Hex. simpl in Hex.
    destruct (EHT.Insert hash fuel (page_table_ s1) (next_page_id_ s1) f)
      as [pt'|] eqn:Eins; simpl in Hex; [|done].
    injection Hex as <-.
    destruct (Insert_spec hash _ _ _ _ _ (acq_wf _ _ _ HA) Eins) as (H1 & H2 & H3 & _).
    apply install_Inv_back with (q := next_page_id_ s1); try done.
    + intros f' Hm%Hsub. rewrite Hnext in Hm. by apply (Hfresh eq_refl) in Hm.
    + intros k. destruct (decide (k = next_page_id_ s1)) as [->|]; [done|by apply H3].
  - (* FetchPage *)
    unfold FetchPgImp in Hex.
    destruct (all_pinned s) eqn:Hpin; [by injection Hex as <-|].
    destruct (EHT.Find hash (page_table_ s) p) as [f|] eqn:Efind.
    + destruct (inv_map _ _ HI p f Efind) as (pg & Hpg & Hid).
      rewrite Hpg in Hex. simpl in Hex. injection Hex as <-.
      constructor; [done|]; unfold BPM.mapped in *;
        cbn [pages_ page_table_ replacer_ free_list_ next_page_id_ disk_manager_].
      intros f' pg'. rewrite (page_at_set _ _ _ pg) by done.
      destruct (decide (f' = f)) as [->|]; [|apply Iback].
      intros [= <-]. simpl. by apply Iback.
    + destruct (acquire_spec u s HI Hpin) as (s1 & f & Hacq & HA & Hnext & Hsub).
      pose proof (acquire_back u s s1 f HIa Hpin Hacq) as Hback.
      rewrite Hacq in Hex. simpl in Hex.
      destruct (acq_frame _ _ _ HA) as [pg Hpg]. rewrite Hpg in Hex. simpl in Hex.
      destruct (EHT.Insert hash fuel (page_table_ s1) p f) as [pt'|] eqn:Eins;
        simpl in Hex; [|done].
      injection Hex as <-.
      destruct (Insert_spec hash _ _ _ _ _ (acq_wf _ _ _ HA) Eins) as (H1 & H2 & H3 & _).
      apply install_Inv_back with (q := p); try done.
      * intros f' Hm%Hsub. unfold BPM.mapped in Hm. congruence.
      * intros k. destruct (decide (k = p)) as [->|]; [done|by apply H3].
      * simpl. pose proof (acq_pin _ _ _ HA f pg Hpg). lia.
  - (* UnpinPage *)
    unfold UnpinPgImp in Hex.
    destruct (EHT.Find hash (page_table_ s) p) as [f|] eqn:Efind;
      [|by injection Hex as <-].
    destruct (inv_map _ _ HI p f Efind) as (pg & Hpg & Hid).
    rewrite Hpg in Hex. simpl in Hex.
    destruct (pin_count_ pg <=? 0)%Z; [by injection Hex as <-|].
    injection Hex as <-.
    constructor; [done|]; unfold BPM.mapped in *;
      cbn [pages_ page_table_ replacer_ free_list_ next_page_id_ disk_manager_].
    intros f' pg'. rewrite (page_at_set _ _ _ pg) by done.
    destruct (decide (f' = f)) as [->|]; [|apply Iback].
    intros [= <-]. simpl. by apply Iback.
  - (* FlushPage *)
    destruct (FlushPgImp _ _ _) as [[s1 r]|] eqn:E; simpl in Hex; [|done].
    injection Hex as <-. apply FlushPgImp_frame in E as (? & ? & ? & ? & ?).
    by apply (Inv_back_frame s).
  - (* FlushAllPages *)
    apply FlushAllPgsImp_frame in Hex as (? & ? & ? & ? & ?).
    by apply (Inv_back_frame s).
  - (* DeletePage *)
    unfold DeletePgImp, DeallocatePage in Hex.
    destruct (EHT.Find hash (page_table_ s) p) as [f|] eqn:Efind;
      [|by injection Hex as <-].
    destruct (inv_map _ _ HI p f Efind) as (pg & Hpg & Hid).
    rewrite Hpg in Hex. simpl in Hex.
    destruct (0 <? pin_count_ pg)%Z; [by injection Hex as <-|].
    injection Hex as <-.
    constructor; [done|]; unfold BPM.mapped in *;
      cbn [pages_ page_table_ replacer_ free_list_ next_page_id_ disk_manager_].
    intros f' pg'. rewrite (page_at_set _ _ _ pg) by done.
    destruct (decide (f' = f)) as [->|Hne]; [by intros [= <-]|].
    intros Hpg' Hnv. rewrite Find_Remove by apply HI.
    pose proof (Iback f' pg' Hpg' Hnv) as Hm.
    destruct (decide (page_id_ pg' = p)) as [E|]; [|done].
    exfalso. apply Hne. congruence.
Qed.

Lemma Inv_back_new pool_size replacer_k bucket_size :
  Inv_back (new_bpm zeroed pool_size replacer_k bucket_size).
Proof.
  constructor; [apply Inv_new|]; unfold BPM.mapped, new_bpm;
    cbn [pages_ page_table_ replacer_ free_list_ next_page_id_ disk_manager_].
  intros f pg. rewrite page_at_new. destruct (decide _); [|done].
  by intros [= <-].
Qed.

Lemma reach_Inv_back (s s' : Pool) :
  reach zeroed on_disk hash (fresh_id hash) s s' → Inv_back s → Inv_back s'.
Proof.
  induction 1 as [s|s c fuel s1 s2 Hal Hex _ IH]; [done|].
  intros HI. apply IH. by eapply exec_Inv_back.
Qed.

Lemma Inv_back_unique (s : Pool) : Inv_back s → mapping_unique hash s.
Proof.
  intros [HI Iback]. split.
  - intros p1 p2 f H1 H2.
    destruct (inv_map _ _ HI p1 f H1) as (pg1 & Hpg1 & <-).
    destruct (inv_map _ _ HI p2 f H2) as (pg2 & Hpg2 & <-). congruence.
  - intros f pg Hpg Hnv. pose proof (Iback f pg Hpg Hnv) as Hm.
    split; [done|]. unfold entries_of. apply filter_key.
    + apply (entries_NoDup hash), HI.
    + apply (Find_entries hash); [apply HI|done].
Qed.

Lemma run_reach fuel cs : ∀ s s' : Pool,
  run zeroed on_disk hash fuel s cs = Some s' →
  reach zeroed on_disk hash any_call s s'.
Proof.
  induction cs as [|c cs IH]; intros s s'; simpl.
  - intros [= <-]. apply reach_here.
  - destruct (exec zeroed on_disk hash fuel s c) as [s1|] eqn:E; simpl; [|done].
    intros Hrun. by apply (reach_call _ _ _ _ s c fuel s1 s'); [|done|apply IH].
Qed.

Lemma reachable_Inv pool_size replacer_k bucket_size (s : Pool) :
  reach zeroed on_disk hash any_call
    (new_bpm zeroed pool_size replacer_k bucket_size) s → Inv s.
Proof. intros H. apply (reach_Inv _ _ _ H), Inv_new. Qed.

(** The identifier allocator. *)

Lemma acquire_next u (s s1 : Pool) r :
  acquire u s = Some (s1, r) → next_page_id_ s1 = next_page_id_ s.
Proof.
  unfold BPM.acquire. destruct (free_list_ s); [|by intros [= <- <-]].
  destruct (LRUK.Evict (replacer_ s)) as [r1 vic].
  destruct (page_at _ _); simpl; [|done]. by destruct vic; intros [= <- <-].
Qed.

Lemma NewPgImp_next u fuel (s s' : Pool) r :
  NewPgImp zeroed hash u fuel s = Some (s', r) →
  (next_page_id_ s ≤ next_page_id_ s')%Z ∧
  ∀ q f, r = Some (q, f) → q = next_page_id_ s.
Proof.
  unfold NewPgImp. destruct (all_pinned s); [intros [= <- <-]; split; [lia|done]|].
  destruct (BPM.acquire zeroed hash u s) as [[s1 got]|] eqn:E; simpl; [|done].
  apply acquire_next in E.
  destruct got as [f|]; [|intros [= <- <-]; split; [lia|done]].
  destruct (page_at _ _); simpl; [|done].
  destruct (EHT.Insert _ _ _ _ _); simpl; [|done].
  intros [= <- <-]. simpl. split; [lia|]. intros q f' [= <- <-]. done.
Qed.

Lemma exec_next fuel (s s' : Pool) c :
  exec zeroed on_disk hash fuel s c = Some s' →
  (next_page_id_ s ≤ next_page_id_ s')%Z.
Proof.
  destruct c as [u|u p|p d|p| |p]; simpl.
  - destruct (NewPgImp _ _ _ _ _) as [[s1 r]|] eqn:E; simpl; [|done].
    intros [= <-]. by apply NewPgImp_next in E as [? _].
  - unfold FetchPgImp. destruct (all_pinned s); [intros [= <-]; lia|].
    destruct (EHT.Find _ _ _).
    + destruct (page_at _ _); simpl; [|done]. intros [= <-]. simpl. lia.
    + destruct (BPM.acquire zeroed hash u s) as [[s1 got]|] eqn:E; simpl; [|done].
      apply acquire_next in E.
      destruct got as [f|]; [|intros [= <-]; lia].
      destruct (page_at _ _); simpl; [|done].
      destruct (EHT.Insert _ _ _ _ _); simpl; [|done].
      intros [= <-]. simpl. lia.
  - unfold UnpinPgImp. destruct (EHT.Find _ _ _); [|intros [= <-]; lia].
    destruct (page_at _ _); simpl; [|done].
    destruct (_ <=? _)%Z; intros [= <-]; simpl; lia.
  - destruct (FlushPgImp _ _ _) as [[s1 r]|] eqn:E; simpl; [|done].
    intros [= <-]. apply FlushPgImp_frame in E as (_ & _ & _ & _ & ->). lia.
  - intros E. apply FlushAllPgsImp_frame in E as (_ & _ & _ & _ & ->). lia.
  - unfold DeletePgImp, DeallocatePage. destruct (EHT.Find _ _ _); [|intros [= <-]; lia].
    destruct (page_at _ _); simpl; [|done].
    destruct (_ <? _)%Z; intros [= <-]; simpl; lia.
Qed.

Lemma run_next fuel cs : ∀ s s' : Pool,
  run zeroed on_disk hash fuel s cs = Some s' →
  (next_page_id_ s ≤ next_page_id_ s')%Z.
Proof.
  induction cs as [|c cs IH]; intros s s'; simpl; [intros [= <-]; lia|].
  destruct (exec zeroed on_disk hash fuel s c) as [s1|] eqn:E; simpl; [|done].
  intros Hrun. apply exec_next in E. apply IH in Hrun. lia.
Qed.

(** *** Runs that fetch allocated identifiers only *)

Lemma mapped_after fuel (s s' : Pool) c p f :
  Inv s → exec zeroed on_disk hash fuel s c = Some s' → mapped s' p f →
  (∃ f0, mapped s p f0) ∨
  (∃ u, c = CreatePage u ∧ p = next_page_id_ s ∧
        next_page_id_ s' = (p + 1)%Z) ∨
  (∃ u, c = FetchPage u p).
Proof.
  intros HI Hex. unfold BPM.mapped.
  destruct c as [u|u q|q d|q| |q]; simpl in Hex.
  - unfold NewPgImp in Hex.
    destruct (all_pinned s) eqn:Hpin; [injection Hex as <-; eauto|].
    destruct (acquire_spec u s HI Hpin) as (s1 & f1 & Hacq & HA & Hnext & Hsub).
    rewrite Hacq in Hex. simpl in Hex.
    destruct (acq_frame _ _ _ HA) as [pg Hpg]. rewrite Hpg in Hex. simpl in Hex.
    destruct (EHT.Insert hash fuel (page_table_ s1) (next_page_id_ s1) f1)
      as [pt'|] eqn:Eins; simpl in Hex; [|done].
    injection Hex as <-. simpl.
    destruct (Insert_spec hash _ _ _ _ _ (acq_wf _ _ _ HA) Eins) as (_ & _ & H3 & _).
    destruct (decide (p = next_page_id_ s1)) as [->|Hne].
    + intros _. right. left. exists u. by rewrite Hnext.
    + rewrite H3 by done. intros Hm%Hsub. eauto.
  - unfold FetchPgImp in Hex.
    destruct (all_pinned s) eqn:Hpin; [injection Hex as <-; eauto|].
    destruct (EHT.Find hash (page_table_ s) q) as [f1|] eqn:Efind.
    + destruct (page_at _ _); simpl in Hex; [|done]. injection Hex as <-. eauto.
    + destruct (acquire_spec u s HI Hpin) as (s1 & f1 & Hacq & HA & Hnext & Hsub).
      rewrite Hacq in Hex. simpl in Hex.
      destruct (acq_frame _ _ _ HA) as [pg Hpg]. rewrite Hpg in Hex. simpl in Hex.
      destruct (EHT.Insert hash fuel (page_table_ s1) q f1) as [pt'|] eqn:Eins;
        simpl in Hex; [|done].
      injection Hex as <-. simpl.
      destruct (Insert_spec hash _ _ _ _ _ (acq_wf _ _ _ HA) Eins) as (_ & _ & H3 & _).
      destruct (decide (p = q)) as [->|Hne]; [by right; right; exists u|].
      rewrite H3 by done. intros Hm%Hsub. eauto.
  - unfold UnpinPgImp in Hex. destruct (EHT.Find _ _ _); [|injection Hex as <-; eauto].
    destruct (page_at _ _); simpl in Hex; [|done].
    destruct (_ <=? _)%Z; injection Hex as <-; eauto.
  - destruct (FlushPgImp _ _ _) as [[s1 r]|] eqn:E; simpl in Hex; [|done].
    injection Hex as <-. apply FlushPgImp_frame in E as (_ & -> & _). eauto.
  - apply FlushAllPgsImp_frame in Hex as (_ & -> & _). eauto.
  - unfold DeletePgImp, DeallocatePage in Hex.
    destruct (EHT.Find _ _ _); [|injection Hex as <-; eauto].
    destruct (page_at _ _); simpl in Hex; [|done].
    destruct (_ <? _)%Z; injection Hex as <-; [eauto|]. simpl.
    rewrite Find_Remove by apply HI. destruct (decide _); [done|eauto].
Qed.

Lemma exec_bounded fuel (s s' : Pool) c :
  Inv s → bounded hash s → allocated s c →
  exec zeroed on_disk hash fuel s c = Some s' → bounded hash s'.
Proof.
  intros HI Hb Hal Hex p f Hm.
  pose proof (exec_next fuel s s' c Hex) as Hn.
  destruct (mapped_after fuel s s' c p f HI Hex Hm)
    as [[f0 Hm0]|[(u & -> & -> & Hs)|(u & ->)]].
  - apply Hb in Hm0. lia.
  - lia.
  - simpl in Hal. lia.
Qed.

Lemma reach_allocated_fresh (s s' : Pool) :
  reach zeroed on_disk hash allocated s s' → Inv s → bounded hash s →
  reach zeroed on_disk hash (fresh_id hash) s s'.
Proof.
  induction 1 as [s|s c fuel s1 s2 Hal Hex _ IH]; intros HI Hb; [apply reach_here|].
  apply (reach_call _ _ _ _ s c fuel s1 s2); [|done|].
  - destruct c; simpl; try done. intros _ f Hm%Hb. lia.
  - apply IH; [by eapply exec_Inv|by eapply exec_bounded].
Qed.

(** ** The claims about the manager *)

(** A call of [NewPgImp] or [FetchPgImp] that finds every frame pinned
  returns no handle and leaves the manager as it was. *)
Lemma all_pinned_fails u fuel (s : Pool) p :
  all_pinned s = true →
  NewPgImp zeroed hash u fuel s = Some (s, None) ∧
  FetchPgImp zeroed on_disk hash u fuel s p = Some (s, None).
Proof. intros H. unfold NewPgImp, FetchPgImp. by rewrite H. Qed.

(** What the frame acquisition does when the free list is empty and
  [Evict] finds no victim: it reads [pages_[uninit]]. *)
Lemma acquire_no_victim u (s : Pool) :
  free_list_ s = [] → (LRUK.Evict (replacer_ s)).2 = None →
  acquire u s =
    pg ← page_at (pages_ s) u;
    Some (mkBPM (set_page (pages_ s) u
                   (mkPage (page_id_ pg) (pin_count_ pg) false zeroed))
                (EHT.Remove hash (page_table_ s) (page_id_ pg)).1
                (replacer_ s) [] (next_page_id_ s)
                (if is_dirty_ pg
                 then WritePage (disk_manager_ s) (page_id_ pg) (data_ pg)
                 else disk_manager_ s), None).
Proof.
  intros Hfree Hev. unfold BPM.acquire. rewrite Hfree.
  destruct (LRUK.Evict (replacer_ s)) as [r1 vic] eqn:E. simpl in Hev. subst vic.
  apply Evict_None in E as [-> _]. done.
Qed.

(** In the states that runs of calls reach, the frame acquisition always
  finds a frame, so that branch is not entered. *)
Lemma acquire_finds_frame pool_size replacer_k bucket_size u (s : Pool) :
  reach zeroed on_disk hash any_call
    (new_bpm zeroed pool_size replacer_k bucket_size) s →
  all_pinned s = false →
  ∃ s1 f, acquire u s = Some (s1, Some f).
Proof.
  intros Hr Hpin. apply reachable_Inv in Hr.
  destruct (acquire_spec u s Hr Hpin) as (s1 & f & H & _). eauto.
Qed.

(** C2, amended.  After any run of calls, when [page_id] is mapped to a
  frame and some frame of the pool has a pin count of zero or less,
  [FetchPgImp(page_id)] returns the handle of that frame, having added
  one to its pin count, recorded an access and marked it non-evictable,
  and nothing else changes; when every frame is pinned the call returns
  no handle and changes nothing. *)
Theorem FetchPgImp_resident pool_size replacer_k bucket_size u fuel
    (s : Pool) page_id frame_id :
  reach zeroed on_disk hash any_call
    (new_bpm zeroed pool_size replacer_k bucket_size) s →
  mapped s page_id frame_id →
  ∃ pg, page_at (pages_ s) frame_id = Some pg ∧ page_id_ pg = page_id ∧
    (all_pinned s = false →
     FetchPgImp zeroed on_disk hash u fuel s page_id =
       Some (mkBPM (set_page (pages_ s) frame_id
                      (mkPage (page_id_ pg) (pin_count_ pg + 1)
                              (is_dirty_ pg) (data_ pg)))
                   (page_table_ s)
                   (LRUK.SetEvictable
                      (LRUK.RecordAccess (replacer_ s) frame_id) frame_id false)
                   (free_list_ s) (next_page_id_ s) (disk_manager_ s),
             Some frame_id) ∧
     LRUK.is_evictable
       (LRUK.SetEvictable
          (LRUK.RecordAccess (replacer_ s) frame_id) frame_id false)
       frame_id = false) ∧
    (all_pinned s = true →
     FetchPgImp zeroed on_disk hash u fuel s page_id = Some (s, None)).
Proof.
  intros Hr Hm. apply reachable_Inv in Hr.
  destruct (inv_map _ _ Hr page_id frame_id Hm) as (pg & Hpg & Hid).
  exists pg. split; [done|]. split; [done|]. unfold FetchPgImp. split; intros ->.
  - unfold BPM.mapped in Hm. rewrite Hm, Hpg. simpl. split; [done|].
    by rewrite is_evictable_touch, decide_True.
  - done.
Qed.

(** C4, amended.  In every state reached by a run of calls in which
  [CreatePage] never allocates an identifier that is resident at that
  moment, no two identifiers are mapped to one frame, and
  every frame that holds a page has its identifier mapped to it, by the
  only directory entry with that identifier. *)
Theorem mapping_unique_fresh pool_size replacer_k bucket_size (s : Pool) :
  reach zeroed on_disk hash (fresh_id hash)
    (new_bpm zeroed pool_size replacer_k bucket_size) s →
  mapping_unique hash s.
Proof.
  intros Hr. apply Inv_back_unique. apply (reach_Inv_back _ _ Hr).
  apply Inv_back_new.
Qed.

(** The run never allocates a resident identifier when [FetchPage] is
  only asked for identifiers that [AllocatePage] has handed out before. *)
Lemma mapping_unique_allocated pool_size replacer_k bucket_size (s : Pool) :
  reach zeroed on_disk hash allocated
    (new_bpm zeroed pool_size replacer_k bucket_size) s →
  mapping_unique hash s.
Proof.
  intros Hr. apply Inv_back_unique.
  apply (reach_Inv_back (new_bpm zeroed pool_size replacer_k bucket_size));
    [|apply Inv_back_new].
  apply reach_allocated_fresh; [done|apply Inv_new|].
  intros p f. unfold BPM.mapped, new_bpm. simpl. by rewrite Find_new_table.
Qed.

(** The first half holds after every run of calls. *)
Lemma frames_not_shared pool_size replacer_k bucket_size (s : Pool) p1 p2 f :
  reach zeroed on_disk hash any_call
    (new_bpm zeroed pool_size replacer_k bucket_size) s →
  mapped s p1 f → mapped s p2 f → p1 = p2.
Proof.
  intros HI%reachable_Inv H1 H2.
  destruct (inv_map _ _ HI p1 f H1) as (pg1 & Hpg1 & <-).
  destruct (inv_map _ _ HI p2 f H2) as (pg2 & Hpg2 & <-). congruence.
Qed.

(** C5.  After any run of calls, [UnpinPgImp(page_id, is_dirty)] returns
  false and changes nothing when [page_id] is not mapped or the pin count
  of its frame is zero; the pin count is never negative; otherwise the
  call takes one from the pin count, sets the dirty flag to its
  disjunction with [is_dirty], returns true, and marks the frame
  evictable when the pin count has reached zero. *)
Theorem UnpinPgImp_spec pool_size replacer_k bucket_size (s : Pool) page_id is_dirty :
  reach zeroed on_disk hash any_call
    (new_bpm zeroed pool_size replacer_k bucket_size) s →
  (EHT.Find hash (page_table_ s) page_id = None →
   UnpinPgImp hash s page_id is_dirty = Some (s, false)) ∧
  (∀ frame_id, mapped s page_id frame_id →
   ∃ pg, page_at (pages_ s) frame_id = Some pg ∧ page_id_ pg = page_id ∧
     (0 ≤ pin_count_ pg)%Z ∧
     ((pin_count_ pg = 0)%Z →
      UnpinPgImp hash s page_id is_dirty = Some (s, false)) ∧
     ((0 < pin_count_ pg)%Z →
      ∃ r', UnpinPgImp hash s page_id is_dirty =
        Some (mkBPM (set_page (pages_ s) frame_id
                       (mkPage (page_id_ pg) (pin_count_ pg - 1)
                               (is_dirty_ pg || is_dirty) (data_ pg)))
                    (page_table_ s) r'
                    (free_list_ s) (next_page_id_ s) (disk_manager_ s), true) ∧
        ((pin_count_ pg - 1 = 0)%Z →
         r' = LRUK.SetEvictable (replacer_ s) frame_id true ∧
         LRUK.is_evictable r' frame_id = true) ∧
        ((pin_count_ pg - 1 ≠ 0)%Z → r' = replacer_ s))).
Proof.
  intros Hr. apply reachable_Inv in Hr. unfold UnpinPgImp. split.
  - by intros ->.
  - intros f Hm. destruct (inv_map _ _ Hr page_id f Hm) as (pg & Hpg & Hid).
    pose proof (inv_pin _ _ Hr f pg Hpg) as Hpin.
    exists pg. split; [done|]. split; [done|]. split; [done|].
    unfold BPM.mapped in Hm. rewrite Hm, Hpg. simpl. split.
    + intros ->. done.
    + intros Hpos. destruct (Z.leb_spec (pin_count_ pg) 0); [lia|].
      eexists. split; [|split].
      * do 3 f_equal. f_equal. by destruct is_dirty, (is_dirty_ pg).
      * intros E. rewrite E. simpl. split; [done|].
        destruct (mapped_record s page_id f Hr Hm) as [rec Hrec].
        by rewrite is_evictable_SetEvictable, decide_True, Hrec.
      * intros E. by destruct (Z.eqb_spec (pin_count_ pg - 1) 0).
Qed.


(** C9.  After any run of calls, [FlushPgImp(page_id)] returns false and
  writes nothing when [page_id] is the invalid identifier or is not
  mapped; when it is mapped, the call hands the bytes of its frame to
  [WritePage] once, under [page_id], and returns true, whatever the pin
  count and the dirty flag are, and it changes nothing else: the dirty
  flag stays as it is. *)
Theorem FlushPgImp_spec pool_size replacer_k bucket_size (s : Pool) page_id :
  reach zeroed on_disk hash any_call
    (new_bpm zeroed pool_size replacer_k bucket_size) s →
  (page_id = INVALID_PAGE_ID → FlushPgImp hash s page_id = Some (s, false)) ∧
  (EHT.Find hash (page_table_ s) page_id = None →
   FlushPgImp hash s page_id = Some (s, false)) ∧
  (page_id ≠ INVALID_PAGE_ID →
   ∀ frame_id, mapped s page_id frame_id →
   ∃ pg, page_at (pages_ s) frame_id = Some pg ∧ page_id_ pg = page_id ∧
     FlushPgImp hash s page_id =
       Some (mkBPM (pages_ s) (page_table_ s) (replacer_ s) (free_list_ s)
                   (next_page_id_ s)
                   (DiskWrite page_id (data_ pg) :: disk_manager_ s), true)).
Proof.
  intros Hr. apply reachable_Inv in Hr. unfold FlushPgImp.
  split; [|split].
  - intros ->. by rewrite decide_True.
  - intros ->. by destruct (decide _).
  - intros Hne f Hm. destruct (inv_map _ _ Hr page_id f Hm) as (pg & Hpg & Hid).
    exists pg. split; [done|]. split; [done|].
    unfold BPM.mapped in Hm. rewrite decide_False, Hm, Hpg by done. simpl.
    unfold WritePage. by rewrite Hid.
Qed.

(** *** Free frames, evictable frames and pin counts *)

Abbreviation Inv_use := (@BPM.Inv_use Data zeroed).
Abbreviation Taken := (@BPM.Taken Data zeroed hash).

Lemma records_touch_ne r f f' :
  f' ≠ f →
  LRUK.records_ (LRUK.SetEvictable (LRUK.RecordAccess r f) f false) !! f'
    = LRUK.records_ r !! f'.
Proof.
  intros Hne. unfold LRUK.SetEvictable, LRUK.RecordAccess. simpl.
  by rewrite lookup_alter_ne, lookup_insert_ne.
Qed.

Lemma is_evictable_records r r' f :
  LRUK.records_ r !! f = LRUK.records_ r' !! f →
  LRUK.is_evictable r f = LRUK.is_evictable r' f.
Proof. unfold LRUK.is_evictable. by intros ->. Qed.

Lemma acquire_Taken u (s : Pool) :
  Inv s → Inv_use s → all_pinned s = false →
  ∃ s1 f pg0, acquire u s = Some (s1, Some f) ∧ Taken s s1 f pg0.
Proof.
  intros HI HU Hpin.
  destruct (acquire_cases u s HI Hpin)
    as [(f & rest & Efree & ->)|(f & pg & Efree & Hev & Hpg & ->)].
  - assert (Hf : f ∈ free_list_ s) by (rewrite Efree; left).
    destruct (use_free _ _ HU f Hf) as [Hpg Hrec].
    eexists _, f, (fresh_page zeroed). split; [done|].
    constructor; cbn [pages_ page_table_ replacer_ free_list_ next_page_id_
                      disk_manager_]; try done.
    + intros f' Hin. pose proof (inv_free_nodup _ _ HI) as Hnd.
      rewrite Efree in Hnd |- *. apply NoDup_cons in Hnd as [Hnot _].
      split; [intros ->; done|by right].
    + by left.
  - eexists _, f, pg. split; [done|].
    pose proof (use_evictable _ _ HU f pg Hpg Hev) as Hzero.
    constructor; cbn [pages_ page_table_ replacer_ free_list_ next_page_id_
                      disk_manager_]; try done.
    + rewrite (page_at_set_eq _ _ pg) by done. by rewrite Hzero.
    + intros f' Hne. rewrite (page_at_set _ _ _ pg) by done.
      by rewrite decide_False.
    + intros f' Hin. by apply elem_of_nil in Hin.
    + intros f' Hne. unfold LRUK.Remove. simpl. by rewrite lookup_delete_ne.
    + intros k Hne. rewrite Find_Remove by apply (inv_wf _ _ HI).
      by rewrite decide_False.
    + by right.
Qed.

Lemma install_use (s s1 : Pool) f pg' pt' next' disk' :
  Inv_use s →
  is_Some (page_at (pages_ s1) f) →
  (∀ f', f' ≠ f → page_at (pages_ s1) f' = page_at (pages_ s) f') →
  (∀ f', f' ∈ free_list_ s1 → f' ≠ f ∧ f' ∈ free_list_ s) →
  (∀ f', f' ≠ f →
     LRUK.records_ (replacer_ s1) !! f' = LRUK.records_ (replacer_ s) !! f') →
  Inv_use (mkBPM (set_page (pages_ s1) f pg') pt'
             (LRUK.SetEvictable (LRUK.RecordAccess (replacer_ s1) f) f false)
             (free_list_ s1) next' disk').
Proof.
  intros [Ufree Uev] [pg1 Hpg1] Hpages Hfree Hrec.
  assert (Hpage := λ f', page_at_set (pages_ s1) f f' pg1 pg' Hpg1).
  constructor;
    cbn [pages_ page_table_ replacer_ free_list_ next_page_id_ disk_manager_].
  - intros f' Hin. destruct (Hfree f' Hin) as [Hne Hin'].
    rewrite Hpage, decide_False, Hpages, records_touch_ne, Hrec by done.
    by apply Ufree.
  - intros f' pg. rewrite Hpage, is_evictable_touch.
    destruct (decide (f' = f)) as [->|Hne]; [done|].
    rewrite Hpages by done. intros Hpg Hev. apply (Uev f' pg Hpg).
    rewrite <- Hev. symmetry. by apply is_evictable_records, Hrec.
Qed.

Lemma Inv_use_frame (s s' : Pool) :
  pages_ s' = pages_ s → replacer_ s' = replacer_ s →
  free_list_ s' = free_list_ s → Inv_use s → Inv_use s'.
Proof.
  intros Hp Hr Hf [Ufree Uev]. constructor; rewrite ?Hp, ?Hr, ?Hf; done.
Qed.

(** The three ways [NewPgImp] returns. *)
Lemma NewPgImp_cases u fuel (s s' : Pool) r :
  Inv s → Inv_use s → NewPgImp zeroed hash u fuel s = Some (s', r) →
  (all_pinned s = true ∧ s' = s ∧ r = None) ∨
  (all_pinned s = false ∧
   ∃ s1 f pg0 pt', acquire u s = Some (s1, Some f) ∧ Taken s s1 f pg0 ∧
     EHT.Insert hash fuel (page_table_ s1) (next_page_id_ s) f = Some pt' ∧
     s' = mkBPM (set_page (pages_ s1) f (mkPage (next_page_id_ s) 1 false zeroed))
            pt' (LRUK.SetEvictable (LRUK.RecordAccess (replacer_ s1) f) f false)
            (free_list_ s1) (next_page_id_ s + 1)%Z (disk_manager_ s1) ∧
     r = Some (next_page_id_ s, f)).
Proof.
  intros HI HU. unfold NewPgImp.
  destruct (all_pinned s) eqn:Hpin; [intros [= <- <-]; by left|].
  destruct (acquire_Taken u s HI HU Hpin) as (s1 & f & pg0 & -> & HT).
  cbn [mbind option_bind]. rewrite (tk_new _ _ _ _ _ _ HT), (tk_next _ _ _ _ _ _ HT).
  cbn [mbind option_bind is_dirty_ data_].
  destruct (EHT.Insert hash fuel (page_table_ s1) (next_page_id_ s) f)
    as [pt'|] eqn:Eins; [|done].
  cbn [mbind option_bind]. intros [= <- <-]. right. split; [done|].
  by exists s1, f, pg0, pt'.
Qed.

(** The ways [FetchPgImp] returns. *)
Lemma FetchPgImp_cases u fuel (s s' : Pool) p r :
  Inv s → Inv_use s → FetchPgImp zeroed on_disk hash u fuel s p = Some (s', r) →
  (all_pinned s = true ∧ s' = s ∧ r = None) ∨
  (all_pinned s = false ∧
   ∃ f pg, mapped s p f ∧ page_at (pages_ s) f = Some pg ∧ page_id_ pg = p ∧
     s' = mkBPM (set_page (pages_ s) f
                   (mkPage (page_id_ pg) (pin_count_ pg + 1) (is_dirty_ pg) (data_ pg)))
            (page_table_ s)
            (LRUK.SetEvictable (LRUK.RecordAccess (replacer_ s) f) f false)
            (free_list_ s) (next_page_id_ s) (disk_manager_ s) ∧
     r = Some f) ∨
  (all_pinned s = false ∧ EHT.Find hash (page_table_ s) p = None ∧
   ∃ s1 f pg0 pt', acquire u s = Some (s1, Some f) ∧ Taken s s1 f pg0 ∧
     EHT.Insert hash fuel (page_table_ s1) p f = Some pt' ∧
     s' = mkBPM (set_page (pages_ s1) f
                   (mkPage p 1 false (stored on_disk (disk_manager_ s1) p)))
            pt' (LRUK.SetEvictable (LRUK.RecordAccess (replacer_ s1) f) f false)
            (free_list_ s1) (next_page_id_ s)
            (DiskRead p :: disk_manager_ s1) ∧
     r = Some f).
Proof.
  intros HI HU. unfold FetchPgImp.
  destruct (all_pinned s) eqn:Hpin; [intros [= <- <-]; by left|].
  destruct (EHT.Find hash (page_table_ s) p) as [f|] eqn:Ef.
  - destruct (inv_map _ _ HI p f Ef) as (pg & Hpg & Hid). rewrite Hpg.
    cbn [mbind option_bind]. intros [= <- <-]. right. left. split; [done|].
    by exists f, pg.
  - destruct (acquire_Taken u s HI HU Hpin) as (s1 & f & pg0 & -> & HT).
    cbn [mbind option_bind]. rewrite (tk_new _ _ _ _ _ _ HT), (tk_next _ _ _ _ _ _ HT).
    cbn [mbind option_bind is_dirty_ data_ pin_count_].
    destruct (EHT.Insert hash fuel (page_table_ s1) p f) as [pt'|] eqn:Eins; [|done].
    cbn [mbind option_bind ReadPage]. intros [= <- <-]. right. right.
    split; [done|]. split; [done|]. by exists s1, f, pg0, pt'.
Qed.

Lemma UnpinPgImp_cases (s s' : Pool) p d b :
  UnpinPgImp hash s p d = Some (s', b) →
  (s' = s ∧ b = false) ∨
  (∃ f pg, mapped s p f ∧ page_at (pages_ s) f = Some pg ∧
     (0 < pin_count_ pg)%Z ∧
     s' = mkBPM (set_page (pages_ s) f
                   (mkPage (page_id_ pg) (pin_count_ pg - 1)
                           (if d then d else is_dirty_ pg) (data_ pg)))
            (page_table_ s)
            (if (pin_count_ pg - 1 =? 0)%Z
             then LRUK.SetEvictable (replacer_ s) f true else replacer_ s)
            (free_list_ s) (next_page_id_ s) (disk_manager_ s) ∧
     b = true).
Proof.
  unfold UnpinPgImp.
  destruct (EHT.Find hash (page_table_ s) p) as [f|] eqn:Ef;
    [|intros [= <- <-]; by left].
  destruct (page_at (pages_ s) f) as [pg|] eqn:Hpg; [|done].
  cbn [mbind option_bind].
  destruct (Z.leb_spec (pin_count_ pg) 0); [intros [= <- <-]; by left|].
  intros [= <- <-]. right. by exists f, pg.
Qed.

Lemma DeletePgImp_cases (s s' : Pool) p b :
  DeletePgImp zeroed hash s p = Some (s', b) →
  s' = s ∨
  (∃ f pg, mapped s p f ∧ page_at (pages_ s) f = Some pg ∧
     (pin_count_ pg ≤ 0)%Z ∧
     s' = mkBPM (set_page (pages_ s) f (fresh_page zeroed))
            (EHT.Remove hash (page_table_ s) p).1
            (LRUK.Remove (replacer_ s) f)
            (free_list_ s ++ [f]) (next_page_id_ s) (disk_manager_ s) ∧
     b = true).
Proof.
  unfold DeletePgImp, DeallocatePage.
  destruct (EHT.Find hash (page_table_ s) p) as [f|] eqn:Ef;
    [|intros [= <- <-]; by left].
  destruct (page_at (pages_ s) f) as [pg|] eqn:Hpg; [|done].
  cbn [mbind option_bind].
  destruct (Z.ltb_spec 0 (pin_count_ pg)); [intros [= <- <-]; by left|].
  intros [= <- <-]. right. by exists f, pg.
Qed.

Lemma exec_Inv_use fuel (s s' : Pool) c :
  Inv s → Inv_use s → exec zeroed on_disk hash fuel s c = Some s' → Inv_use s'.
Proof.
  intros HI HU He.
  destruct c as [u|u p|p d|p| |p]; simpl in He.
  - destruct (NewPgImp zeroed hash u fuel s) as [[s2 r]|] eqn:E; [|done].
    injection He as ->.
    destruct (NewPgImp_cases u fuel s s' r HI HU E)
      as [(_ & -> & _)|(_ & s1 & f & pg0 & pt' & _ & HT & _ & -> & _)]; [done|].
    apply (install_use s s1); [done|by rewrite (tk_new _ _ _ _ _ _ HT)| | |];
      apply HT.
  - destruct (FetchPgImp zeroed on_disk hash u fuel s p) as [[s2 r]|] eqn:E; [|done].
    injection He as ->.
    destruct (FetchPgImp_cases u fuel s s' p r HI HU E)
      as [(_ & -> & _)|[(_ & f & pg & Hm & Hpg & _ & -> & _)|
          (_ & _ & s1 & f & pg0 & pt' & _ & HT & _ & -> & _)]]; [done| |].
    + apply (install_use s s); [done|by rewrite Hpg|done| |done].
      intros f' Hin. split; [|done]. intros ->.
      by apply (mapped_not_free s p f HI Hm).
    + apply (install_use s s1); [done|by rewrite (tk_new _ _ _ _ _ _ HT)| | |];
        apply HT.
  - destruct (UnpinPgImp hash s p d) as [[s2 b]|] eqn:E; [|done].
    injection He as ->.
    destruct (UnpinPgImp_cases s s' p d b E)
      as [[-> _]|(f & pg & Hm & Hpg & Hpin & -> & _)]; [done|].
    pose proof HU as [Ufree Uev].
    assert (Hpage := λ f', page_at_set (pages_ s) f f' pg
      (mkPage (page_id_ pg) (pin_count_ pg - 1) (if d then d else is_dirty_ pg)
              (data_ pg)) Hpg).
    constructor;
      cbn [pages_ page_table_ replacer_ free_list_ next_page_id_ disk_manager_].
    + intros f' Hin.
      assert (Hne : f' ≠ f).
      { intros ->. by apply (mapped_not_free s p f HI Hm). }
      rewrite Hpage, decide_False by done.
      destruct (Ufree f' Hin) as [H1 H2]. split; [done|].
      destruct (_ =? _)%Z; [|done].
      unfold LRUK.SetEvictable. simpl. by rewrite lookup_alter_ne.
    + intros f' pg'. rewrite Hpage.
      destruct (decide (f' = f)) as [->|Hne].
      * intros [= <-]. simpl.
        destruct (Z.eqb_spec (pin_count_ pg - 1) 0); [done|].
        intros Hev. pose proof (Uev f pg Hpg Hev). lia.
      * intros Hpg'. destruct (_ =? _)%Z; [|by apply Uev].
        rewrite is_evictable_SetEvictable, decide_False by done.
        by apply Uev.
  - destruct (FlushPgImp hash s p) as [[s2 b]|] eqn:E; [|done].
    injection He as ->.
    destruct (FlushPgImp_frame s s' p b E) as (Hp & _ & Hr & Hf & _).
    by apply (Inv_use_frame s s').
  - destruct (FlushAllPgsImp_frame s s' He) as (Hp & _ & Hr & Hf & _).
    by apply (Inv_use_frame s s').
  - destruct (DeletePgImp zeroed hash s p) as [[s2 b]|] eqn:E; [|done].
    injection He as ->.
    destruct (DeletePgImp_cases s s' p b E)
      as [->|(f & pg & Hm & Hpg & Hpin & -> & _)]; [done|].
    pose proof HU as [Ufree Uev].
    assert (Hpage := λ f', page_at_set (pages_ s) f f' pg (fresh_page zeroed) Hpg).
    constructor;
      cbn [pages_ page_table_ replacer_ free_list_ next_page_id_ disk_manager_].
    + intros f' Hin. rewrite Hpage. unfold LRUK.Remove. simpl.
      destruct (decide (f' = f)) as [->|Hne].
      * by rewrite lookup_delete_eq.
      * rewrite lookup_delete_ne by done.
        apply elem_of_app in Hin as [Hin|Hin]; [by apply Ufree|].
        apply list_elem_of_singleton in Hin. done.
    + intros f' pg'. rewrite Hpage, is_evictable_Remove.
      destruct (decide (f' = f)); [done|]. by apply Uev.
Qed.

Lemma Inv_use_new pool_size replacer_k bucket_size :
  Inv_use (new_bpm zeroed pool_size replacer_k bucket_size).
Proof.
  constructor; simpl.
  - intros f Hf. apply free_list_new in Hf.
    rewrite page_at_new, decide_True by done. done.
  - intros f pg _. unfold LRUK.is_evictable. simpl. by rewrite lookup_empty.
Qed.

Lemma reach_Inv_use P (s s' : Pool) :
  reach zeroed on_disk hash P s s' → Inv s → Inv_use s → Inv_use s'.
Proof.
  induction 1 as [s|s c fuel s1 s2 _ He _ IH]; [done|].
  intros HI HU. apply IH; [by eapply exec_Inv|by eapply exec_Inv_use].
Qed.

Lemma reachable_Inv_use pool_size replacer_k bucket_size (s : Pool) :
  reach zeroed on_disk hash any_call
    (new_bpm zeroed pool_size replacer_k bucket_size) s → Inv_use s.
Proof.
  intros Hr. apply (reach_Inv_use _ _ _ Hr); [apply Inv_new|apply Inv_use_new].
Qed.

Lemma pinned_not_free (s : Pool) f pg :
  Inv_use s → page_at (pages_ s) f = Some pg → (0 < pin_count_ pg)%Z →
  f ∉ free_list_ s.
Proof.
  intros HU Hpg Hpin Hin. destruct (use_free _ _ HU f Hin) as [Hf _].
  rewrite Hpg in Hf. injection Hf as ->. simpl in Hpin. lia.
Qed.

Lemma Taken_other (s s1 : Pool) f1 pg0 f pg pg1 :
  Taken s s1 f1 pg0 → Inv_use s →
  page_at (pages_ s) f = Some pg → (0 < pin_count_ pg)%Z →
  f ≠ f1 ∧ page_at (set_page (pages_ s1) f1 pg1) f = Some pg ∧
  f ∉ free_list_ s1.
Proof.
  intros HT HU Hpg Hpin.
  assert (Hne : f ≠ f1).
  { intros ->. rewrite (tk_old _ _ _ _ _ _ HT) in Hpg. injection Hpg as ->.
    pose proof (tk_pin _ _ _ _ _ _ HT). lia. }
  split; [done|]. split.
  - rewrite (page_at_set _ _ _ _ _ (tk_new _ _ _ _ _ _ HT)), decide_False by done.
    by rewrite (tk_pages _ _ _ _ _ _ HT).
  - intros Hin. apply (tk_free _ _ _ _ _ _ HT) in Hin as [_ Hin].
    by apply (pinned_not_free s f pg).
Qed.

Lemma exec_pinned fuel (s s' : Pool) c f pg :
  Inv s → Inv_use s →
  page_at (pages_ s) f = Some pg → (0 < pin_count_ pg)%Z →
  exec zeroed on_disk hash fuel s c = Some s' →
  ∃ pg', page_at (pages_ s') f = Some pg' ∧
    page_id_ pg' = page_id_ pg ∧ data_ pg' = data_ pg ∧
    (pin_count_ pg - 1 ≤ pin_count_ pg')%Z ∧
    (is_dirty_ pg = true → is_dirty_ pg' = true) ∧
    f ∉ free_list_ s'.
Proof.
  intros HI HU Hpg Hpin He.
  pose proof (pinned_not_free s f pg HU Hpg Hpin) as Hnf.
  assert (Hsame : ∃ pg', page_at (pages_ s) f = Some pg' ∧
    page_id_ pg' = page_id_ pg ∧ data_ pg' = data_ pg ∧
    (pin_count_ pg - 1 ≤ pin_count_ pg')%Z ∧
    (is_dirty_ pg = true → is_dirty_ pg' = true) ∧ f ∉ free_list_ s).
  { exists pg. repeat split; try done. lia. }
  destruct c as [u|u p|p d|p| |p]; simpl in He.
  - destruct (NewPgImp zeroed hash u fuel s) as [[s2 r]|] eqn:E; [|done].
    injection He as ->.
    destruct (NewPgImp_cases u fuel s s' r HI HU E)
      as [(_ & -> & _)|(_ & s1 & f1 & pg0 & pt' & _ & HT & _ & -> & _)]; [done|].
    cbn [pages_ free_list_].
    destruct (Taken_other s s1 f1 pg0 f pg
                (mkPage (next_page_id_ s) 1 false zeroed) HT HU Hpg Hpin)
      as (_ & Hp & Hf).
    exists pg. repeat split; try done. lia.
  - destruct (FetchPgImp zeroed on_disk hash u fuel s p) as [[s2 r]|] eqn:E; [|done].
    injection He as ->.
    destruct (FetchPgImp_cases u fuel s s' p r HI HU E)
      as [(_ & -> & _)|[(_ & f1 & pg1 & Hm & Hpg1 & _ & -> & _)|
          (_ & _ & s1 & f1 & pg0 & pt' & _ & HT & _ & -> & _)]]; [done| |].
    + cbn [pages_ free_list_]. rewrite (page_at_set _ _ _ pg1) by done.
      destruct (decide (f = f1)) as [->|Hne].
      * rewrite Hpg in Hpg1. injection Hpg1 as <-.
        eexists. split; [done|]. simpl. repeat split; try done. lia.
      * exists pg. repeat split; try done. lia.
    + cbn [pages_ free_list_].
      destruct (Taken_other s s1 f1 pg0 f pg
                  (mkPage p 1 false (stored on_disk (disk_manager_ s1) p))
                  HT HU Hpg Hpin) as (_ & Hp & Hf).
      exists pg. repeat split; try done. lia.
  - destruct (UnpinPgImp hash s p d) as [[s2 b]|] eqn:E; [|done].
    injection He as ->.
    destruct (UnpinPgImp_cases s s' p d b E)
      as [[-> _]|(f1 & pg1 & Hm & Hpg1 & _ & -> & _)]; [done|].
    cbn [pages_ free_list_]. rewrite (page_at_set _ _ _ pg1) by done.
    destruct (decide (f = f1)) as [->|Hne]; [|done].
    rewrite Hpg in Hpg1. injection Hpg1 as <-.
    eexists. split; [done|]. simpl. repeat split; try done.
    intros ->. by destruct d.
  - destruct (FlushPgImp hash s p) as [[s2 b]|] eqn:E; [|done].
    injection He as ->.
    destruct (FlushPgImp_frame s s' p b E) as (-> & _ & _ & -> & _). done.
  - destruct (FlushAllPgsImp_frame s s' He) as (-> & _ & _ & -> & _). done.
  - destruct (DeletePgImp zeroed hash s p) as [[s2 b]|] eqn:E; [|done].
    injection He as ->.
    destruct (DeletePgImp_cases s s' p b E)
      as [->|(f1 & pg1 & Hm & Hpg1 & Hle & -> & _)]; [done|].
    cbn [pages_ free_list_]. rewrite (page_at_set _ _ _ pg1) by done.
    assert (Hne : f ≠ f1).
    { intros ->. rewrite Hpg in Hpg1. injection Hpg1 as <-. lia. }
    rewrite decide_False by done.
    exists pg. repeat split; try done; [lia|].
    intros Hin. apply elem_of_app in Hin as [Hin|Hin]; [done|].
    by apply list_elem_of_singleton in Hin.
Qed.

(** X9.  A pinned frame is never reused.  In every state reached by a run
    of calls, a frame whose pin count is positive still holds the same
    page with the same bytes after any further call: no call evicts it,
    deletes it or puts it on the free list, its pin count drops by one at
    most, and a set dirty flag stays set. *)
Theorem pinned_frame_is_kept pool_size replacer_k bucket_size fuel
    (s s' : Pool) c f pg :
  reach zeroed on_disk hash any_call
    (new_bpm zeroed pool_size replacer_k bucket_size) s →
  page_at (pages_ s) f = Some pg → (0 < pin_count_ pg)%Z →
  exec zeroed on_disk hash fuel s c = Some s' →
  ∃ pg', page_at (pages_ s') f = Some pg' ∧
    page_id_ pg' = page_id_ pg ∧ data_ pg' = data_ pg ∧
    (pin_count_ pg - 1 ≤ pin_count_ pg')%Z ∧
    (is_dirty_ pg = true → is_dirty_ pg' = true) ∧
    f ∉ free_list_ s'.
Proof.
  intros Hr. apply exec_pinned;
    [by eapply reachable_Inv|by eapply reachable_Inv_use].
Qed.

(** X10.  The tracker's eligibility follows the pin counts.  In every
    state reached by a run of calls, a frame is evictable exactly when it
    is off the free list and its pin count is zero. *)
Theorem evictable_iff_unpinned pool_size replacer_k bucket_size (s : Pool) f pg :
  reach zeroed on_disk hash any_call
    (new_bpm zeroed pool_size replacer_k bucket_size) s →
  page_at (pages_ s) f = Some pg →
  (LRUK.is_evictable (replacer_ s) f = true ↔
   (f ∉ free_list_ s) ∧ pin_count_ pg = 0%Z).
Proof.
  intros Hr Hpg.
  pose proof (reachable_Inv _ _ _ _ Hr) as HI.
  pose proof (reachable_Inv_use _ _ _ _ Hr) as HU.
  split.
  - intros Hev. split; [|by apply (use_evictable _ _ HU f pg)].
    intros Hin. destruct (use_free _ _ HU f Hin) as [_ Hrec].
    unfold LRUK.is_evictable in Hev. by rewrite Hrec in Hev.
  - intros [Hnf Hz].
    destruct (inv_avail _ _ HI f pg Hpg) as [?|?]; [lia|done|done].
Qed.

Lemma exec_pool_size fuel (s s' : Pool) c :
  Inv s → Inv_use s → exec zeroed on_disk hash fuel s c = Some s' →
  pool_size_ s' = pool_size_ s.
Proof.
  intros HI HU He. unfold pool_size_.
  assert (Hacq : ∀ u s1 f pg0, acquire u s = Some (s1, Some f) →
            Taken s s1 f pg0 → length (pages_ s1) = length (pages_ s)).
  { intros u s1 f pg0 Ha HT. destruct (tk_from _ _ _ _ _ _ HT) as [Hin|[Efree _]].
    - unfold BPM.acquire in Ha. destruct (free_list_ s); [by apply elem_of_nil in Hin|].
      by injection Ha as <- _.
    - unfold BPM.acquire in Ha. rewrite Efree in Ha.
      destruct (LRUK.Evict (replacer_ s)) as [r1 [f1|]]; simpl in Ha;
        destruct (page_at (pages_ s) _); simpl in Ha; try done;
        injection Ha as <- _; simpl; apply length_insert. }
  destruct c as [u|u p|p d|p| |p]; simpl in He.
  - destruct (NewPgImp zeroed hash u fuel s) as [[s2 r]|] eqn:E; [|done].
    injection He as ->.
    destruct (NewPgImp_cases u fuel s s' r HI HU E)
      as [(_ & -> & _)|(_ & s1 & f1 & pg0 & pt' & Ha & HT & _ & -> & _)]; [done|].
    simpl. unfold set_page. rewrite length_insert. by eapply Hacq.
  - destruct (FetchPgImp zeroed on_disk hash u fuel s p) as [[s2 r]|] eqn:E; [|done].
    injection He as ->.
    destruct (FetchPgImp_cases u fuel s s' p r HI HU E)
      as [(_ & -> & _)|[(_ & f1 & pg1 & Hm & Hpg1 & _ & -> & _)|
          (_ & _ & s1 & f1 & pg0 & pt' & Ha & HT & _ & -> & _)]]; [done| |].
    + simpl. apply length_insert.
    + simpl. unfold set_page. rewrite length_insert. by eapply Hacq.
  - destruct (UnpinPgImp hash s p d) as [[s2 b]|] eqn:E; [|done].
    injection He as ->.
    destruct (UnpinPgImp_cases s s' p d b E)
      as [[-> _]|(f1 & pg1 & Hm & Hpg1 & _ & -> & _)]; [done|].
    simpl. apply length_insert.
  - destruct (FlushPgImp hash s p) as [[s2 b]|] eqn:E; [|done].
    injection He as ->.
    by destruct (FlushPgImp_frame s s' p b E) as (-> & _).
  - by destruct (FlushAllPgsImp_frame s s' He) as (-> & _).
  - destruct (DeletePgImp zeroed hash s p) as [[s2 b]|] eqn:E; [|done].
    injection He as ->.
    destruct (DeletePgImp_cases s s' p b E)
      as [->|(f1 & pg1 & Hm & Hpg1 & Hle & -> & _)]; [done|].
    simpl. apply length_insert.
Qed.

Lemma reach_pool_size P (s s' : Pool) :
  reach zeroed on_disk hash P s s' → Inv s → Inv_use s →
  pool_size_ s' = pool_size_ s.
Proof.
  induction 1 as [s|s c fuel s1 s2 _ He _ IH]; [done|].
  intros HI HU. rewrite IH; [by eapply exec_pool_size|by eapply exec_Inv|
                             by eapply exec_Inv_use].
Qed.

(** X11.  The free list holds unused frames only.  In every state reached
    by a run of calls the pool keeps its [pool_size] frames; the free
    list has no index twice; a frame on it is as the constructor or
    [DeletePgImp] left it (no page, pin count 0, clean, memory reset), no
    identifier is mapped to it and the tracker has no record of it; and
    every frame off the free list has a record in the tracker. *)
Theorem free_frames_are_fresh pool_size replacer_k bucket_size (s : Pool) :
  reach zeroed on_disk hash any_call
    (new_bpm zeroed pool_size replacer_k bucket_size) s →
  pool_size_ s = pool_size ∧
  NoDup (free_list_ s) ∧
  (∀ f, f ∈ free_list_ s →
     page_at (pages_ s) f = Some (mkPage INVALID_PAGE_ID 0 false zeroed) ∧
     LRUK.records_ (replacer_ s) !! f = None ∧
     ∀ p, EHT.Find hash (page_table_ s) p ≠ Some f) ∧
  (∀ f, is_Some (page_at (pages_ s) f) →
     f ∈ free_list_ s ∨ is_Some (LRUK.records_ (replacer_ s) !! f)).
Proof.
  intros Hr.
  pose proof (reachable_Inv _ _ _ _ Hr) as HI.
  pose proof (reachable_Inv_use _ _ _ _ Hr) as HU.
  split; [|split; [|split]].
  - rewrite (reach_pool_size _ _ _ Hr); [|apply Inv_new|apply Inv_use_new].
    unfold pool_size_, new_bpm. simpl. apply length_replicate.
  - apply (inv_free_nodup _ _ HI).
  - intros f Hin. destruct (use_free _ _ HU f Hin) as [H1 H2].
    split; [done|]. split; [done|].
    apply (proj2 (inv_free _ _ HI f Hin)).
  - apply (inv_rec _ _ HI).
Qed.

(** X12.  No handle means every frame is pinned.  In every state reached
    by a run of calls, [NewPgImp] and [FetchPgImp] return [nullptr] only
    from their first test, when every frame has a positive pin count, and
    then nothing has changed: the exit [if (!vic)] after the victim has
    been handled is never taken. *)
Theorem no_handle_iff_all_pinned pool_size replacer_k bucket_size u fuel
    (s : Pool) p :
  reach zeroed on_disk hash any_call
    (new_bpm zeroed pool_size replacer_k bucket_size) s →
  (∀ s', NewPgImp zeroed hash u fuel s = Some (s', None) ↔
         all_pinned s = true ∧ s' = s) ∧
  (∀ s', FetchPgImp zeroed on_disk hash u fuel s p = Some (s', None) ↔
         all_pinned s = true ∧ s' = s).
Proof.
  intros Hr.
  pose proof (reachable_Inv _ _ _ _ Hr) as HI.
  pose proof (reachable_Inv_use _ _ _ _ Hr) as HU.
  split; intros s'; (split; [|intros [Hp ->]; by apply all_pinned_fails]).
  - intros E. destruct (NewPgImp_cases u fuel s s' None HI HU E)
      as [(? & -> & _)|(_ & s1 & f1 & pg0 & pt' & _ & _ & _ & _ & ?)]; done.
  - intros E. destruct (FetchPgImp_cases u fuel s s' p None HI HU E)
      as [(? & -> & _)|[(_ & f1 & pg1 & _ & _ & _ & _ & ?)|
          (_ & _ & s1 & f1 & pg0 & pt' & _ & _ & _ & _ & ?)]]; done.
Qed.

(** *** No frame is indexed outside the pool *)

Lemma FlushAllPgsImp_defined (s : Pool) : Inv s → is_Some (FlushAllPgsImp hash s).
Proof.
  intros HI. unfold FlushAllPgsImp.
  assert (H : ∀ l acc,
    (∀ i, i ∈ l → i < length (pages_ s)) →
    (∃ s0, acc = Some s0 ∧ pages_ s0 = pages_ s ∧ page_table_ s0 = page_table_ s) →
    is_Some (foldl (λ acc i, s' ← acc; pg ← pages_ s' !! i;
                             fst <$> FlushPgImp hash s' (page_id_ pg)) acc l)).
  { induction l as [|i l IH]; intros acc Hl (s0 & -> & Hp & Ht); simpl; [done|].
    apply IH; [intros j Hj; apply Hl; by right|].
    destruct (lookup_lt_is_Some_2 (pages_ s) i) as [pg Hpg]; [apply Hl; by left|].
    rewrite Hp, Hpg. simpl.
    assert (Hf : ∃ s2 b, FlushPgImp hash s0 (page_id_ pg) = Some (s2, b)).
    { unfold FlushPgImp. destruct (decide _); [by eauto|]. rewrite Ht.
      destruct (EHT.Find hash (page_table_ s) (page_id_ pg)) as [f|] eqn:Ef;
        [|by eauto].
      destruct (inv_map _ _ HI _ f Ef) as (pg' & Hpg' & _).
      rewrite Hp, Hpg'. simpl. by eauto. }
    destruct Hf as (s2 & b & Hf). rewrite Hf. simpl. exists s2.
    split; [done|].
    destruct (FlushPgImp_frame s0 s2 _ b Hf) as (-> & -> & _). done. }
  apply H; [|by exists s].
  intros i Hi. apply elem_of_seq in Hi. unfold pool_size_ in Hi. lia.
Qed.

(** X13.  No call indexes [pages_] outside the pool.  In every state
    reached by a run of calls, [UnpinPgImp], [FlushPgImp],
    [FlushAllPgsImp] and [DeletePgImp] return, and [NewPgImp] and
    [FetchPgImp] return unless the loop of the directory's [Insert] does
    not end: the frame index that the directory, the free list or the
    tracker supplies is always inside the array. *)
Theorem calls_are_defined pool_size replacer_k bucket_size (s : Pool) :
  reach zeroed on_disk hash any_call
    (new_bpm zeroed pool_size replacer_k bucket_size) s →
  (∀ p d, is_Some (UnpinPgImp hash s p d)) ∧
  (∀ p, is_Some (FlushPgImp hash s p)) ∧
  is_Some (FlushAllPgsImp hash s) ∧
  (∀ p, is_Some (DeletePgImp zeroed hash s p)) ∧
  (∀ u fuel, NewPgImp zeroed hash u fuel s = None →
     ∃ s1 f, acquire u s = Some (s1, Some f) ∧
       EHT.Insert hash fuel (page_table_ s1) (next_page_id_ s) f = None) ∧
  (∀ u fuel p, FetchPgImp zeroed on_disk hash u fuel s p = None →
     ∃ s1 f, acquire u s = Some (s1, Some f) ∧
       EHT.Insert hash fuel (page_table_ s1) p f = None).
Proof.
  intros Hr.
  pose proof (reachable_Inv _ _ _ _ Hr) as HI.
  pose proof (reachable_Inv_use _ _ _ _ Hr) as HU.
  split; [|split; [|split; [|split; [|split]]]].
  - intros p d. unfold UnpinPgImp.
    destruct (EHT.Find hash (page_table_ s) p) as [f|] eqn:Ef; [|done].
    destruct (inv_map _ _ HI p f Ef) as (pg & -> & _). simpl.
    by destruct (_ <=? _)%Z.
  - intros p. unfold FlushPgImp. destruct (decide _); [done|].
    destruct (EHT.Find hash (page_table_ s) p) as [f|] eqn:Ef; [|done].
    by destruct (inv_map _ _ HI p f Ef) as (pg & -> & _).
  - by apply FlushAllPgsImp_defined.
  - intros p. unfold DeletePgImp.
    destruct (EHT.Find hash (page_table_ s) p) as [f|] eqn:Ef; [|done].
    destruct (inv_map _ _ HI p f Ef) as (pg & -> & _). simpl.
    by destruct (_ <? _)%Z.
  - intros u fuel. unfold NewPgImp.
    destruct (all_pinned s) eqn:Hpin; [done|].
    destruct (acquire_Taken u s HI HU Hpin) as (s1 & f & pg0 & Ha & HT).
    rewrite Ha. cbn [mbind option_bind].
    rewrite (tk_new _ _ _ _ _ _ HT), (tk_next _ _ _ _ _ _ HT).
    cbn [mbind option_bind].
    destruct (EHT.Insert hash fuel (page_table_ s1) (next_page_id_ s) f)
      eqn:Eins; [done|]. intros _. by exists s1, f.
  - intros u fuel p. unfold FetchPgImp.
    destruct (all_pinned s) eqn:Hpin; [done|].
    destruct (EHT.Find hash (page_table_ s) p) as [f|] eqn:Ef.
    { by destruct (inv_map _ _ HI p f Ef) as (pg & -> & _). }
    destruct (acquire_Taken u s HI HU Hpin) as (s1 & f & pg0 & Ha & HT).
    rewrite Ha. cbn [mbind option_bind].
    rewrite (tk_new _ _ _ _ _ _ HT). cbn [mbind option_bind].
    destruct (EHT.Insert hash fuel (page_table_ s1) p f) eqn:Eins; [done|].
    intros _. by exists s1, f.
Qed.

(** *** What a successful [NewPgImp] and [FetchPgImp] leave *)

Lemma acquire_WF u (s s1 : Pool) f :
  Inv s → all_pinned s = false → acquire u s = Some (s1, Some f) →
  EHT.WF hash (page_table_ s1).
Proof.
  intros HI Hpin Ha.
  destruct (acquire_spec u s HI Hpin) as (s1' & f' & Ha' & HA & _).
  rewrite Ha in Ha'. injection Ha' as <- <-. apply HA.
Qed.

(** X14.  A successful [NewPgImp], in a state reached by a run of calls,
    returns the identifier [next_page_id_] and advances the counter by
    one.  The frame it returns was unpinned; it now holds the new page
    with pin count 1, clean and with its memory reset, is mapped from the
    new identifier, is not evictable and is off the free list.  When the
    frame was dirty its old content has been written to storage under its
    old identifier, and this is the only transfer.  No other frame and no
    mapping of a third identifier has changed. *)
Theorem NewPgImp_success pool_size replacer_k bucket_size u fuel
    (s s' : Pool) q f :
  reach zeroed on_disk hash any_call
    (new_bpm zeroed pool_size replacer_k bucket_size) s →
  NewPgImp zeroed hash u fuel s = Some (s', Some (q, f)) →
  q = next_page_id_ s ∧ next_page_id_ s' = (q + 1)%Z ∧
  page_at (pages_ s') f = Some (mkPage q 1 false zeroed) ∧
  mapped s' q f ∧
  LRUK.is_evictable (replacer_ s') f = false ∧
  (∀ f', f' ∈ free_list_ s' → f' ≠ f ∧ f' ∈ free_list_ s) ∧
  (∀ f', f' ≠ f → page_at (pages_ s') f' = page_at (pages_ s) f') ∧
  ∃ pg0, page_at (pages_ s) f = Some pg0 ∧ pin_count_ pg0 = 0%Z ∧
    disk_manager_ s' =
      (if is_dirty_ pg0
       then DiskWrite (page_id_ pg0) (data_ pg0) :: disk_manager_ s
       else disk_manager_ s) ∧
    ∀ k, k ≠ q → k ≠ page_id_ pg0 →
         EHT.Find hash (page_table_ s') k = EHT.Find hash (page_table_ s) k.
Proof.
  intros Hr E.
  pose proof (reachable_Inv _ _ _ _ Hr) as HI.
  pose proof (reachable_Inv_use _ _ _ _ Hr) as HU.
  destruct (NewPgImp_cases u fuel s s' _ HI HU E)
    as [(_ & _ & ?)|(Hpin & s1 & f1 & pg0 & pt' & Ha & HT & Eins & -> & Hq)];
    [done|].
  injection Hq as -> ->.
  pose proof (acquire_WF u s s1 f1 HI Hpin Ha) as Hwf1.
  destruct (Insert_spec hash fuel _ _ _ _ Hwf1 Eins) as (_ & Hfq & Hfo & _).
  unfold BPM.mapped.
  cbn [pages_ page_table_ replacer_ free_list_ next_page_id_ disk_manager_].
  split; [done|]. split; [done|].
  split; [by rewrite (page_at_set_eq _ _ _ _ (tk_new _ _ _ _ _ _ HT))|].
  split; [done|].
  split; [by rewrite is_evictable_touch, decide_True|].
  split; [apply HT|]. split.
  - intros f' Hne.
    rewrite (page_at_set _ _ _ _ _ (tk_new _ _ _ _ _ _ HT)), decide_False by done.
    by apply HT.
  - exists pg0. split; [apply HT|]. split; [apply HT|].
    split; [apply HT|]. intros k Hk1 Hk2. rewrite Hfo by done. by apply HT.
Qed.

(** X15.  A successful [FetchPgImp] of a page that is not resident, in a
    state reached by a run of calls: the frame it returns was unpinned; it
    now holds the page with pin count 1, clean, with the bytes that
    storage holds for the identifier, is mapped from the identifier, is
    not evictable and is off the free list.  When the frame was dirty its
    old content has been written back before the read; the write and the
    read are the only transfers.  The identifier counter, every other
    frame and the mappings of third identifiers have not changed. *)
Theorem FetchPgImp_miss pool_size replacer_k bucket_size u fuel
    (s s' : Pool) p f :
  reach zeroed on_disk hash any_call
    (new_bpm zeroed pool_size replacer_k bucket_size) s →
  EHT.Find hash (page_table_ s) p = None →
  FetchPgImp zeroed on_disk hash u fuel s p = Some (s', Some f) →
  next_page_id_ s' = next_page_id_ s ∧
  mapped s' p f ∧
  LRUK.is_evictable (replacer_ s') f = false ∧
  (∀ f', f' ∈ free_list_ s' → f' ≠ f ∧ f' ∈ free_list_ s) ∧
  (∀ f', f' ≠ f → page_at (pages_ s') f' = page_at (pages_ s) f') ∧
  ∃ pg0 disk1, page_at (pages_ s) f = Some pg0 ∧ pin_count_ pg0 = 0%Z ∧
    disk1 =
      (if is_dirty_ pg0
       then DiskWrite (page_id_ pg0) (data_ pg0) :: disk_manager_ s
       else disk_manager_ s) ∧
    disk_manager_ s' = DiskRead p :: disk1 ∧
    page_at (pages_ s') f = Some (mkPage p 1 false (stored on_disk disk1 p)) ∧
    ∀ k, k ≠ p → k ≠ page_id_ pg0 →
         EHT.Find hash (page_table_ s') k = EHT.Find hash (page_table_ s) k.
Proof.
  intros Hr Hmiss E.
  pose proof (reachable_Inv _ _ _ _ Hr) as HI.
  pose proof (reachable_Inv_use _ _ _ _ Hr) as HU.
  destruct (FetchPgImp_cases u fuel s s' p _ HI HU E)
    as [(_ & _ & ?)|[(_ & f1 & pg1 & Hm & _)|
        (Hpin & _ & s1 & f1 & pg0 & pt' & Ha & HT & Eins & -> & Hq)]];
    [done|unfold BPM.mapped in Hm; congruence|].
  injection Hq as ->.
  pose proof (acquire_WF u s s1 f1 HI Hpin Ha) as Hwf1.
  destruct (Insert_spec hash fuel _ _ _ _ Hwf1 Eins) as (_ & Hfq & Hfo & _).
  unfold BPM.mapped.
  cbn [pages_ page_table_ replacer_ free_list_ next_page_id_ disk_manager_].
  split; [done|]. split; [done|].
  split; [by rewrite is_evictable_touch, decide_True|].
  split; [apply HT|]. split.
  - intros f' Hne.
    rewrite (page_at_set _ _ _ _ _ (tk_new _ _ _ _ _ _ HT)), decide_False by done.
    by apply HT.
  - exists pg0, (disk_manager_ s1). split; [apply HT|]. split; [apply HT|].
    split; [apply HT|]. split; [done|].
    split; [by rewrite (page_at_set_eq _ _ _ _ (tk_new _ _ _ _ _ _ HT))|].
    intros k Hk1 Hk2. rewrite Hfo by done. by apply HT.
Qed.

(** *** Write-back *)

(** X16.  Dirty content is not lost by eviction.  In every state reached
    by a run of calls, when a call other than [DeletePgImp] leaves a frame
    clean that was dirty, the bytes the frame held are what storage now
    holds under the identifier the frame had. *)
Theorem dirty_data_reaches_disk pool_size replacer_k bucket_size fuel
    (s s' : Pool) c f pg pg' :
  reach zeroed on_disk hash any_call
    (new_bpm zeroed pool_size replacer_k bucket_size) s →
  (∀ p, c ≠ DeletePage p) →
  exec zeroed on_disk hash fuel s c = Some s' →
  page_at (pages_ s) f = Some pg → is_dirty_ pg = true →
  page_at (pages_ s') f = Some pg' → is_dirty_ pg' = false →
  stored on_disk (disk_manager_ s') (page_id_ pg) = data_ pg.
Proof.
  intros Hr Hc He Hpg Hd Hpg' Hd'.
  pose proof (reachable_Inv _ _ _ _ Hr) as HI.
  pose proof (reachable_Inv_use _ _ _ _ Hr) as HU.
  assert (Hsame : pages_ s' = pages_ s → False).
  { intros Ep. rewrite Ep in Hpg'. congruence. }
  assert (Htaken : ∀ s1 f1 pg0 pg1, Taken s s1 f1 pg0 →
            page_at (set_page (pages_ s1) f1 pg1) f = Some pg' →
            stored on_disk (disk_manager_ s1) (page_id_ pg) = data_ pg).
  { intros s1 f1 pg0 pg1 HT.
    rewrite (page_at_set _ _ _ _ _ (tk_new _ _ _ _ _ _ HT)).
    destruct (decide (f = f1)) as [->|Hne].
    - intros _. rewrite (tk_old _ _ _ _ _ _ HT) in Hpg. injection Hpg as ->.
      rewrite (tk_disk _ _ _ _ _ _ HT), Hd. simpl. by rewrite decide_True.
    - rewrite (tk_pages _ _ _ _ _ _ HT) by done. congruence. }
  destruct c as [u|u p|p d|p| |p]; simpl in He.
  - destruct (NewPgImp zeroed hash u fuel s) as [[s2 r]|] eqn:E; [|done].
    injection He as ->.
    destruct (NewPgImp_cases u fuel s s' r HI HU E)
      as [(_ & -> & _)|(_ & s1 & f1 & pg0 & pt' & _ & HT & _ & -> & _)];
      [by destruct Hsame|].
    cbn [pages_ disk_manager_] in *. by eapply Htaken.
  - destruct (FetchPgImp zeroed on_disk hash u fuel s p) as [[s2 r]|] eqn:E; [|done].
    injection He as ->.
    destruct (FetchPgImp_cases u fuel s s' p r HI HU E)
      as [(_ & -> & _)|[(_ & f1 & pg1 & Hm & Hpg1 & _ & -> & _)|
          (_ & _ & s1 & f1 & pg0 & pt' & _ & HT & _ & -> & _)]];
      [by destruct Hsame| |].
    + cbn [pages_] in Hpg'. rewrite (page_at_set _ _ _ pg1) in Hpg' by done.
      destruct (decide (f = f1)) as [->|Hne]; [|congruence].
      injection Hpg' as <-. simpl in Hd'. congruence.
    + cbn [pages_ disk_manager_] in *. simpl. by eapply Htaken.
  - destruct (UnpinPgImp hash s p d) as [[s2 b]|] eqn:E; [|done].
    injection He as ->.
    destruct (UnpinPgImp_cases s s' p d b E)
      as [[-> _]|(f1 & pg1 & Hm & Hpg1 & _ & -> & _)]; [by destruct Hsame|].
    cbn [pages_] in Hpg'. rewrite (page_at_set _ _ _ pg1) in Hpg' by done.
    destruct (decide (f = f1)) as [->|Hne]; [|congruence].
    injection Hpg' as <-. simpl in Hd'. destruct d; congruence.
  - destruct (FlushPgImp hash s p) as [[s2 b]|] eqn:E; [|done].
    injection He as ->.
    destruct (FlushPgImp_frame s s' p b E) as (Ep & _). by destruct Hsame.
  - destruct (FlushAllPgsImp_frame s s' He) as (Ep & _). by destruct Hsame.
  - by destruct (Hc p).
Qed.

(** [FlushAllPgsImp] when every frame that holds a page is the frame its
    identifier is mapped to. *)
Lemma FlushAllPgsImp_steps (s : Pool) n :
  Inv_back s → n ≤ length (pages_ s) →
  foldl (λ acc i, s' ← acc; pg ← pages_ s' !! i;
                  fst <$> FlushPgImp hash s' (page_id_ pg)) (Some s) (seq 0 n)
  = Some (mkBPM (pages_ s) (page_table_ s) (replacer_ s) (free_list_ s)
                (next_page_id_ s)
                (reverse (flush_writes (take n (pages_ s))) ++ disk_manager_ s)).
Proof.
  intros [HI Hback]. induction n as [|n IH]; intros Hn.
  - simpl. by destruct s.
  - rewrite seq_S, foldl_app, IH by lia. simpl.
    destruct (lookup_lt_is_Some_2 (pages_ s) n) as [pg Hpg]; [lia|].
    rewrite Hpg. simpl. rewrite (take_S_r _ _ pg) by done.
    unfold flush_writes at 2. rewrite omap_app. fold (flush_writes (take n (pages_ s))).
    simpl. unfold FlushPgImp. simpl.
    destruct (decide (page_id_ pg = INVALID_PAGE_ID)) as [Hid|Hid]; simpl.
    + by rewrite app_nil_r.
    + assert (Hat : page_at (pages_ s) (Z.of_nat n) = Some pg).
      { unfold page_at. rewrite decide_True by lia. by rewrite Nat2Z.id. }
      pose proof (Hback _ _ Hat Hid) as Hm. unfold BPM.mapped in Hm.
      rewrite Hm, Hat. simpl. unfold WritePage. by rewrite reverse_snoc.
Qed.

(** X17.  [FlushAllPgsImp] writes every resident page once.  In every
    state reached by a run of calls in which [NewPgImp] does not allocate
    an identifier that is resident, the call issues one write for each
    frame that holds a page, in the order of the frames, with the
    identifier and the bytes of the frame; frames that hold no page are
    skipped, clean pages are written too, and nothing but the storage
    changes: no dirty flag is cleared. *)
Theorem FlushAllPgsImp_writes pool_size replacer_k bucket_size (s : Pool) :
  reach zeroed on_disk hash (fresh_id hash)
    (new_bpm zeroed pool_size replacer_k bucket_size) s →
  FlushAllPgsImp hash s =
    Some (mkBPM (pages_ s) (page_table_ s) (replacer_ s) (free_list_ s)
                (next_page_id_ s)
                (reverse (flush_writes (pages_ s)) ++ disk_manager_ s)).
Proof.
  intros Hr. unfold FlushAllPgsImp, pool_size_.
  rewrite FlushAllPgsImp_steps; [|by eapply reach_Inv_back, Inv_back_new|done].
  by rewrite firstn_all.
Qed.

(** *** Page identifiers *)

Lemma NewPgImp_allocates u fuel (s s' : Pool) q f :
  NewPgImp zeroed hash u fuel s = Some (s', Some (q, f)) →
  q = next_page_id_ s ∧ next_page_id_ s' = (q + 1)%Z.
Proof.
  unfold NewPgImp. destruct (all_pinned s); [done|].
  destruct (BPM.acquire zeroed hash u s) as [[s1 got]|] eqn:E; simpl; [|done].
  apply acquire_next in E.
  destruct got as [f1|]; [|done].
  destruct (page_at _ _); simpl; [|done].
  destruct (EHT.Insert _ _ _ _ _); simpl; [|done].
  intros [= <- <- <-]. simpl. by rewrite E.
Qed.

(** *** Pinned pages stay resident *)

Lemma exec_pinned_mapped fuel (s s' : Pool) c p f pg :
  Inv_back s → Inv_use s → fresh_id hash s c →
  mapped s p f → page_at (pages_ s) f = Some pg → (0 < pin_count_ pg)%Z →
  p ≠ INVALID_PAGE_ID →
  exec zeroed on_disk hash fuel s c = Some s' → mapped s' p f.
Proof.
  intros [HI Hback] HU Hfresh Hm Hpg Hpin Hp He.
  assert (Htaken : ∀ s1 f1 pg0, Taken s s1 f1 pg0 →
            EHT.Find hash (page_table_ s1) p = Some f).
  { intros s1 f1 pg0 HT. rewrite (tk_find _ _ _ _ _ _ HT); [done|].
    intros ->.
    pose proof (Hback f1 pg0 (tk_old _ _ _ _ _ _ HT) Hp) as Hm1.
    unfold BPM.mapped in Hm, Hm1. rewrite Hm in Hm1. injection Hm1 as ->.
    rewrite (tk_old _ _ _ _ _ _ HT) in Hpg. injection Hpg as ->.
    pose proof (tk_pin _ _ _ _ _ _ HT). lia. }
  unfold BPM.mapped.
  destruct c as [u|u p'|p' d|p'| |p']; simpl in He.
  - destruct (NewPgImp zeroed hash u fuel s) as [[s2 r]|] eqn:E; [|done].
    injection He as ->.
    destruct (NewPgImp_cases u fuel s s' r HI HU E)
      as [(_ & -> & _)|(Hap & s1 & f1 & pg0 & pt' & Ha & HT & Eins & -> & _)];
      [done|].
    pose proof (acquire_WF u s s1 f1 HI Hap Ha) as Hwf1.
    destruct (Insert_spec hash fuel _ _ _ _ Hwf1 Eins) as (_ & _ & Hfo & _).
    cbn [page_table_]. rewrite Hfo; [by eapply Htaken|].
    intros ->. by apply (Hfresh Hap f).
  - destruct (FetchPgImp zeroed on_disk hash u fuel s p') as [[s2 r]|] eqn:E; [|done].
    injection He as ->.
    destruct (FetchPgImp_cases u fuel s s' p' r HI HU E)
      as [(_ & -> & _)|[(_ & f1 & pg1 & _ & _ & _ & -> & _)|
          (Hap & Hmiss & s1 & f1 & pg0 & pt' & Ha & HT & Eins & -> & _)]];
      [done|done|].
    pose proof (acquire_WF u s s1 f1 HI Hap Ha) as Hwf1.
    destruct (Insert_spec hash fuel _ _ _ _ Hwf1 Eins) as (_ & _ & Hfo & _).
    cbn [page_table_]. rewrite Hfo; [by eapply Htaken|].
    intros ->. unfold BPM.mapped in Hm. congruence.
  - destruct (UnpinPgImp hash s p' d) as [[s2 b]|] eqn:E; [|done].
    injection He as ->.
    by destruct (UnpinPgImp_cases s s' p' d b E)
      as [[-> _]|(f1 & pg1 & _ & _ & _ & -> & _)].
  - destruct (FlushPgImp hash s p') as [[s2 b]|] eqn:E; [|done].
    injection He as ->.
    by destruct (FlushPgImp_frame s s' p' b E) as (_ & -> & _).
  - by destruct (FlushAllPgsImp_frame s s' He) as (_ & -> & _).
  - destruct (DeletePgImp zeroed hash s p') as [[s2 b]|] eqn:E; [|done].
    injection He as ->.
    destruct (DeletePgImp_cases s s' p' b E)
      as [->|(f1 & pg1 & Hm1 & Hpg1 & Hle & -> & _)]; [done|].
    cbn [page_table_]. rewrite Find_Remove by apply HI.
    rewrite decide_False; [done|]. intros ->.
    unfold BPM.mapped in Hm, Hm1. rewrite Hm in Hm1. injection Hm1 as <-.
    rewrite Hpg in Hpg1. injection Hpg1 as <-. lia.
Qed.

(** X19.  A pinned page stays resident.  In every state reached by a run
    of calls in which [NewPgImp] does not allocate an identifier that is
    resident, a page that is mapped to a frame with a positive pin count
    is still mapped to that frame after any further such call. *)
Theorem pinned_page_stays_mapped pool_size replacer_k bucket_size fuel
    (s s' : Pool) c p f pg :
  reach zeroed on_disk hash (fresh_id hash)
    (new_bpm zeroed pool_size replacer_k bucket_size) s →
  fresh_id hash s c →
  mapped s p f → page_at (pages_ s) f = Some pg → (0 < pin_count_ pg)%Z →
  p ≠ INVALID_PAGE_ID →
  exec zeroed on_disk hash fuel s c = Some s' → mapped s' p f.
Proof.
  intros Hr. apply exec_pinned_mapped.
  - by eapply reach_Inv_back, Inv_back_new.
  - eapply reach_Inv_use; [done|apply Inv_new|apply Inv_use_new].
Qed.

(** *** Where the frame comes from *)

Lemma acquire_choice u (s s1 : Pool) f :
  acquire u s = Some (s1, Some f) →
  (free_list_ s = f :: free_list_ s1 ∧ pages_ s1 = pages_ s ∧
   page_table_ s1 = page_table_ s ∧ replacer_ s1 = replacer_ s ∧
   disk_manager_ s1 = disk_manager_ s) ∨
  (free_list_ s = [] ∧ free_list_ s1 = [] ∧
   LRUK.Evict (replacer_ s) = (replacer_ s1, Some f)).
Proof.
  unfold BPM.acquire. destruct (free_list_ s) as [|f0 rest].
  - destruct (LRUK.Evict (replacer_ s)) as [r1 [f1|]]; simpl;
      destruct (page_at (pages_ s) _); simpl; try done.
    intros [= <- <-]. by right.
  - intros [= <- <-]. by left.
Qed.

(** X22.  The free list comes first.  In every state reached by a run of
    calls, a [NewPgImp] or a [FetchPgImp] of a page that is not resident
    takes the frame at the front of the free list when there is one, and
    then evicts nothing: the tracker is left with its records, no mapping
    is removed and nothing is written to storage.  Only when the free
    list is empty is the tracker asked, and the frame is the victim that
    [Evict] names. *)
Theorem free_list_comes_first pool_size replacer_k bucket_size u fuel
    (s : Pool) :
  reach zeroed on_disk hash any_call
    (new_bpm zeroed pool_size replacer_k bucket_size) s →
  (∀ s' q f, NewPgImp zeroed hash u fuel s = Some (s', Some (q, f)) →
     (free_list_ s = f :: free_list_ s' ∧
      disk_manager_ s' = disk_manager_ s ∧
      (∀ k, k ≠ q → EHT.Find hash (page_table_ s') k
                     = EHT.Find hash (page_table_ s) k) ∧
      (∀ f', f' ≠ f → LRUK.records_ (replacer_ s') !! f'
                       = LRUK.records_ (replacer_ s) !! f')) ∨
     (free_list_ s = [] ∧ free_list_ s' = [] ∧
      (LRUK.Evict (replacer_ s)).2 = Some f)) ∧
  (∀ s' p f, EHT.Find hash (page_table_ s) p = None →
     FetchPgImp zeroed on_disk hash u fuel s p = Some (s', Some f) →
     (free_list_ s = f :: free_list_ s' ∧
      disk_manager_ s' = DiskRead p :: disk_manager_ s ∧
      (∀ k, k ≠ p → EHT.Find hash (page_table_ s') k
                     = EHT.Find hash (page_table_ s) k) ∧
      (∀ f', f' ≠ f → LRUK.records_ (replacer_ s') !! f'
                       = LRUK.records_ (replacer_ s) !! f')) ∨
     (free_list_ s = [] ∧ free_list_ s' = [] ∧
      (LRUK.Evict (replacer_ s)).2 = Some f)).
Proof.
  intros Hr.
  pose proof (reachable_Inv _ _ _ _ Hr) as HI.
  pose proof (reachable_Inv_use _ _ _ _ Hr) as HU.
  split.
  - intros s' q f E.
    destruct (NewPgImp_cases u fuel s s' _ HI HU E)
      as [(_ & _ & ?)|(Hpin & s1 & f1 & pg0 & pt' & Ha & HT & Eins & -> & Hq)];
      [done|].
    injection Hq as -> ->.
    pose proof (acquire_WF u s s1 f1 HI Hpin Ha) as Hwf1.
    destruct (Insert_spec hash fuel _ _ _ _ Hwf1 Eins) as (_ & _ & Hfo & _).
    cbn [pages_ page_table_ replacer_ free_list_ next_page_id_ disk_manager_].
    destruct (acquire_choice u s s1 f1 Ha)
      as [(Hfree & _ & Hpt & Hrep & Hdisk)|(Hfree & Hfree1 & Hev)].
    + left. split; [done|]. split; [done|]. split.
      * intros k Hk. rewrite Hfo by done. by rewrite Hpt.
      * intros f' Hne. rewrite records_touch_ne by done. by rewrite Hrep.
    + right. split; [done|]. split; [done|]. by rewrite Hev.
  - intros s' p f Hmiss E.
    destruct (FetchPgImp_cases u fuel s s' p _ HI HU E)
      as [(_ & _ & ?)|[(_ & f1 & pg1 & Hm & _)|
          (Hpin & _ & s1 & f1 & pg0 & pt' & Ha & HT & Eins & -> & Hq)]];
      [done|unfold BPM.mapped in Hm; congruence|].
    injection Hq as ->.
    pose proof (acquire_WF u s s1 f1 HI Hpin Ha) as Hwf1.
    destruct (Insert_spec hash fuel _ _ _ _ Hwf1 Eins) as (_ & _ & Hfo & _).
    cbn [pages_ page_table_ replacer_ free_list_ next_page_id_ disk_manager_].
    destruct (acquire_choice u s s1 f1 Ha)
      as [(Hfree & _ & Hpt & Hrep & Hdisk)|(Hfree & Hfree1 & Hev)].
    + left. split; [done|]. split; [by rewrite Hdisk|]. split.
      * intros k Hk. rewrite Hfo by done. by rewrite Hpt.
      * intros f' Hne. rewrite records_touch_ne by done. by rewrite Hrep.
    + right. split; [done|]. split; [done|]. by rewrite Hev.
Qed.

(** *** Calls that return no handle, and the eviction path *)

(** C1.  In every state reached by a run of calls, a [NewPgImp] or a
    [FetchPgImp] that returns [nullptr] leaves the manager as it was:
    frames (page identifiers, dirty flags, memory), directory, free list,
    tracker, identifier counter and storage are those before the call.
    Such a call has returned from the test that every frame is pinned;
    past that test an unpinned frame is on the free list or evictable, so
    the later exit, after the victim has been handled, is not taken. *)
Theorem failed_call_changes_nothing pool_size replacer_k bucket_size
    (s : Pool) :
  reach zeroed on_disk hash any_call
    (new_bpm zeroed pool_size replacer_k bucket_size) s →
  (∀ u fuel s', NewPgImp zeroed hash u fuel s = Some (s', None) →
     s' = s ∧ all_pinned s = true) ∧
  (∀ u fuel p s', FetchPgImp zeroed on_disk hash u fuel s p = Some (s', None) →
     s' = s ∧ all_pinned s = true) ∧
  (all_pinned s = true →
   ∀ u fuel p, NewPgImp zeroed hash u fuel s = Some (s, None) ∧
               FetchPgImp zeroed on_disk hash u fuel s p = Some (s, None)).
Proof.
  intros Hr.
  pose proof (reachable_Inv _ _ _ _ Hr) as HI.
  pose proof (reachable_Inv_use _ _ _ _ Hr) as HU.
  split; [|split].
  - intros u fuel s' E. destruct (NewPgImp_cases u fuel s s' None HI HU E)
      as [(? & -> & _)|(_ & s1 & f1 & pg0 & pt' & _ & _ & _ & _ & ?)]; done.
  - intros u fuel p s' E. destruct (FetchPgImp_cases u fuel s s' p None HI HU E)
      as [(? & -> & _)|[(_ & f1 & pg1 & _ & _ & _ & _ & ?)|
          (_ & _ & s1 & f1 & pg0 & pt' & _ & _ & _ & _ & ?)]]; done.
  - intros Hp u fuel p. by apply all_pinned_fails.
Qed.

(** C10.  In every state reached by a run of calls whose free list is
    empty: when [Evict] reports no victim, every frame is pinned, and
    [NewPgImp] and [FetchPgImp] return [nullptr] from their first test
    without touching anything; and when the call goes past that test,
    [Evict] names a victim [f] inside the array, and the frame read, the
    write-back, the reset and the directory removal of the eviction path
    are those of [f]: the result does not depend on the value [u] that the
    uninitialised [frame_id] held. *)
Theorem eviction_uses_victim pool_size replacer_k bucket_size (s : Pool) :
  reach zeroed on_disk hash any_call
    (new_bpm zeroed pool_size replacer_k bucket_size) s →
  free_list_ s = [] →
  ((LRUK.Evict (replacer_ s)).2 = None →
   all_pinned s = true ∧
   ∀ u fuel p, NewPgImp zeroed hash u fuel s = Some (s, None) ∧
               FetchPgImp zeroed on_disk hash u fuel s p = Some (s, None)) ∧
  (all_pinned s = false →
   ∃ r1 f pg, LRUK.Evict (replacer_ s) = (r1, Some f) ∧
     page_at (pages_ s) f = Some pg ∧
     ∀ u, acquire u s =
       Some (mkBPM (set_page (pages_ s) f
                      (mkPage (page_id_ pg) (pin_count_ pg) false zeroed))
                   (EHT.Remove hash (page_table_ s) (page_id_ pg)).1
                   r1 [] (next_page_id_ s)
                   (if is_dirty_ pg
                    then WritePage (disk_manager_ s) (page_id_ pg) (data_ pg)
                    else disk_manager_ s), Some f)).
Proof.
  intros Hr Hfree.
  pose proof (reachable_Inv _ _ _ _ Hr) as HI.
  split.
  - intros Hnone.
    assert (Hp : all_pinned s = true).
    { destruct (all_pinned s) eqn:Hpin; [done|].
      destruct (acquire_cases 0%Z s HI Hpin)
        as [(f & rest & Ef & _)|(f & pg & _ & Hev & _)]; [congruence|].
      destruct (LRUK.Evict (replacer_ s)) as [r1 v] eqn:Ev. simpl in Hnone.
      subst v. apply Evict_None in Ev as [_ Hno]. by rewrite Hno in Hev. }
    split; [done|]. intros u fuel p. by apply all_pinned_fails.
  - intros Hpin.
    destruct (LRUK.Evict (replacer_ s)) as [r1 [f|]] eqn:Ev.
    + pose proof Ev as Ev'. apply Evict_Some in Ev' as [Hev _].
      assert (Hrec : is_Some (LRUK.records_ (replacer_ s) !! f)).
      { unfold LRUK.is_evictable in Hev.
        by destruct (LRUK.records_ (replacer_ s) !! f). }
      destruct (inv_rep _ _ HI f Hrec) as [pg Hpg].
      exists r1, f, pg. split; [done|]. split; [done|].
      intros u. unfold BPM.acquire. rewrite Hfree, Ev. simpl.
      by rewrite Hpg.
    + apply Evict_None in Ev as [_ Hno].
      destruct (all_pinned_false s Hpin) as (f & pg & Hpg & Hle).
      destruct (inv_avail _ _ HI f pg Hpg Hle) as [Hin|Hev].
      * rewrite Hfree in Hin. by apply elem_of_nil in Hin.
      * by rewrite Hno in Hev.
Qed.

(** *** Page identifiers *)

Lemma reach_next P (s s' : Pool) :
  reach zeroed on_disk hash P s s' → (next_page_id_ s ≤ next_page_id_ s')%Z.
Proof.
  induction 1 as [s|s c fuel s1 s2 _ He _ IH]; [lia|].
  apply exec_next in He. lia.
Qed.

(** X18.  [AllocatePage] hands out no identifier twice before its counter
    leaves the range of [page_id_t]: in a run of calls from the
    constructor, of two successful [NewPgImp] calls the later one returns
    the larger identifier, as long as that identifier is below [2 ^ 31];
    identifiers are not negative. *)
Theorem page_ids_increase pool_size replacer_k bucket_size u fuel
    (s s1 : Pool) q f fuel' cs (s2 : Pool) u' fuel'' (s3 : Pool) q' f' :
  reach zeroed on_disk hash any_call
    (new_bpm zeroed pool_size replacer_k bucket_size) s →
  NewPgImp zeroed hash u fuel s = Some (s1, Some (q, f)) →
  run zeroed on_disk hash fuel' s1 cs = Some s2 →
  NewPgImp zeroed hash u' fuel'' s2 = Some (s3, Some (q', f')) →
  (q' < 2 ^ 31)%Z →
  (0 ≤ q < q')%Z.
Proof.
  intros Hr E1 Hrun E2 Hrange.
  apply reach_next in Hr. simpl in Hr. unfold first_page_id in Hr.
  apply NewPgImp_allocates in E1 as [-> E1].
  apply NewPgImp_allocates in E2 as [-> _].
  apply run_next in Hrun. lia.
Qed.

End BPM_Theory.

Lemma lookup_after_run_witness :
  EHT.run Sample.hash_int 8 (EHT.new_table 2) Sample.calls
    = Some Sample.after_calls ∧
  (∀ cs1 cs2 k v, Sample.calls = cs1 ++ EHT.CInsert k v :: cs2 →
                  Forall (λ c, ¬ EHT.touches k c) cs2 →
                  EHT.Find Sample.hash_int Sample.after_calls k = Some v) ∧
  (∀ k, EHT.Find Sample.hash_int Sample.after_calls k
        = EHT.content Sample.calls k) ∧
  (∀ key, (EHT.Remove Sample.hash_int Sample.after_calls key).2 = true →
          EHT.Find Sample.hash_int
            (EHT.Remove Sample.hash_int Sample.after_calls key).1 key = None) ∧
  (∀ key, EHT.list_ (EHT.bucket_at Sample.after_calls
                       (EHT.IndexOf Sample.hash_int Sample.after_calls key)) = [] ∨
          EHT.Find Sample.hash_int Sample.after_calls key = None →
          EHT.Remove Sample.hash_int Sample.after_calls key
            = (Sample.after_calls, false)).
Proof.
  split; [vm_compute; reflexivity|].
  apply (lookup_after_run Sample.hash_int 2 8 Sample.calls Sample.after_calls).
  vm_compute; reflexivity.
Defined.

Lemma depth_invariants_witness :
  EHT.run Sample.hash_int 8 (EHT.new_table 2)
    [EHT.CInsert 0 7; EHT.CInsert 2 8]%Z = Some Sample.two_keys ∧
  EHT.run Sample.hash_int 8 Sample.two_keys [EHT.CInsert 4 9]%Z
    = Some Sample.three_keys ∧
  EHT.GetGlobalDepth Sample.two_keys ≤ EHT.GetGlobalDepth Sample.three_keys ∧
  length (EHT.dir_ Sample.three_keys) = 2 ^ EHT.GetGlobalDepth Sample.three_keys ∧
  ∀ i, i < length (EHT.dir_ Sample.three_keys) →
    EHT.GetLocalDepth Sample.three_keys i ≤ EHT.GetGlobalDepth Sample.three_keys ∧
    EHT.refs Sample.three_keys (EHT.slot Sample.three_keys i)
      = 2 ^ (EHT.GetGlobalDepth Sample.three_keys
             - EHT.GetLocalDepth Sample.three_keys i).
Proof.
  split; [vm_compute; reflexivity|]. split; [vm_compute; reflexivity|].
  apply (depth_invariants Sample.hash_int 2 8
           [EHT.CInsert 0 7; EHT.CInsert 2 8]%Z [EHT.CInsert 4 9]%Z
           Sample.two_keys Sample.three_keys); vm_compute; reflexivity.
Defined.


(** * The claims at concrete states *)

(** C2, as stated, fails: in the pool of one frame that holds page 0
    pinned, page 0 is mapped and [FetchPgImp(0)] returns no handle. *)
Lemma fetch_resident_all_pinned :
  BPM.run 0%Z (λ _, 0%Z) Sample.hash_int 8 (Sample.pool 1) [BPM.CreatePage 0]
    = Some Sample.one_pinned ∧
  BPM.mapped Sample.hash_int Sample.one_pinned 0 0 ∧
  BPM.all_pinned Sample.one_pinned = true ∧
  BPM.FetchPgImp 0%Z (λ _, 0%Z) Sample.hash_int 0 8 Sample.one_pinned 0
    = Some (Sample.one_pinned, None).
Proof. repeat split; by vm_compute. Qed.

(** C4, as stated, fails: after [FetchPage(0)] on a fresh pool and one
    [CreatePage], which allocates the identifier 0, frame 0 and frame 1
    both hold page 0 and the directory maps page 0 to frame 1 only. *)
Lemma fetch_unallocated_then_create :
  BPM.run 0%Z (λ _, 0%Z) Sample.hash_int 8 (Sample.pool 2)
    [BPM.FetchPage 0 0; BPM.CreatePage 0] = Some Sample.fetched_then_created ∧
  BPM.page_id_ <$> BPM.page_at (BPM.pages_ Sample.fetched_then_created) 0 = Some 0%Z ∧
  BPM.page_id_ <$> BPM.page_at (BPM.pages_ Sample.fetched_then_created) 1 = Some 0%Z ∧
  EHT.Find Sample.hash_int (BPM.page_table_ Sample.fetched_then_created) 0%Z
    = Some 1%Z ∧
  ¬ BPM.mapping_unique Sample.hash_int Sample.fetched_then_created.
Proof.
  split; [by vm_compute|]. split; [by vm_compute|]. split; [by vm_compute|].
  split; [by vm_compute|].
  intros [_ H].
  destruct (H 0%Z (BPM.mkPage 0 1 false 0%Z)) as [Hm _]; [by vm_compute|by vm_compute|].
  vm_compute in Hm. done.
Qed.

Lemma two_frames_reached :
  BPM.reach 0%Z (λ _, 0%Z) Sample.hash_int BPM.any_call
    (BPM.new_bpm 0%Z 2 2 4) Sample.two_frames.
Proof. apply (run_reach 0%Z (λ _, 0%Z) Sample.hash_int 8 [BPM.CreatePage 0]). by vm_compute. Defined.

Lemma one_pinned_reached :
  BPM.reach 0%Z (λ _, 0%Z) Sample.hash_int BPM.any_call
    (BPM.new_bpm 0%Z 1 2 4) Sample.one_pinned.
Proof. apply (run_reach 0%Z (λ _, 0%Z) Sample.hash_int 8 [BPM.CreatePage 0]). by vm_compute. Defined.

Lemma one_dirty_reached :
  BPM.reach 0%Z (λ _, 0%Z) Sample.hash_int BPM.any_call
    (BPM.new_bpm 0%Z 1 2 4) Sample.one_dirty.
Proof.
  apply (run_reach 0%Z (λ _, 0%Z) Sample.hash_int 8
           [BPM.CreatePage 0; BPM.UnpinPage 0 true]). by vm_compute.
Defined.

Lemma FetchPgImp_resident_witness :
  BPM.reach 0%Z (λ _, 0%Z) Sample.hash_int BPM.any_call
    (BPM.new_bpm 0%Z 2 2 4) Sample.two_frames ∧
  BPM.mapped Sample.hash_int Sample.two_frames 0 0 ∧
  ∃ pg, BPM.page_at (BPM.pages_ Sample.two_frames) 0 = Some pg ∧
    BPM.page_id_ pg = 0%Z ∧
    (BPM.all_pinned Sample.two_frames = false →
     BPM.FetchPgImp 0%Z (λ _, 0%Z) Sample.hash_int 0 8 Sample.two_frames 0 =
       Some (BPM.mkBPM (BPM.set_page (BPM.pages_ Sample.two_frames) 0
                          (BPM.mkPage (BPM.page_id_ pg) (BPM.pin_count_ pg + 1)
                                      (BPM.is_dirty_ pg) (BPM.data_ pg)))
                       (BPM.page_table_ Sample.two_frames)
                       (LRUK.SetEvictable
                          (LRUK.RecordAccess (BPM.replacer_ Sample.two_frames) 0) 0 false)
                       (BPM.free_list_ Sample.two_frames)
                       (BPM.next_page_id_ Sample.two_frames)
                       (BPM.disk_manager_ Sample.two_frames),
             Some 0%Z) ∧
     LRUK.is_evictable
       (LRUK.SetEvictable
          (LRUK.RecordAccess (BPM.replacer_ Sample.two_frames) 0) 0 false) 0 = false) ∧
    (BPM.all_pinned Sample.two_frames = true →
     BPM.FetchPgImp 0%Z (λ _, 0%Z) Sample.hash_int 0 8 Sample.two_frames 0
       = Some (Sample.two_frames, None)).
Proof.
  split; [exact two_frames_reached|]. split; [by vm_compute|].
  apply (FetchPgImp_resident 0%Z (λ _, 0%Z) Sample.hash_int 2 2 4 0%Z 8
           Sample.two_frames 0%Z 0%Z); [exact two_frames_reached|by vm_compute].
Defined.

Lemma fetched_back_reached :
  BPM.reach 0%Z (λ _, 0%Z) Sample.hash_int (BPM.fresh_id Sample.hash_int)
    (BPM.new_bpm 0%Z 2 2 4) Sample.fetched_back.
Proof.
  apply (BPM.reach_call _ _ _ _ _ (BPM.CreatePage 0) 8 Sample.two_frames);
    [intros _ f; by vm_compute|by vm_compute|].
  apply (BPM.reach_call _ _ _ _ _ (BPM.UnpinPage 0 false) 8
           (Sample.after 2 [BPM.CreatePage 0; BPM.UnpinPage 0 false]));
    [done|by vm_compute|].
  apply (BPM.reach_call _ _ _ _ _ (BPM.FetchPage 0 0) 8 Sample.fetched_back);
    [done|by vm_compute|].
  apply BPM.reach_here.
Defined.

Lemma mapping_unique_fresh_witness :
  BPM.reach 0%Z (λ _, 0%Z) Sample.hash_int (BPM.fresh_id Sample.hash_int)
    (BPM.new_bpm 0%Z 2 2 4) Sample.fetched_back ∧
  BPM.mapping_unique Sample.hash_int Sample.fetched_back.
Proof.
  split; [exact fetched_back_reached|].
  apply (mapping_unique_fresh 0%Z (λ _, 0%Z) Sample.hash_int 2 2 4
           Sample.fetched_back). exact fetched_back_reached.
Defined.

Lemma UnpinPgImp_spec_witness :
  BPM.reach 0%Z (λ _, 0%Z) Sample.hash_int BPM.any_call
    (BPM.new_bpm 0%Z 1 2 4) Sample.one_pinned ∧
  BPM.mapped Sample.hash_int Sample.one_pinned 0 0 ∧
  BPM.UnpinPgImp Sample.hash_int Sample.one_pinned 0 true
    = Some (Sample.one_dirty, true) ∧
  BPM.UnpinPgImp Sample.hash_int Sample.one_dirty 0 true
    = Some (Sample.one_dirty, false) ∧
  BPM.UnpinPgImp Sample.hash_int Sample.one_pinned 5 true
    = Some (Sample.one_pinned, false).
Proof.
  split; [exact one_pinned_reached|]. split; [by vm_compute|].
  destruct (UnpinPgImp_spec 0%Z (λ _, 0%Z) Sample.hash_int 1 2 4
              Sample.one_pinned 0%Z true one_pinned_reached) as [_ H1].
  destruct (H1 0%Z) as (pg & Hpg & _ & _ & _ & Hdec); [by vm_compute|].
  injection Hpg as <-.
  destruct Hdec as (r' & -> & Hr & _); [by vm_compute|].
  destruct Hr as [-> _]; [by vm_compute|].
  destruct (UnpinPgImp_spec 0%Z (λ _, 0%Z) Sample.hash_int 1 2 4
              Sample.one_dirty 0%Z true one_dirty_reached) as [_ H2].
  destruct (H2 0%Z) as (pg & Hpg & _ & _ & Hzero & _); [by vm_compute|].
  injection Hpg as <-.
  destruct (UnpinPgImp_spec 0%Z (λ _, 0%Z) Sample.hash_int 1 2 4
              Sample.one_pinned 5%Z true one_pinned_reached) as [H3 _].
  split; [by vm_compute|]. split; [apply Hzero; by vm_compute|].
  apply H3. by vm_compute.
Defined.


Lemma FlushPgImp_spec_witness :
  BPM.reach 0%Z (λ _, 0%Z) Sample.hash_int BPM.any_call
    (BPM.new_bpm 0%Z 1 2 4) Sample.one_dirty ∧
  BPM.mapped Sample.hash_int Sample.one_dirty 0 0 ∧
  BPM.FlushPgImp Sample.hash_int Sample.one_dirty 0 =
    Some (BPM.mkBPM (BPM.pages_ Sample.one_dirty) (BPM.page_table_ Sample.one_dirty)
            (BPM.replacer_ Sample.one_dirty) (BPM.free_list_ Sample.one_dirty)
            (BPM.next_page_id_ Sample.one_dirty)
            (BPM.DiskWrite 0 0%Z :: BPM.disk_manager_ Sample.one_dirty), true) ∧
  BPM.FlushPgImp Sample.hash_int Sample.one_dirty (-1)
    = Some (Sample.one_dirty, false) ∧
  BPM.FlushPgImp Sample.hash_int Sample.one_dirty 5
    = Some (Sample.one_dirty, false).
Proof.
  split; [exact one_dirty_reached|]. split; [by vm_compute|].
  destruct (FlushPgImp_spec 0%Z (λ _, 0%Z) Sample.hash_int 1 2 4
              Sample.one_dirty 0%Z one_dirty_reached) as (_ & _ & H1).
  destruct (H1 ltac:(done) 0%Z) as (pg & Hpg & _ & Hflush); [by vm_compute|].
  injection Hpg as <-.
  destruct (FlushPgImp_spec 0%Z (λ _, 0%Z) Sample.hash_int 1 2 4
              Sample.one_dirty (-1)%Z one_dirty_reached) as (H2 & _ & _).
  destruct (FlushPgImp_spec 0%Z (λ _, 0%Z) Sample.hash_int 1 2 4
              Sample.one_dirty 5%Z one_dirty_reached) as (_ & H3 & _).
  split; [exact Hflush|]. split; [by apply H2|]. apply H3. by vm_compute.
Defined.

(** * The scenarios of the specification *)

(** Simple fill and evict: pool of 3, k = 2.  Pages 0, 1, 2 are created
    and unpinned; fetching page 3 reuses the frame of page 0. *)
Example simple_fill_and_evict :
  snd <$> BPM.FetchPgImp 0%Z (λ _, 0%Z) Sample.hash_int 0 8
    (Sample.after 3
       [BPM.CreatePage 0; BPM.CreatePage 0; BPM.CreatePage 0;
        BPM.UnpinPage 0 false; BPM.UnpinPage 1 false; BPM.UnpinPage 2 false]) 3
  = Some (Some 0%Z).
Proof. by vm_compute. Qed.

(** Pinned pages block eviction: pool of 1, k = 1. *)
Example pinned_pages_block_eviction :
  (s ← BPM.run 0%Z (λ _, 0%Z) Sample.hash_int 8 (BPM.new_bpm 0%Z 1 1 4)
         [BPM.CreatePage 0];
   snd <$> BPM.FetchPgImp 0%Z (λ _, 0%Z) Sample.hash_int 0 8 s 1)
  = Some None.
Proof. by vm_compute. Qed.

(** Delete rejects a pinned page, and accepts it once unpinned. *)
Example delete_rejects_pinned_page :
  snd <$> BPM.DeletePgImp 0%Z Sample.hash_int Sample.one_pinned 0 = Some false ∧
  snd <$> BPM.DeletePgImp 0%Z Sample.hash_int
            (Sample.after 1 [BPM.CreatePage 0; BPM.UnpinPage 0 false]) 0
    = Some true.
Proof. split; by vm_compute. Qed.

(** Directory split: buckets of 2, three keys of one bucket. *)
Example directory_split :
  EHT.global_depth_ Sample.three_keys = 2 ∧
  EHT.Find Sample.hash_int Sample.three_keys 0%Z = Some 7%Z ∧
  EHT.Find Sample.hash_int Sample.three_keys 2%Z = Some 8%Z ∧
  EHT.Find Sample.hash_int Sample.three_keys 4%Z = Some 9%Z.
Proof. repeat split; by vm_compute. Qed.

(** * The further properties at concrete states *)

Lemma directory_access_in_bounds_witness :
  EHT.run Sample.hash_int 8 (EHT.new_table 2)
    [EHT.CInsert 0 7; EHT.CInsert 2 8]%Z = Some Sample.two_keys ∧
  let t' := Nat.iter 2 (λ t0, EHT.split Sample.hash_int t0 4%Z) Sample.two_keys in
  EHT.IndexOf Sample.hash_int t' 4%Z < length (EHT.dir_ t') ∧
  ∀ i, i < length (EHT.dir_ t') →
       ∃ p b, EHT.dir_ t' !! i = Some p ∧ EHT.heap_ t' !! p = Some b.
Proof.
  split; [vm_compute; reflexivity|].
  apply (directory_access_in_bounds Sample.hash_int 2 8
           [EHT.CInsert 0 7; EHT.CInsert 2 8]%Z Sample.two_keys 4%Z 2).
  vm_compute; reflexivity.
Defined.

Lemma GetNumBuckets_counts_witness :
  EHT.run Sample.hash_int 8 (EHT.new_table 2)
    [EHT.CInsert 0 7; EHT.CInsert 2 8; EHT.CInsert 4 9]%Z
    = Some Sample.three_keys ∧
  EHT.GetNumBuckets Sample.three_keys
    = length (remove_dups (EHT.dir_ Sample.three_keys)).
Proof.
  split; [vm_compute; reflexivity|].
  apply (GetNumBuckets_counts Sample.hash_int 2 8
           [EHT.CInsert 0 7; EHT.CInsert 2 8; EHT.CInsert 4 9]%Z
           Sample.three_keys).
  vm_compute; reflexivity.
Defined.

Lemma buckets_within_capacity_witness :
  EHT.run Sample.hash_int 8 (EHT.new_table 2)
    [EHT.CInsert 0 7; EHT.CInsert 2 8; EHT.CInsert 4 9]%Z
    = Some Sample.three_keys ∧
  0 < length (EHT.dir_ Sample.three_keys) ∧
  length (EHT.list_ (EHT.bucket_at Sample.three_keys 0)) ≤ 2 ∧
  NoDup (EHT.list_ (EHT.bucket_at Sample.three_keys 0)).*1 ∧
  ∀ kv, kv ∈ EHT.list_ (EHT.bucket_at Sample.three_keys 0) →
        EHT.slot Sample.three_keys
          (EHT.IndexOf Sample.hash_int Sample.three_keys kv.1)
        = EHT.slot Sample.three_keys 0.
Proof.
  split; [vm_compute; reflexivity|]. split; [vm_compute; lia|].
  apply (buckets_within_capacity Sample.hash_int 2 8
           [EHT.CInsert 0 7; EHT.CInsert 2 8; EHT.CInsert 4 9]%Z
           Sample.three_keys 0); [vm_compute; reflexivity|vm_compute; lia].
Defined.

Lemma entries_are_content_witness :
  EHT.run Sample.hash_int 8 (EHT.new_table 2) Sample.calls
    = Some Sample.after_calls ∧
  NoDup (EHT.entries Sample.after_calls).*1 ∧
  ∀ k v, (k, v) ∈ EHT.entries Sample.after_calls ↔
         EHT.content Sample.calls k = Some v.
Proof.
  split; [vm_compute; reflexivity|].
  apply (entries_are_content Sample.hash_int 2 8 Sample.calls Sample.after_calls).
  vm_compute; reflexivity.
Defined.

Lemma split_keeps_entries_witness :
  EHT.run Sample.hash_int 8 (EHT.new_table 2)
    [EHT.CInsert 0 7; EHT.CInsert 2 8]%Z = Some Sample.two_keys ∧
  EHT.entries (EHT.split Sample.hash_int Sample.two_keys 4%Z)
    ≡ₚ EHT.entries Sample.two_keys.
Proof.
  split; [vm_compute; reflexivity|].
  apply (split_keeps_entries Sample.hash_int 2 8
           [EHT.CInsert 0 7; EHT.CInsert 2 8]%Z Sample.two_keys 4%Z).
  vm_compute; reflexivity.
Defined.

Lemma Insert_same_hash_never_returns_witness :
  EHT.run Sample.hash_int 8 (EHT.new_table 1) [EHT.CInsert 0 7]%Z
    = Some Sample.one_key ∧
  EHT.Find Sample.hash_int Sample.one_key 0%Z = Some 7%Z ∧
  EHT.Insert Sample.hash_int 20 Sample.one_key 0%Z 9%Z = None.
Proof.
  split; [vm_compute; reflexivity|]. split; [vm_compute; reflexivity|].
  apply (Insert_same_hash_never_returns Sample.hash_int 1 8
           [EHT.CInsert 0 7]%Z Sample.one_key 0%Z 9%Z 20).
  - vm_compute; reflexivity.
  - vm_compute; reflexivity.
  - intros kv Hin. vm_compute in Hin.
    apply list_elem_of_singleton in Hin. subst kv. reflexivity.
Defined.

Lemma Remove_keeps_structure_witness :
  EHT.run Sample.hash_int 8 (EHT.new_table 2) Sample.calls
    = Some Sample.after_calls ∧
  let t' := (EHT.Remove Sample.hash_int Sample.after_calls 4%Z).1 in
  EHT.GetGlobalDepth t' = EHT.GetGlobalDepth Sample.after_calls ∧
  EHT.GetNumBuckets t' = EHT.GetNumBuckets Sample.after_calls ∧
  EHT.dir_ t' = EHT.dir_ Sample.after_calls ∧
  (∀ i, i < length (EHT.dir_ Sample.after_calls) →
        EHT.GetLocalDepth t' i = EHT.GetLocalDepth Sample.after_calls i) ∧
  EHT.Remove Sample.hash_int t' 4%Z = (t', false).
Proof.
  split; [vm_compute; reflexivity|].
  apply (Remove_keeps_structure Sample.hash_int 2 8 Sample.calls
           Sample.after_calls 4%Z).
  vm_compute; reflexivity.
Defined.

Lemma first_Insert_splits_witness :
  0 < 2 ∧
  ∃ t : @EHT.ExtendibleHashTable Z Z,
    EHT.Insert Sample.hash_int 1 (EHT.new_table 2) 5%Z 1%Z = Some t ∧
    EHT.GetGlobalDepth t = 1 ∧ EHT.GetNumBuckets t = 2 ∧ EHT.dir_ t = [2; 1] ∧
    (∀ i, i < 2 → EHT.size_ (EHT.bucket_at t i) = 2 ∧ EHT.GetLocalDepth t i = 1) ∧
    EHT.entries t = [(5%Z, 1%Z)].
Proof.
  split; [lia|].
  apply (first_Insert_splits Sample.hash_int 2 0 5%Z 1%Z). lia.
Defined.

Lemma one_of_two_reached :
  BPM.reach 0%Z (λ _, 0%Z) Sample.hash_int BPM.any_call
    (BPM.new_bpm 0%Z 2 2 4) Sample.one_of_two.
Proof.
  apply (run_reach 0%Z (λ _, 0%Z) Sample.hash_int 8
           [BPM.CreatePage 0; BPM.CreatePage 0; BPM.UnpinPage 1 true]).
  by vm_compute.
Defined.

Lemma two_frames_fresh_reached :
  BPM.reach 0%Z (λ _, 0%Z) Sample.hash_int (BPM.fresh_id Sample.hash_int)
    (BPM.new_bpm 0%Z 2 2 4) Sample.two_frames.
Proof.
  apply (BPM.reach_call _ _ _ _ _ (BPM.CreatePage 0) 8 Sample.two_frames);
    [intros _ f; by vm_compute|by vm_compute|].
  apply BPM.reach_here.
Defined.

Lemma pinned_frame_is_kept_witness :
  BPM.reach 0%Z (λ _, 0%Z) Sample.hash_int BPM.any_call
    (BPM.new_bpm 0%Z 2 2 4) Sample.one_of_two ∧
  BPM.page_at (BPM.pages_ Sample.one_of_two) 0 = Some (BPM.mkPage 0 1 false 0%Z) ∧
  BPM.exec 0%Z (λ _, 0%Z) Sample.hash_int 8 Sample.one_of_two (BPM.CreatePage 0)
    = Some Sample.one_of_two_created ∧
  ∃ pg', BPM.page_at (BPM.pages_ Sample.one_of_two_created) 0 = Some pg' ∧
    BPM.page_id_ pg' = 0%Z ∧ BPM.data_ pg' = 0%Z ∧
    (1 - 1 ≤ BPM.pin_count_ pg')%Z ∧
    (false = true → BPM.is_dirty_ pg' = true) ∧
    0%Z ∉ BPM.free_list_ Sample.one_of_two_created.
Proof.
  split; [exact one_of_two_reached|]. split; [by vm_compute|].
  split; [by vm_compute|].
  apply (pinned_frame_is_kept 0%Z (λ _, 0%Z) Sample.hash_int 2 2 4 8
           Sample.one_of_two Sample.one_of_two_created (BPM.CreatePage 0)
           0%Z (BPM.mkPage 0 1 false 0%Z));
    [exact one_of_two_reached|by vm_compute|simpl; lia|by vm_compute].
Defined.

Lemma evictable_iff_unpinned_witness :
  BPM.reach 0%Z (λ _, 0%Z) Sample.hash_int BPM.any_call
    (BPM.new_bpm 0%Z 2 2 4) Sample.one_of_two ∧
  BPM.page_at (BPM.pages_ Sample.one_of_two) 1 = Some (BPM.mkPage 1 0 true 0%Z) ∧
  (LRUK.is_evictable (BPM.replacer_ Sample.one_of_two) 1 = true ↔
   (1%Z ∉ BPM.free_list_ Sample.one_of_two) ∧ 0%Z = 0%Z).
Proof.
  split; [exact one_of_two_reached|]. split; [by vm_compute|].
  apply (evictable_iff_unpinned 0%Z (λ _, 0%Z) Sample.hash_int 2 2 4
           Sample.one_of_two 1%Z (BPM.mkPage 1 0 true 0%Z));
    [exact one_of_two_reached|by vm_compute].
Defined.

Lemma free_frames_are_fresh_witness :
  BPM.reach 0%Z (λ _, 0%Z) Sample.hash_int BPM.any_call
    (BPM.new_bpm 0%Z 2 2 4) Sample.two_frames ∧
  BPM.free_list_ Sample.two_frames = [1%Z] ∧
  BPM.pool_size_ Sample.two_frames = 2 ∧
  NoDup (BPM.free_list_ Sample.two_frames) ∧
  (∀ f, f ∈ BPM.free_list_ Sample.two_frames →
     BPM.page_at (BPM.pages_ Sample.two_frames) f
       = Some (BPM.mkPage BPM.INVALID_PAGE_ID 0 false 0%Z) ∧
     LRUK.records_ (BPM.replacer_ Sample.two_frames) !! f = None ∧
     ∀ p, EHT.Find Sample.hash_int (BPM.page_table_ Sample.two_frames) p ≠ Some f) ∧
  (∀ f, is_Some (BPM.page_at (BPM.pages_ Sample.two_frames) f) →
     f ∈ BPM.free_list_ Sample.two_frames ∨
     is_Some (LRUK.records_ (BPM.replacer_ Sample.two_frames) !! f)).
Proof.
  split; [exact two_frames_reached|]. split; [by vm_compute|].
  apply (free_frames_are_fresh 0%Z (λ _, 0%Z) Sample.hash_int 2 2 4
           Sample.two_frames). exact two_frames_reached.
Defined.

Lemma no_handle_iff_all_pinned_witness :
  BPM.reach 0%Z (λ _, 0%Z) Sample.hash_int BPM.any_call
    (BPM.new_bpm 0%Z 1 2 4) Sample.one_pinned ∧
  BPM.all_pinned Sample.one_pinned = true ∧
  (∀ s', BPM.NewPgImp 0%Z Sample.hash_int 0 8 Sample.one_pinned = Some (s', None) ↔
         BPM.all_pinned Sample.one_pinned = true ∧ s' = Sample.one_pinned) ∧
  (∀ s', BPM.FetchPgImp 0%Z (λ _, 0%Z) Sample.hash_int 0 8 Sample.one_pinned 3
           = Some (s', None) ↔
         BPM.all_pinned Sample.one_pinned = true ∧ s' = Sample.one_pinned).
Proof.
  split; [exact one_pinned_reached|]. split; [by vm_compute|].
  apply (no_handle_iff_all_pinned 0%Z (λ _, 0%Z) Sample.hash_int 1 2 4 0%Z 8
           Sample.one_pinned 3%Z). exact one_pinned_reached.
Defined.

Lemma calls_are_defined_witness :
  BPM.reach 0%Z (λ _, 0%Z) Sample.hash_int BPM.any_call
    (BPM.new_bpm 0%Z 2 2 4) Sample.one_of_two ∧
  (∀ p d, is_Some (BPM.UnpinPgImp Sample.hash_int Sample.one_of_two p d)) ∧
  (∀ p, is_Some (BPM.FlushPgImp Sample.hash_int Sample.one_of_two p)) ∧
  is_Some (BPM.FlushAllPgsImp Sample.hash_int Sample.one_of_two) ∧
  (∀ p, is_Some (BPM.DeletePgImp 0%Z Sample.hash_int Sample.one_of_two p)) ∧
  (∀ u fuel, BPM.NewPgImp 0%Z Sample.hash_int u fuel Sample.one_of_two = None →
     ∃ s1 f, BPM.acquire 0%Z Sample.hash_int u Sample.one_of_two = Some (s1, Some f) ∧
       EHT.Insert Sample.hash_int fuel (BPM.page_table_ s1)
         (BPM.next_page_id_ Sample.one_of_two) f = None) ∧
  (∀ u fuel p,
     BPM.FetchPgImp 0%Z (λ _, 0%Z) Sample.hash_int u fuel Sample.one_of_two p = None →
     ∃ s1 f, BPM.acquire 0%Z Sample.hash_int u Sample.one_of_two = Some (s1, Some f) ∧
       EHT.Insert Sample.hash_int fuel (BPM.page_table_ s1) p f = None).
Proof.
  split; [exact one_of_two_reached|].
  apply (calls_are_defined 0%Z (λ _, 0%Z) Sample.hash_int 2 2 4 Sample.one_of_two).
  exact one_of_two_reached.
Defined.

Lemma NewPgImp_success_witness :
  BPM.reach 0%Z (λ _, 0%Z) Sample.hash_int BPM.any_call
    (BPM.new_bpm 0%Z 2 2 4) Sample.one_of_two ∧
  BPM.NewPgImp 0%Z Sample.hash_int 0 8 Sample.one_of_two
    = Some (Sample.one_of_two_created, Some (2, 1)%Z) ∧
  BPM.page_at (BPM.pages_ Sample.one_of_two_created) 1
    = Some (BPM.mkPage 2 1 false 0%Z) ∧
  BPM.mapped Sample.hash_int Sample.one_of_two_created 2 1 ∧
  BPM.disk_manager_ Sample.one_of_two_created = [BPM.DiskWrite 1 0%Z].
Proof.
  split; [exact one_of_two_reached|]. split; [by vm_compute|].
  destruct (NewPgImp_success 0%Z (λ _, 0%Z) Sample.hash_int 2 2 4 0%Z 8
              Sample.one_of_two Sample.one_of_two_created 2%Z 1%Z
              one_of_two_reached)
    as (_ & _ & Hpage & Hmap & _ & _ & _ & pg0 & Hpg0 & _ & Hdisk & _);
    [by vm_compute|].
  split; [exact Hpage|]. split; [exact Hmap|].
  vm_compute in Hpg0. injection Hpg0 as <-. exact Hdisk.
Defined.

Lemma FetchPgImp_miss_witness :
  BPM.reach 0%Z (λ _, 0%Z) Sample.hash_int BPM.any_call
    (BPM.new_bpm 0%Z 2 2 4) Sample.one_of_two ∧
  EHT.Find Sample.hash_int (BPM.page_table_ Sample.one_of_two) 7%Z = None ∧
  ∃ s', BPM.FetchPgImp 0%Z (λ _, 0%Z) Sample.hash_int 0 8 Sample.one_of_two 7
          = Some (s', Some 1%Z) ∧
    BPM.mapped Sample.hash_int s' 7 1 ∧
    BPM.next_page_id_ s' = BPM.next_page_id_ Sample.one_of_two ∧
    LRUK.is_evictable (BPM.replacer_ s') 1 = false.
Proof.
  split; [exact one_of_two_reached|]. split; [by vm_compute|].
  eexists. split; [by vm_compute|].
  match goal with |- BPM.mapped _ ?s' _ _ ∧ _ =>
    destruct (FetchPgImp_miss 0%Z (λ _, 0%Z) Sample.hash_int 2 2 4 0%Z 8
                Sample.one_of_two s' 7%Z 1%Z one_of_two_reached)
      as (Hnext & Hmap & Hev & _); [by vm_compute|by vm_compute|]
  end.
  split; [exact Hmap|]. split; [exact Hnext|exact Hev].
Defined.

Lemma dirty_data_reaches_disk_witness :
  BPM.reach 0%Z (λ _, 0%Z) Sample.hash_int BPM.any_call
    (BPM.new_bpm 0%Z 2 2 4) Sample.one_of_two ∧
  BPM.exec 0%Z (λ _, 0%Z) Sample.hash_int 8 Sample.one_of_two (BPM.CreatePage 0)
    = Some Sample.one_of_two_created ∧
  BPM.page_at (BPM.pages_ Sample.one_of_two) 1 = Some (BPM.mkPage 1 0 true 0%Z) ∧
  BPM.page_at (BPM.pages_ Sample.one_of_two_created) 1
    = Some (BPM.mkPage 2 1 false 0%Z) ∧
  BPM.stored (λ _, 0%Z) (BPM.disk_manager_ Sample.one_of_two_created) 1 = 0%Z.
Proof.
  split; [exact one_of_two_reached|]. split; [by vm_compute|].
  split; [by vm_compute|]. split; [by vm_compute|].
  apply (dirty_data_reaches_disk 0%Z (λ _, 0%Z) Sample.hash_int 2 2 4 8
           Sample.one_of_two Sample.one_of_two_created (BPM.CreatePage 0) 1%Z
           (BPM.mkPage 1 0 true 0%Z) (BPM.mkPage 2 1 false 0%Z));
    [exact one_of_two_reached|done|by vm_compute|by vm_compute|done
    |by vm_compute|done].
Defined.

Lemma FlushAllPgsImp_writes_witness :
  BPM.reach 0%Z (λ _, 0%Z) Sample.hash_int (BPM.fresh_id Sample.hash_int)
    (BPM.new_bpm 0%Z 2 2 4) Sample.two_frames ∧
  BPM.flush_writes (BPM.pages_ Sample.two_frames) = [BPM.DiskWrite 0 0%Z] ∧
  BPM.FlushAllPgsImp Sample.hash_int Sample.two_frames =
    Some (BPM.mkBPM (BPM.pages_ Sample.two_frames)
            (BPM.page_table_ Sample.two_frames)
            (BPM.replacer_ Sample.two_frames)
            (BPM.free_list_ Sample.two_frames)
            (BPM.next_page_id_ Sample.two_frames)
            (reverse (BPM.flush_writes (BPM.pages_ Sample.two_frames))
             ++ BPM.disk_manager_ Sample.two_frames)).
Proof.
  split; [exact two_frames_fresh_reached|]. split; [by vm_compute|].
  apply (FlushAllPgsImp_writes 0%Z (λ _, 0%Z) Sample.hash_int 2 2 4
           Sample.two_frames). exact two_frames_fresh_reached.
Defined.


Lemma pinned_page_stays_mapped_witness :
  BPM.reach 0%Z (λ _, 0%Z) Sample.hash_int (BPM.fresh_id Sample.hash_int)
    (BPM.new_bpm 0%Z 2 2 4) Sample.two_frames ∧
  BPM.mapped Sample.hash_int Sample.two_frames 0 0 ∧
  BPM.page_at (BPM.pages_ Sample.two_frames) 0 = Some (BPM.mkPage 0 1 false 0%Z) ∧
  BPM.mapped Sample.hash_int
    (Sample.after 2 [BPM.CreatePage 0; BPM.CreatePage 0]) 0 0.
Proof.
  split; [exact two_frames_fresh_reached|]. split; [by vm_compute|].
  split; [by vm_compute|].
  apply (pinned_page_stays_mapped 0%Z (λ _, 0%Z) Sample.hash_int 2 2 4 8
           Sample.two_frames (Sample.after 2 [BPM.CreatePage 0; BPM.CreatePage 0])
           (BPM.CreatePage 0) 0%Z 0%Z (BPM.mkPage 0 1 false 0%Z));
    [exact two_frames_fresh_reached|intros _ f; by vm_compute|by vm_compute
    |by vm_compute|simpl; lia|done|by vm_compute].
Defined.

Lemma slots_share_bucket_iff_witness :
  EHT.run Sample.hash_int 8 (EHT.new_table 2)
    [EHT.CInsert 0 7; EHT.CInsert 2 8; EHT.CInsert 4 9]%Z
    = Some Sample.three_keys ∧
  EHT.dir_ Sample.three_keys = [4; 1; 3; 1] ∧
  EHT.GetLocalDepth Sample.three_keys 1 = 1 ∧
  (EHT.slot Sample.three_keys 3 = EHT.slot Sample.three_keys 1 ↔
   3 mod 2 ^ EHT.GetLocalDepth Sample.three_keys 1
   = 1 mod 2 ^ EHT.GetLocalDepth Sample.three_keys 1) ∧
  ∀ kv, kv ∈ EHT.list_ (EHT.bucket_at Sample.three_keys 1) →
        (Sample.hash_int kv.1 mod 2 ^ Z.of_nat (EHT.GetLocalDepth Sample.three_keys 1))%Z
        = Z.of_nat (1 mod 2 ^ EHT.GetLocalDepth Sample.three_keys 1).
Proof.
  split; [vm_compute; reflexivity|]. split; [vm_compute; reflexivity|].
  split; [vm_compute; reflexivity|].
  apply (slots_share_bucket_iff Sample.hash_int 2 8
           [EHT.CInsert 0 7; EHT.CInsert 2 8; EHT.CInsert 4 9]%Z
           Sample.three_keys 1 3);
    [vm_compute; reflexivity|vm_compute; lia|vm_compute; lia].
Defined.

Lemma free_list_comes_first_witness :
  BPM.reach 0%Z (λ _, 0%Z) Sample.hash_int BPM.any_call
    (BPM.new_bpm 0%Z 2 2 4) Sample.two_frames ∧
  BPM.free_list_ Sample.two_frames = [1%Z] ∧
  ∃ s', BPM.NewPgImp 0%Z Sample.hash_int 0 8 Sample.two_frames
          = Some (s', Some (1, 1)%Z) ∧
    (BPM.free_list_ Sample.two_frames = 1%Z :: BPM.free_list_ s' ∧
     BPM.disk_manager_ s' = BPM.disk_manager_ Sample.two_frames ∧
     (∀ k, k ≠ 1%Z → EHT.Find Sample.hash_int (BPM.page_table_ s') k
                      = EHT.Find Sample.hash_int (BPM.page_table_ Sample.two_frames) k) ∧
     (∀ f', f' ≠ 1%Z → LRUK.records_ (BPM.replacer_ s') !! f'
                       = LRUK.records_ (BPM.replacer_ Sample.two_frames) !! f') ∨
     BPM.free_list_ Sample.two_frames = [] ∧ BPM.free_list_ s' = [] ∧
     (LRUK.Evict (BPM.replacer_ Sample.two_frames)).2 = Some 1%Z).
Proof.
  split; [exact two_frames_reached|]. split; [by vm_compute|].
  eexists. split; [by vm_compute|].
  apply (free_list_comes_first 0%Z (λ _, 0%Z) Sample.hash_int 2 2 4 0%Z 8
           Sample.two_frames two_frames_reached).
  by vm_compute.
Defined.

(** * Further statements at concrete states *)


Lemma failed_call_changes_nothing_witness :
  BPM.reach 0%Z (λ _, 0%Z) Sample.hash_int BPM.any_call
    (BPM.new_bpm 0%Z 1 2 4) Sample.one_pinned ∧
  BPM.all_pinned Sample.one_pinned = true ∧
  (∀ u fuel s',
     BPM.NewPgImp 0%Z Sample.hash_int u fuel Sample.one_pinned = Some (s', None) →
     s' = Sample.one_pinned ∧ BPM.all_pinned Sample.one_pinned = true) ∧
  (∀ u fuel p s',
     BPM.FetchPgImp 0%Z (λ _, 0%Z) Sample.hash_int u fuel Sample.one_pinned p
       = Some (s', None) →
     s' = Sample.one_pinned ∧ BPM.all_pinned Sample.one_pinned = true) ∧
  (BPM.all_pinned Sample.one_pinned = true →
   ∀ u fuel p,
     BPM.NewPgImp 0%Z Sample.hash_int u fuel Sample.one_pinned
       = Some (Sample.one_pinned, None) ∧
     BPM.FetchPgImp 0%Z (λ _, 0%Z) Sample.hash_int u fuel Sample.one_pinned p
       = Some (Sample.one_pinned, None)).
Proof.
  split; [exact one_pinned_reached|]. split; [by vm_compute|].
  apply (failed_call_changes_nothing 0%Z (λ _, 0%Z) Sample.hash_int 1 2 4
           Sample.one_pinned). exact one_pinned_reached.
Defined.

Lemma eviction_uses_victim_witness :
  (BPM.reach 0%Z (λ _, 0%Z) Sample.hash_int BPM.any_call
     (BPM.new_bpm 0%Z 1 2 4) Sample.one_dirty ∧
   BPM.free_list_ Sample.one_dirty = [] ∧
   BPM.all_pinned Sample.one_dirty = false ∧
   ∃ r1 f pg, LRUK.Evict (BPM.replacer_ Sample.one_dirty) = (r1, Some f) ∧
     BPM.page_at (BPM.pages_ Sample.one_dirty) f = Some pg ∧
     ∀ u, BPM.acquire 0%Z Sample.hash_int u Sample.one_dirty =
       Some (BPM.mkBPM (BPM.set_page (BPM.pages_ Sample.one_dirty) f
                          (BPM.mkPage (BPM.page_id_ pg) (BPM.pin_count_ pg)
                                      false 0%Z))
               (EHT.Remove Sample.hash_int (BPM.page_table_ Sample.one_dirty)
                  (BPM.page_id_ pg)).1
               r1 [] (BPM.next_page_id_ Sample.one_dirty)
               (if BPM.is_dirty_ pg
                then BPM.WritePage (BPM.disk_manager_ Sample.one_dirty)
                       (BPM.page_id_ pg) (BPM.data_ pg)
                else BPM.disk_manager_ Sample.one_dirty), Some f)) ∧
  (BPM.reach 0%Z (λ _, 0%Z) Sample.hash_int BPM.any_call
     (BPM.new_bpm 0%Z 1 2 4) Sample.one_pinned ∧
   BPM.free_list_ Sample.one_pinned = [] ∧
   (LRUK.Evict (BPM.replacer_ Sample.one_pinned)).2 = None ∧
   BPM.all_pinned Sample.one_pinned = true ∧
   ∀ u fuel p,
     BPM.NewPgImp 0%Z Sample.hash_int u fuel Sample.one_pinned
       = Some (Sample.one_pinned, None) ∧
     BPM.FetchPgImp 0%Z (λ _, 0%Z) Sample.hash_int u fuel Sample.one_pinned p
       = Some (Sample.one_pinned, None)).
Proof.
  split.
  - split; [exact one_dirty_reached|]. split; [by vm_compute|].
    split; [by vm_compute|].
    destruct (eviction_uses_victim 0%Z (λ _, 0%Z) Sample.hash_int 1 2 4
                Sample.one_dirty one_dirty_reached) as [_ H]; [by vm_compute|].
    apply H. by vm_compute.
  - split; [exact one_pinned_reached|]. split; [by vm_compute|].
    split; [by vm_compute|].
    destruct (eviction_uses_victim 0%Z (λ _, 0%Z) Sample.hash_int 1 2 4
                Sample.one_pinned one_pinned_reached) as [H _]; [by vm_compute|].
    apply H. by vm_compute.
Defined.

Lemma page_ids_increase_witness :
  BPM.reach 0%Z (λ _, 0%Z) Sample.hash_int BPM.any_call
    (BPM.new_bpm 0%Z 2 2 4) (Sample.pool 2) ∧
  BPM.NewPgImp 0%Z Sample.hash_int 0 8 (Sample.pool 2)
    = Some (Sample.two_frames, Some (0, 0)%Z) ∧
  BPM.run 0%Z (λ _, 0%Z) Sample.hash_int 8 Sample.two_frames
    [BPM.CreatePage 0; BPM.UnpinPage 1 true] = Some Sample.one_of_two ∧
  BPM.NewPgImp 0%Z Sample.hash_int 0 8 Sample.one_of_two
    = Some (Sample.one_of_two_created, Some (2, 1)%Z) ∧
  (2 < 2 ^ 31)%Z ∧
  (0 ≤ 0 < 2)%Z.
Proof.
  split; [apply BPM.reach_here|]. split; [by vm_compute|].
  split; [by vm_compute|]. split; [by vm_compute|]. split; [lia|].
  apply (page_ids_increase 0%Z (λ _, 0%Z) Sample.hash_int 2 2 4 0%Z 8
           (Sample.pool 2) Sample.two_frames 0%Z 0%Z 8
           [BPM.CreatePage 0; BPM.UnpinPage 1 true] Sample.one_of_two
           0%Z 8 Sample.one_of_two_created 2%Z 1%Z);
    [apply BPM.reach_here|by vm_compute|by vm_compute|by vm_compute|lia].
Defined.
